(** * Coupling analysers: a shallow embedding and its properties

    The development follows the Python sources of the repository:
    - [Ast]      the fragment of Python's [ast] the analysers dispatch on;
    - [Extrator] [extrator_codigo.py]: function table and call sets;
    - [Main]     [main.py]: the adjacency matrix of the call sets;
    - [Zhang]    [analisador_zhang.py]: entropy and judgment-matrix models;
    - [Dou]      [analisador_dou.py]: the VRM model on variables;
    - [Variaveis] [extrator_codigo.py]: variables and their dependencies;
    - [Programa] [main.py]: the prompts and the program;
    - [Briand]   [analisador_coupling_briand.py]: elementary couplings.

    Conventions.  Python floats are idealised as real numbers ([R]); the
    adjacency matrix holds integer-valued floats and is kept in [Z].  Two
    places where a float leaves the real numbers are modelled as such: the
    power [2.0 ** e] of the VRM model, which overflows, and the values
    [float()] reads at the prompts, which can be [nan] or an infinity.
    A Python string is held as its UTF-8 bytes; comparison, [in],
    [startswith] and [endswith] agree on bytes and on code points, and
    [len] counts code points.  Python dictionaries and sets are [gmap] and
    [gset]; a loop over a dictionary or a set runs over [map_to_list] or
    [elements].  An exception is a value [inl e] of the sum [erro + A]. *)

From Stdlib Require Import Reals Lra Lia ZArith.
From stdpp Require Import gmap strings list fin_maps sorting.

#[local] Set Warnings "-register-all,-clear-no-such-hyp".
#[local] Open Scope Z_scope.

(** ** Exceptions *)

Inductive erro : Type :=
  | ValueError
  | ZeroDivisionError
  | KeyError
  | IndexError
  | OverflowError
  | LinAlgError.

Definition resultado (A : Type) : Type := (erro + A)%type.

Definition ret {A} (x : A) : resultado A := inr x.
Definition raise {A} (e : erro) : resultado A := inl e.
Definition bind {A B} (c : resultado A) (k : A → resultado B) : resultado B :=
  match c with
  | inl e => inl e
  | inr x => k x
  end.

Notation "x ←! c ; k" := (bind c (λ x, k))
  (at level 20, c at level 100, k at level 200, right associativity,
   format "x  ←!  c ;  '/' k").
Notation "' p ←! c ; k" := (bind c (λ x, match x with p => k end))
  (at level 20, p pattern, c at level 100, k at level 200, right associativity,
   format "' p  ←!  c ;  '/' k").

(** [d[k]] on a dictionary: [KeyError] when the key is missing. *)
Definition dict_get {V} (d : gmap string V) (k : string) : resultado V :=
  match d !! k with
  | Some v => ret v
  | None => raise KeyError
  end.

(** [l[i]] on a list or array, for a non-negative index. *)
Definition list_get {V} (l : list V) (i : nat) : resultado V :=
  match l !! i with
  | Some v => ret v
  | None => raise IndexError
  end.

#[global] Instance Rlt_decision (x y : R) : Decision (x < y)%R := Rlt_dec x y.
#[global] Instance Rle_decision (x y : R) : Decision (x <= y)%R := Rle_dec x y.
#[global] Instance Req_decision : EqDecision R := Req_dec_T.

#[global] Instance R_inhabited : Inhabited R := populate 0%R.

Definition soma_R (l : list R) : R := foldr Rplus 0%R l.
Definition soma_Z (l : list Z) : Z := foldr Z.add 0 l.

(** ** The syntax trees the analysers walk *)

Module Ast.

(** The node kinds of Python's [ast] that the analysers test with
    [isinstance]; every other kind is [Other] with its child nodes in
    field order.  [FunctionDef] keeps [name] and its child nodes
    (arguments, body, decorators). *)
Inductive node : Type :=
  | Name (id : string)
  | Attribute (value : node) (attr : string)
  | Call (func : node) (args : list node) (keywords : list node)
  | FunctionDef (name : string) (children : list node)
  | Other (children : list node).

(** Two listings by depth put together, depth by depth. *)
Fixpoint juntar (a b : list (list node)) : list (list node) :=
  match a, b with
  | [], _ => b
  | _, [] => a
  | x :: a', y :: b' => (x ++ y) :: juntar a' b'
  end.

(** The nodes of a subtree by depth: the node, then for each depth the
    nodes its children have there, child after child in field order. *)
Fixpoint niveis (n : node) : list (list node) :=
  [n] :: match n with
         | Name _ => []
         | Attribute v _ => niveis v
         | Call f a k =>
             juntar (niveis f)
               (juntar (foldr (λ c, juntar (niveis c)) [] a)
                  (foldr (λ c, juntar (niveis c)) [] k))
         | FunctionDef _ ch => foldr (λ c, juntar (niveis c)) [] ch
         | Other ch => foldr (λ c, juntar (niveis c)) [] ch
         end.

(** [ast.walk]: every node of the subtree, once.  It takes a node from
    the left of a queue, appends its children on the right and yields
    it, so the nodes come breadth first: depth after depth, and within
    a depth in the order of their parents. *)
Definition walk (n : node) : list node := concat (niveis n).

End Ast.

(** ** extrator_codigo.py *)

Module Extrator.
Import Ast.

Definition _extrair_nome_chamada (node_call : node) : option string :=
  match node_call with
  | Call (Name id) _ _ => Some id
  | Call (Attribute _ attr) _ _ => Some attr
  | _ => None
  end.

(** Python's [sub in s] on strings. *)
Fixpoint contem (sub s : string) : bool :=
  String.prefix sub s ||
  match s with
  | EmptyString => false
  | String _ s' => contem sub s'
  end.

(** Python's [s.endswith(suf)]. *)
Definition endswith (s suf : string) : bool :=
  let ls := String.length s in
  let lf := String.length suf in
  bool_decide (lf ≤ ls)%nat &&
  String.eqb (String.substring (ls - lf) lf s) suf.

(** The test of [_analisar_chamadas] on a callee name and a target. *)
Definition casa (funcao_chamada nome_alvo : string) : bool :=
  contem funcao_chamada nome_alvo || endswith nome_alvo funcao_chamada.

(** The files of the project that parse, as [(modulo, tree)]. *)
Definition projeto : Type := list (string * node).

Definition nome_qualificado (modulo name : string) : string :=
  modulo +:+ "." +:+ name.

(** [_encontrar_funcoes]: [self.funcoes], reduced to the ["node"] field. *)
Definition _encontrar_funcoes (p : projeto) : gmap string node :=
  foldl (λ (funcoes : gmap string node) '(modulo, tree),
           foldl (λ (funcoes : gmap string node) n,
                    match n with
                    | FunctionDef name _ =>
                        <[nome_qualificado modulo name := n]> funcoes
                    | _ => funcoes
                    end)
             funcoes (walk tree))
    ∅ p.

(** [self.chamadas[nome_func].add(nome_alvo)] on a [defaultdict(set)]. *)
Definition adicionar (chamadas : gmap string (gset string))
    (nome_func nome_alvo : string) : gmap string (gset string) :=
  <[nome_func := {[nome_alvo]} ∪ default ∅ (chamadas !! nome_func)]> chamadas.

(** The loop over [self.funcoes.keys()] for one call node. *)
Definition registrar_chamada (alvos : list string) (nome_func : string)
    (chamadas : gmap string (gset string)) (n : node)
    : gmap string (gset string) :=
  match n with
  | Call _ _ _ =>
      match _extrair_nome_chamada n with
      | Some funcao_chamada =>
          if decide (funcao_chamada = "") then chamadas
          else
            foldl (λ chamadas nome_alvo,
                     if casa funcao_chamada nome_alvo then
                       if decide (nome_alvo ≠ nome_func)
                       then adicionar chamadas nome_func nome_alvo
                       else chamadas
                     else chamadas)
              chamadas alvos
      | None => chamadas
      end
  | _ => chamadas
  end.

Definition _analisar_chamadas (funcoes : gmap string node)
    : gmap string (gset string) :=
  foldl (λ chamadas '(nome_func, node_func),
           foldl (registrar_chamada (map_to_list funcoes).*1 nome_func)
             chamadas (walk node_func))
    ∅ (map_to_list funcoes).

(** The callee names found in a function: one for each call node whose
    callee is a name or an attribute, empty names left out as the test
    [if funcao_chamada] does. *)
Definition nomes_chamados (node_func : node) : list string :=
  filter (λ nm, nm ≠ "") (omap _extrair_nome_chamada (walk node_func)).

(** [aresta funcoes f g]: some call site of [f] names a callee that
    matches the other function [g]. *)
Definition aresta (funcoes : gmap string node) (f g : string) : Prop :=
  ∃ node_f nm,
    funcoes !! f = Some node_f ∧ is_Some (funcoes !! g) ∧ g ≠ f
    ∧ nm ∈ nomes_chamados node_f ∧ casa nm g = true.

End Extrator.

(** ** main.py *)

Module Main.

Definition matriz : Type := list (list Z).

(** [np.zeros((n, n))] *)
Definition zeros (n : nat) : matriz := replicate n (replicate n 0).

(** [matriz[i][j] += 1] on an [n × n] array with [i, j < n]. *)
Definition incrementar (m : matriz) (i j : nat) : matriz :=
  match m !! i with
  | Some linha =>
      match linha !! j with
      | Some v => <[i := <[j := v + 1]> linha]> m
      | None => m
      end
  | None => m
  end.

(** The shape [(n, n)]. *)
Definition quadrada (n : nat) (m : matriz) : Prop :=
  length m = n ∧ Forall (λ linha, length linha = n) m.

(** [matriz[i][j]] for indices in range. *)
Definition entrada (m : matriz) (i j : nat) : Z := (m !!! i) !!! j.

(** [{f: i for i, f in enumerate(funcoes_ordenadas)}] *)
Definition indice_map (funcoes_ordenadas : list string) : gmap string nat :=
  foldl (λ (d : gmap string nat) '(i, f), <[f := i]> d) ∅
    (imap (λ i f, (i, f)) funcoes_ordenadas).

Definition obter_matriz_adjacencia (funcoes_ordenadas : list string)
    (chamadas : gmap string (gset string)) : matriz :=
  let n := length funcoes_ordenadas in
  let imapa := indice_map funcoes_ordenadas in
  foldl (λ (m : matriz) '(origem, destinos),
           match imapa !! origem with
           | Some i =>
               foldl (λ (m : matriz) destino,
                        match imapa !! destino with
                        | Some j => incrementar m i j
                        | None => m
                        end)
                 m (elements (destinos : gset string))
           | None => m
           end)
    (zeros n) (map_to_list chamadas).

(** [{funcao: 0.5 for funcao in funcoes_ordenadas}] *)
Definition probabilidades_padrao (funcoes_ordenadas : list string)
    : gmap string R :=
  list_to_map ((λ funcao, (funcao, (1 / 2)%R)) <$> funcoes_ordenadas).

Definition string_le (a b : string) : Prop := String.leb a b = true.

#[global] Instance string_le_dec a b : Decision (string_le a b).
Proof. unfold string_le. apply _. Defined.

(** [sorted(extrator.funcoes.keys())] *)
Definition funcoes_ordenadas (funcoes : gmap string Ast.node) : list string :=
  merge_sort string_le (map_to_list funcoes).*1.

(** The matrix [main] hands to the Zhang model for a project. *)
Definition matriz_do_projeto (p : Extrator.projeto) : matriz :=
  let funcoes := Extrator._encontrar_funcoes p in
  obter_matriz_adjacencia (funcoes_ordenadas funcoes)
    (Extrator._analisar_chamadas funcoes).

End Main.

(** ** analisador_zhang.py *)

Module Zhang.
Import Main.

(** [np.fill_diagonal(m_temp, 0)] on a copy. *)
Definition fill_diagonal_0 (m : matriz) : matriz :=
  imap (λ i linha, <[i := 0]> linha) m.

(** [np.sum] of a two-dimensional array. *)
Definition np_sum (m : matriz) : Z := soma_Z (soma_Z <$> m).

Record acoplas : Type := {
  M : Z;
  M_diretos : Z;
  graus : list Z
}.

(** [_contar_acoplas]: [int(x / 2)] truncates, and so does [Z.quot]. *)
Definition _contar_acoplas (matriz_adjacencia : matriz) : acoplas :=
  let m_temp := fill_diagonal_0 matriz_adjacencia in
  {| M := Z.quot (np_sum m_temp) 2;
     M_diretos := np_sum m_temp;
     graus := soma_Z <$> matriz_adjacencia |}.

Definition log10 (x : R) : R := (ln x / ln 10)%R.

Record item_entropia : Type := {
  funcao : string;
  ni : R;
  pi : R;
  termo : R
}.

Record entropia : Type := {
  H_entropy : R;
  H_entropy_detalhado : list item_entropia;
  H_normalized : R
}.

(** The entropy term as the specification words it, for the row sum
    [n_i], the probability [p_i] and the count [M]. *)
Definition termo_spec (n_i p_i : R) (M : Z) : R :=
  if decide ((n_i > 0)%R ∧ (p_i > 0)%R ∧ M > 0)
  then (- ((n_i * p_i) / (2 * IZR M)) * log10 (n_i / (2 * IZR M)))%R
  else 0%R.

(** The record expected for entity [i], named [f]: its row sum, its
    probability and the term of the specification. *)
Definition item_de (a : acoplas) (probabilidades : gmap string R)
    (i : nat) (f : string) : item_entropia :=
  {| funcao := f;
     ni := IZR (graus a !!! i);
     pi := probabilidades !!! f;
     termo := termo_spec (IZR (graus a !!! i)) (probabilidades !!! f) (M a) |}.

(** Body of the loop of [_calcular_entropy_model] for entity [i]. *)
Definition passo_entropia (a : acoplas) (probabilidades : gmap string R)
    (acc : resultado (R * list item_entropia)) (e : nat * string)
    : resultado (R * list item_entropia) :=
  let '(i, funcao) := e in
  '(H_total, detalhado) ←! acc;
  g ←! list_get (graus a) i;
  let ni := IZR g in
  pi ←! dict_get probabilidades funcao;
  if decide ((0 < ni)%R ∧ (0 < pi)%R ∧ 0 < M a) then
    let coef := ((ni * pi) / IZR (2 * M a))%R in
    let termo := (- coef * log10 (ni / IZR (2 * M a)))%R in
    ret ((H_total + termo)%R,
         detalhado ++ [ {| funcao := funcao; ni := ni; pi := pi; termo := termo |} ])
  else
    ret (H_total,
         detalhado ++ [ {| funcao := funcao; ni := ni; pi := pi; termo := 0 |} ]).

(** [H_normalized], from [self.n] and [self.H_entropy]. *)
Definition normalizar (n : nat) (H_entropy : R) : R :=
  if decide (1 < n)%nat then
    let H_max := (INR n * log10 (INR n))%R in
    if decide (0 < H_max)%R then Rmin 1 (H_entropy / H_max) else 0%R
  else 0%R.

Definition _calcular_entropy_model (funcoes : list string) (a : acoplas)
    (probabilidades : gmap string R) : resultado entropia :=
  let n := length funcoes in
  '(H_total, detalhado) ←!
     foldl (passo_entropia a probabilidades) (ret (0%R, []))
       (imap (λ i f, (i, f)) funcoes);
  ret {| H_entropy := H_total;
         H_entropy_detalhado := detalhado;
         H_normalized := normalizar n H_total |}.

(** Classification of [H]; the strings are those of the source. *)
Definition classificacao_acoplamento (e : entropia) : string :=
  if decide (H_entropy e < 33 / 100)%R then "✓ Baixo acoplamento"
  else if decide (H_entropy e < 66 / 100)%R then "~ Acoplamento moderado"
  else "✗ Alto acoplamento".

(** Sequencing of a fallible loop body over a list. *)
Fixpoint mapR {A B} (f : A → resultado B) (l : list A) : resultado (list B) :=
  match l with
  | [] => ret []
  | x :: l' => y ←! f x; ys ←! mapR f l'; ret (y :: ys)
  end.

(** Cell [(i, j)] of the judgment matrix. *)
Definition celula_julgamento (matriz_adjacencia : matriz) (i j : nat)
    : resultado R :=
  if decide (i = j) then ret 1%R
  else
    linha ←! list_get matriz_adjacencia i;
    n_ij ←! list_get linha j;
    if decide (0 < n_ij) then
      let soma_i := soma_Z linha in
      if decide (0 < soma_i) then ret (IZR n_ij / IZR soma_i)%R
      else ret 1%R
    else ret 1%R.

Definition matriz_julgamento (n : nat) (matriz_adjacencia : matriz)
    : resultado (list (list R)) :=
  mapR (λ i, mapR (λ j, celula_julgamento matriz_adjacencia i j) (seq 0 n))
    (seq 0 n).

(** [np.max] and [np.argmax]: [ValueError] on an empty array. *)
Definition np_max (l : list R) : resultado R :=
  match l with
  | [] => raise ValueError
  | x :: l' => ret (foldl Rmax x l')
  end.

Fixpoint argmax_aux (l : list R) (i : nat) (melhor : R) (imelhor : nat) : nat :=
  match l with
  | [] => imelhor
  | x :: l' =>
      if decide (melhor < x)%R then argmax_aux l' (S i) x i
      else argmax_aux l' (S i) melhor imelhor
  end.

Definition np_argmax (l : list R) : resultado nat :=
  match l with
  | [] => raise ValueError
  | x :: l' => ret (argmax_aux l' 1 x 0)
  end.

Record julgamento : Type := {
  lambda_max : R;
  sorting_vector : list R;
  C_judgment : R
}.

Section Julgamento.

(** [np.linalg.eig] is outside the repository: it is a parameter, which
    either raises or returns the eigenvalues and the matrix whose
    columns are the eigenvectors; the model keeps their real parts,
    the only ones the caller reads. *)
Variable eig : list (list R) → resultado (list R * list (list R)).

(** The body of the [try]. *)
Definition corpo_try (funcoes : list string) (probabilidades : gmap string R)
    (A : list (list R)) : resultado julgamento :=
  let n := length funcoes in
  '(eigenvalues, eigenvectors) ←! eig A;
  lambda_max ←! np_max eigenvalues;
  idx_max ←! np_argmax eigenvalues;
  v_max ←! mapR (λ linha, list_get linha idx_max) eigenvectors;
  let W := (λ v, (v / soma_R v_max)%R) <$> v_max in
  C_total ←!
    foldl (λ (acc : resultado R) i,
             C_total ←! acc;
             f ←! list_get funcoes i;
             pi ←! dict_get probabilidades f;
             wi ←! list_get W i;
             linha ←! list_get A i;
             ret (C_total + pi * wi * soma_R linha)%R)
      (ret 0%R) (seq 0 n);
  if decide (n = 0%nat) then raise ZeroDivisionError
  else ret {| lambda_max := lambda_max;
              sorting_vector := W;
              C_judgment := (C_total / INR n)%R |}.

(** The [except Exception] branch. *)
Definition recuo (n : nat) : julgamento :=
  {| lambda_max := 0;
     sorting_vector := replicate n (1 / INR n)%R;
     C_judgment := 0 |}.

(** [_calcular_judgment_matrix_model]: building [A] is outside the
    [try], so an index error there reaches the caller. *)
Definition _calcular_judgment_matrix_model (funcoes : list string)
    (matriz_adjacencia : matriz) (probabilidades : gmap string R)
    : resultado (list (list R) * julgamento) :=
  let n := length funcoes in
  A ←! matriz_julgamento n matriz_adjacencia;
  match corpo_try funcoes probabilidades A with
  | inr j => ret (A, j)
  | inl _ => ret (A, recuo n)
  end.

(** [AnalisadorZhang.__init__] *)
Definition AnalisadorZhang (funcoes : list string)
    (matriz_adjacencia : matriz) (probabilidades : gmap string R)
    : resultado (acoplas * entropia * (list (list R) * julgamento)) :=
  let a := _contar_acoplas matriz_adjacencia in
  e ←! _calcular_entropy_model funcoes a probabilidades;
  j ←! _calcular_judgment_matrix_model funcoes matriz_adjacencia probabilidades;
  ret (a, e, j).

End Julgamento.

End Zhang.

(** ** analisador_dou.py *)

Module Dou.

(** [variaveis_dict]: the insertion-ordered dictionary of the extractor,
    reduced to the field that is read, ["frequencia"]. *)
Definition variaveis_dict : Type := list (string * Z).

Definition keys (d : variaveis_dict) : list string := d.*1.

(** [self.variaveis_dict[var]["frequencia"]], for a key of the dictionary. *)
Definition frequencia (d : variaveis_dict) (var : string) : Z :=
  match list_find (λ kv, kv.1 = var) d with
  | Some (_, kv) => kv.2
  | None => 0
  end.

Record bfs_state : Type := {
  profundidades : gmap string Z;
  visitados : gset string;
  fila : list string
}.

(** A variable is a root when it has no entry in [var_dependencies] or an
    empty one. *)
Definition eh_raiz (var_dependencies : gmap string (gset string))
    (var : string) : bool :=
  match var_dependencies !! var with
  | None => true
  | Some ds => bool_decide (size ds = 0%nat)
  end.

Definition nos_raiz (variaveis : list string)
    (var_dependencies : gmap string (gset string)) : gset string :=
  list_to_set (filter (λ var, eh_raiz var_dependencies var = true) variaveis).

(** Body of the [for var_dependente in self.variaveis] loop for one
    dequeued [var_atual]. *)
Definition visitar_dependente (var_dependencies : gmap string (gset string))
    (var_atual : string) (prof_atual : Z)
    (st : bfs_state) (var_dependente : string) : bfs_state :=
  match var_dependencies !! var_dependente with
  | Some ds =>
      if decide (var_atual ∈ ds) then
        let nova_prof := prof_atual + 1 in
        if decide (var_dependente ∈ visitados st) then
          {| profundidades :=
               <[var_dependente :=
                   Z.max (profundidades st !!! var_dependente) nova_prof]>
                 (profundidades st);
             visitados := visitados st;
             fila := fila st |}
        else
          {| profundidades := <[var_dependente := nova_prof]> (profundidades st);
             visitados := {[var_dependente]} ∪ visitados st;
             fila := fila st ++ [var_dependente] |}
      else st
  | None => st
  end.

(** One turn of [while fila]: [fila.pop(0)] then the inner loop. *)
Definition passo (variaveis : list string)
    (var_dependencies : gmap string (gset string))
    (var_atual : string) (st : bfs_state) : bfs_state :=
  let prof_atual := profundidades st !!! var_atual in
  foldl (visitar_dependente var_dependencies var_atual prof_atual) st variaveis.

Fixpoint bfs (fuel : nat) (variaveis : list string)
    (var_dependencies : gmap string (gset string))
    (st : bfs_state) : bfs_state :=
  match fuel with
  | O => st
  | S fuel' =>
      match fila st with
      | [] => st
      | var_atual :: resto =>
          bfs fuel' variaveis var_dependencies
            (passo variaveis var_dependencies var_atual
               {| profundidades := profundidades st;
                  visitados := visitados st;
                  fila := resto |})
      end
  end.

Definition estado_inicial (variaveis : list string)
    (var_dependencies : gmap string (gset string))
    (fila0 : list string) : bfs_state :=
  {| profundidades := list_to_map ((λ var, (var, 0)) <$> variaveis);
     visitados := nos_raiz variaveis var_dependencies;
     fila := fila0 |}.

(** [_calcular_profundidades_arvore].  [fila0] is [list(nos_raiz)]: Python
    lists a set in an unspecified order, so the listing is an argument
    (a permutation of [elements (nos_raiz ...)]).  Every variable enters
    the queue at most once, so [length variaveis] turns empty it
    (lemma [bfs_termina]). *)
Definition _calcular_profundidades_arvore (variaveis : list string)
    (var_dependencies : gmap string (gset string))
    (fila0 : list string) : gmap string Z :=
  profundidades
    (bfs (length variaveis) variaveis var_dependencies
       (estado_inicial variaveis var_dependencies fila0)).

(** The variables the loop can dequeue: the roots, and every variable
    that depends on one of them. *)
Inductive alcancavel (variaveis : list string)
    (var_dependencies : gmap string (gset string)) : string → Prop :=
  | alc_raiz v :
      v ∈ variaveis → eh_raiz var_dependencies v = true →
      alcancavel variaveis var_dependencies v
  | alc_passo u v ds :
      alcancavel variaveis var_dependencies u →
      v ∈ variaveis → var_dependencies !! v = Some ds → u ∈ ds →
      alcancavel variaveis var_dependencies v.

(** Variables not yet visited plus queue length: constant over the inner
    loop, and one less after each [pop]. *)
Definition medida (variaveis : list string) (st : bfs_state) : nat :=
  (size ((list_to_set variaveis : gset string) ∖ visitados st)
   + length (fila st))%nat.

(** What a turn of the loop keeps: a queue of variables that can be
    dequeued, and the initial depth [p0] of those that cannot. *)
Definition inv_alcance (variaveis : list string)
    (var_dependencies : gmap string (gset string))
    (p0 : gmap string Z) (st : bfs_state) : Prop :=
  (∀ v, v ∈ fila st → alcancavel variaveis var_dependencies v)
  ∧ (∀ v, ¬ alcancavel variaveis var_dependencies v →
          profundidades st !! v = p0 !! v).

(** What a turn of the loop keeps about the values: queued names are
    variables, every variable has a depth, and a depth is at least 0 and
    at most the number of turns taken so far. *)
Definition inv_limites (variaveis : list string) (st : bfs_state) : Prop :=
  (∀ v, v ∈ fila st → v ∈ variaveis)
  ∧ (∀ v, v ∈ variaveis → is_Some (profundidades st !! v))
  ∧ (∀ v x, profundidades st !! v = Some x →
       0 ≤ x
       ∧ x + Z.of_nat (medida variaveis st) ≤ Z.of_nat (length variaveis)).

(** Every variable that depends on [u] has been visited. *)
Definition dependentes_visitados (variaveis : list string)
    (var_dependencies : gmap string (gset string))
    (st : bfs_state) (u : string) : Prop :=
  ∀ v ds, v ∈ variaveis → var_dependencies !! v = Some ds → u ∈ ds →
          v ∈ visitados st.

(** What a turn of the loop keeps about the visited set; [pendente] is
    the variable dequeued by the turn in progress, if any.  A visited
    variable is that one, or waits in the queue, or has had its
    dependents visited; and a visited variable that is no root has a
    depth of at least 1. *)
Definition inv_fecho (variaveis : list string)
    (var_dependencies : gmap string (gset string))
    (pendente : option string) (st : bfs_state) : Prop :=
  (∀ u, u ∈ visitados st →
     Some u = pendente ∨ u ∈ fila st
     ∨ dependentes_visitados variaveis var_dependencies st u)
  ∧ (∀ v, v ∈ visitados st →
       eh_raiz var_dependencies v = true
       ∨ ∃ x, profundidades st !! v = Some x ∧ 1 ≤ x).

(** [2.0 ** e] for an [int] [e].  The floats end below [2.0 ** 1024],
    where Python raises [OverflowError]; below [2.0 ** -1074], the least
    positive float, the power is [0.0], without an exception. *)
Definition potencia_de_2 (e : Z) : resultado R :=
  if decide (1024 ≤ e) then raise OverflowError
  else if decide (e < -1074) then ret 0%R
  else ret (powerRZ 2 e).

(** [1.0 / x], for the powers of 2 from [2.0 ** -1] on that the depths,
    never negative, give. *)
Definition dividir_1 (x : R) : resultado R :=
  if decide (x = 0%R) then raise ZeroDivisionError else ret (1 / x)%R.

(** [(dep_i + 1) * (1.0 / (2.0 ** (dep_i - 1)))] *)
Definition calcular_hc (dep_i : Z) : resultado R :=
  potencia ←! potencia_de_2 (dep_i - 1);
  inverso ←! dividir_1 potencia;
  ret (IZR (dep_i + 1) * inverso)%R.

(** The value of that expression when the power is a float other than
    [0.0].  No depth is negative (lemma [profundidade_nao_negativa]), so
    the exponent is never below -1. *)
Definition hc_de_profundidade (dep_i : Z) : R :=
  (IZR (dep_i + 1) * (1 / powerRZ 2 (dep_i - 1)))%R.

Record coeficientes : Type := {
  mc_values : gmap string R;
  sc_values : gmap string R;
  hc_values : gmap string R
}.

(** The three loops of [_calcular_coeficientes]. *)
Definition passo_mc (manual_coefficients : gmap string R)
    (m : gmap string R) (var : string) : gmap string R :=
  <[var := default 1%R (manual_coefficients !! var)]> m.

Definition passo_sc (desvio : R) (m : gmap string R) (e : R * string)
    : gmap string R :=
  let '(Xi, var) := e in <[var := (Xi + desvio)%R]> m.

Definition passo_hc (profundidades : gmap string Z)
    (acc : resultado (gmap string R)) (var : string)
    : resultado (gmap string R) :=
  m ←! acc;
  dep_i ←! dict_get profundidades var;
  hc ←! calcular_hc dep_i;
  ret (<[var := hc]> m).

(** [sqrt(Σ(Xj - μ)² / N)], and [0.0] for [N = 0]. *)
Definition desvio_padrao (frequencias : list R) : R :=
  let N := length frequencias in
  let mi := (soma_R frequencias / INR N)%R in
  let soma_quadrados :=
    soma_R ((λ x, ((x - mi) * (x - mi))%R) <$> frequencias) in
  if decide (0 < N)%nat then sqrt (soma_quadrados / INR N) else 0%R.

(** The deviation [_calcular_coeficientes] adds to every frequency of
    the dictionary [d]. *)
Definition desvio_de (d : variaveis_dict) : R :=
  desvio_padrao ((λ var, IZR (frequencia d var)) <$> keys d).

(** [_calcular_coeficientes].  [np.mean] of an empty array is [nan] with a
    warning, but [frequencias.min()] in the statistics print raises
    [ValueError] on an empty array.  The loop of the hierarchical
    coefficients raises [OverflowError] at the first variable of depth
    1025 or more. *)
Definition _calcular_coeficientes (d : variaveis_dict)
    (manual_coefficients : gmap string R)
    (var_dependencies : gmap string (gset string))
    (fila0 : list string) : resultado coeficientes :=
  let variaveis := keys d in
  let mc := foldl (passo_mc manual_coefficients) ∅ variaveis in
  let frequencias := (λ var, IZR (frequencia d var)) <$> variaveis in
  let desvio := desvio_padrao frequencias in
  if decide (frequencias = []) then raise ValueError
  else
    let sc := foldl (passo_sc desvio) ∅ (zip frequencias variaveis) in
    let profs := _calcular_profundidades_arvore variaveis var_dependencies fila0 in
    hc ←! foldl (passo_hc profs) (ret ∅) variaveis;
    ret {| mc_values := mc; sc_values := sc; hc_values := hc |}.

Record item_detalhado : Type := {
  variavel : string;
  xi : Z;
  mc : R;
  sc : R;
  hc : R;
  acoplamento : R
}.

Record vrm : Type := {
  C_vrm : R;
  C_medio : R;
  HC_medio : R;
  SC_medio : R;
  detalhado : list item_detalhado
}.

Record acumulador : Type := {
  acoplamento_total : R;
  sc_total : R;
  hc_total : R;
  itens : list item_detalhado
}.

(** Body of the loop of [_calcular_acoplamento_vrm]. *)
Definition passo_vrm (d : variaveis_dict) (c : coeficientes)
    (acc : resultado acumulador) (var : string) : resultado acumulador :=
  a ←! acc;
  mc ←! dict_get (mc_values c) var;
  sc ←! dict_get (sc_values c) var;
  hc ←! dict_get (hc_values c) var;
  let acoplamento := (mc + sc + hc)%R in
  ret {| acoplamento_total := (acoplamento_total a + acoplamento)%R;
         sc_total := (sc_total a + sc)%R;
         hc_total := (hc_total a + hc)%R;
         itens := itens a ++
           [ {| variavel := var; xi := frequencia d var;
                mc := mc; sc := sc; hc := hc;
                acoplamento := acoplamento |} ] |}.

Definition acumulador_inicial : acumulador :=
  {| acoplamento_total := 0; sc_total := 0; hc_total := 0; itens := [] |}.

(** [_calcular_acoplamento_vrm]: [acoplamento_total / self.n] is a float
    divided by an [int], which raises [ZeroDivisionError] for [n = 0];
    the two other means are guarded. *)
Definition _calcular_acoplamento_vrm (d : variaveis_dict) (c : coeficientes)
    : resultado vrm :=
  let variaveis := keys d in
  let n := length variaveis in
  a ←! foldl (passo_vrm d c) (ret acumulador_inicial) variaveis;
  if decide (n = 0%nat) then raise ZeroDivisionError
  else
    ret {| C_vrm := acoplamento_total a;
           C_medio := (acoplamento_total a / INR n)%R;
           HC_medio := if decide (0 < n)%nat then (hc_total a / INR n)%R else 0%R;
           SC_medio := if decide (0 < n)%nat then (sc_total a / INR n)%R else 0%R;
           detalhado := itens a |}.

(** [AnalisadorDou.__init__] *)
Definition AnalisadorDou (d : variaveis_dict)
    (manual_coefficients : gmap string R)
    (var_dependencies : gmap string (gset string))
    (fila0 : list string) : resultado (coeficientes * vrm) :=
  c ←! _calcular_coeficientes d manual_coefficients var_dependencies fila0;
  v ←! _calcular_acoplamento_vrm d c;
  ret (c, v).

End Dou.

(** ** extrator_codigo.py: variables and their dependencies *)

Module Variaveis.
Import Ast.

Definition BUILT_INS : list string :=
  ["print"; "len"; "range"; "str"; "int"; "float"; "bool"; "list"; "dict";
   "set"; "tuple"; "type"; "isinstance"; "issubclass"; "hasattr"; "getattr";
   "setattr"; "input"; "open"; "file"; "iter"; "next"; "enumerate"; "zip";
   "map"; "filter"; "sum"; "min"; "max"; "abs"; "round"; "pow"; "divmod";
   "all"; "any"; "sorted"; "reversed"; "chr"; "ord"; "hex"; "oct"; "bin";
   "format"; "repr"; "eval"; "exec"; "compile"; "globals"; "locals"; "vars";
   "dir"; "help"; "id"; "hash"; "object"; "staticmethod"; "classmethod";
   "property"; "super"; "callable";
   "Exception"; "ValueError"; "TypeError"; "KeyError"; "IndexError";
   "AttributeError"; "RuntimeError"; "StopIteration"; "GeneratorExit";
   "KeyboardInterrupt";
   "True"; "False"; "None"; "and"; "or"; "not"; "if"; "else"; "elif";
   "while"; "for"; "in"; "is"; "return"; "break"; "continue"; "pass"; "def";
   "class"; "try"; "except"; "finally"; "raise"; "with"; "as"; "import";
   "from"; "lambda"; "yield"; "assert"; "del"; "global"; "nonlocal";
   "self"; "cls"; "__name__"; "__main__"; "__init__"; "__str__"; "__repr__"].

(** A byte [10xxxxxx] of UTF-8 continues the code point begun before it. *)
Definition continuacao (a : Ascii.ascii) : bool :=
  let n := Ascii.nat_of_ascii a in
  bool_decide (128 ≤ n)%nat && bool_decide (n < 192)%nat.

(** [len(s)]: the number of code points of [s]. *)
Fixpoint len (s : string) : nat :=
  match s with
  | EmptyString => 0%nat
  | String a s' => if continuacao a then len s' else S (len s')
  end.

Definition _eh_variavel_valida (nome_var : string) : bool :=
  if bool_decide (nome_var ∈ BUILT_INS) then false
  else if String.prefix "__" nome_var && Extrator.endswith nome_var "__"
  then false
  else if bool_decide (len nome_var ≤ 1)%nat then false
  else true.

(** [f"{nome_func}::{var_nome}"] *)
Definition nome_completo (nome_func var_nome : string) : string :=
  nome_func +:+ "::" +:+ var_nome.

(** The key a node stands for in the function [nome_func]: an [ast.Name]
    whose [id] passes [_eh_variavel_valida], and nothing otherwise. *)
Definition chave_de (nome_func : string) (n : node) : option string :=
  match n with
  | Name id =>
      if _eh_variavel_valida id then Some (nome_completo nome_func id)
      else None
  | _ => None
  end.

(** [var_freq[k] += 1] on a [defaultdict(int)]: a dictionary keeps its
    keys in insertion order. *)
Fixpoint incrementar_freq (k : string) (var_freq : list (string * Z))
    : list (string * Z) :=
  match var_freq with
  | [] => [(k, 1)]
  | (k', v) :: resto =>
      if decide (k' = k) then (k', v + 1) :: resto
      else (k', v) :: incrementar_freq k resto
  end.

Definition contar_nome (nome_func : string) (var_freq : list (string * Z))
    (n : node) : list (string * Z) :=
  match chave_de nome_func n with
  | Some k => incrementar_freq k var_freq
  | None => var_freq
  end.

(** [_extrair_variaveis], over the items of [self.funcoes] in their
    order; [self.variaveis] is reduced to the field ["frequencia"], the
    one the VRM model reads.  The order of the keys follows the listing
    of [ast.walk]. *)
Definition _extrair_variaveis (itens : list (string * node))
    : Dou.variaveis_dict :=
  foldl (λ var_freq '(nome_func, node_func),
           foldl (contar_nome nome_func) var_freq (walk node_func))
    [] itens.

(** The keys the loop of [_extrair_variaveis] meets, one for each use of
    a name that passes the filter, with repetitions. *)
Definition usos (itens : list (string * node)) : list string :=
  itens ≫= (λ '(nome_func, node_func), omap (chave_de nome_func) (walk node_func)).

Section Dependencias.

(** [atribuicoes node_func] lists the [ast.Assign] nodes that [ast.walk]
    meets in [node_func], each as its [targets] and its [value].  The
    node type keeps no constructor for an assignment, so the listing is a
    parameter. *)
Variable atribuicoes : node → list (list node * node).

Definition vars_atribuidas (nome_func : string) (targets : list node)
    : gset string :=
  list_to_set (omap (chave_de nome_func) targets).

Definition vars_usadas (variaveis : Dou.variaveis_dict) (nome_func : string)
    (value : node) : gset string :=
  list_to_set
    (filter (λ var_usada, var_usada ∈ Dou.keys variaveis)
       (omap (chave_de nome_func) (walk value))).

(** The body of the loop for one assignment. *)
Definition registrar_atribuicao (variaveis : Dou.variaveis_dict)
    (nome_func : string) (var_dependencies : gmap string (gset string))
    (a : list node * node) : gmap string (gset string) :=
  let '(targets, value) := a in
  let atribuidas := vars_atribuidas nome_func targets in
  let usadas := vars_usadas variaveis nome_func value in
  foldl (λ (deps : gmap string (gset string)) var_atribuida,
           if decide (var_atribuida ∈ Dou.keys variaveis) then
             foldl (λ (deps : gmap string (gset string)) var_usada,
                      if decide (var_atribuida ≠ var_usada)
                      then Extrator.adicionar deps var_atribuida var_usada
                      else deps)
               deps (elements usadas)
           else deps)
    var_dependencies (elements atribuidas).

Definition _analisar_dependencias_variaveis (variaveis : Dou.variaveis_dict)
    (itens : list (string * node)) : gmap string (gset string) :=
  foldl (λ deps '(nome_func, node_func),
           foldl (registrar_atribuicao variaveis nome_func) deps
             (atribuicoes node_func))
    ∅ itens.

(** [dependencia variaveis itens a b]: some assignment of some function
    has the known variable [a] among its targets and the known variable
    [b], another one, in its right-hand side. *)
Definition dependencia (variaveis : Dou.variaveis_dict)
    (itens : list (string * node)) (a b : string) : Prop :=
  ∃ nome_func node_func targets value,
    (nome_func, node_func) ∈ itens
    ∧ (targets, value) ∈ atribuicoes node_func
    ∧ a ∈ vars_atribuidas nome_func targets
    ∧ a ∈ Dou.keys variaveis
    ∧ b ∈ vars_usadas variaveis nome_func value
    ∧ a ≠ b.

End Dependencias.

End Variaveis.

(** ** main.py: user input and the program *)

Module Programa.
Import Ast.

(** What [float(texto)] gives when it does not raise: a number, an
    infinity ([float("inf")], [float("-inf")], [float("1e999")]) or [nan]
    ([float("nan")]). *)
Inductive flutuante : Type :=
  | Numero (x : R)
  | Infinito (positivo : bool)
  | NaN.

(** [a < b] and [a <= b] on floats: [False] when a side is [nan]. *)
Definition menor (a b : flutuante) : bool :=
  match a, b with
  | NaN, _ => false
  | _, NaN => false
  | Numero x, Numero y => bool_decide (x < y)%R
  | Numero _, Infinito positivo => positivo
  | Infinito positivo, Numero _ => negb positivo
  | Infinito pa, Infinito pb => negb pa && pb
  end.

Definition menor_ou_igual (a b : flutuante) : bool :=
  match a, b with
  | NaN, _ => false
  | _, NaN => false
  | Numero x, Numero y => bool_decide (x <= y)%R
  | Numero _, Infinito positivo => positivo
  | Infinito positivo, Numero _ => negb positivo
  | Infinito pa, Infinito pb => negb pa || pb
  end.

(** A line typed at the prompt, before the empty line or [pronto] with
    which the user ends the loop: either [int(partes[0])] and
    [float(partes[1])] give an index and a value, or one of them raises
    [ValueError] or [IndexError], which the loop catches. *)
Inductive linha : Type :=
  | Invalida
  | Par (idx : Z) (valor : flutuante).

(** [{funcao: 0.5 for funcao in funcoes_ordenadas}], as floats. *)
Definition probabilidades_iniciais (funcoes_ordenadas : list string)
    : gmap string flutuante :=
  list_to_map ((λ funcao, (funcao, Numero (1 / 2))) <$> funcoes_ordenadas).

(** One turn of the loop of [solicitar_probabilidades]: the test
    [prob < 0 or prob > 1] lets [nan] through. *)
Definition passo_probabilidade (funcoes_ordenadas : list string)
    (probabilidades : gmap string flutuante) (l : linha)
    : gmap string flutuante :=
  match l with
  | Invalida => probabilidades
  | Par idx prob =>
      if decide (idx < 1 ∨ Z.of_nat (length funcoes_ordenadas) < idx)
      then probabilidades
      else if menor prob (Numero 0) || menor (Numero 1) prob
      then probabilidades
      else
        match funcoes_ordenadas !! Z.to_nat (idx - 1) with
        | Some funcao => <[funcao := prob]> probabilidades
        | None => probabilidades
        end
  end.

Definition solicitar_probabilidades (funcoes_ordenadas : list string)
    (linhas : list linha) : gmap string flutuante :=
  foldl (passo_probabilidade funcoes_ordenadas)
    (probabilidades_iniciais funcoes_ordenadas) linhas.

(** [{var: 1.0 for var in variaveis_ordenadas}] *)
Definition manual_coefficients_padrao (variaveis_ordenadas : list string)
    : gmap string R :=
  list_to_map ((λ var, (var, 1%R)) <$> variaveis_ordenadas).

(** The same dictionary, as floats. *)
Definition manual_coefficients_iniciais (variaveis_ordenadas : list string)
    : gmap string flutuante :=
  list_to_map ((λ var, (var, Numero 1)) <$> variaveis_ordenadas).

(** One turn of the loop of [solicitar_manual_coefficients]: the test
    [mc <= 0] lets [nan] and the positive infinity through. *)
Definition passo_manual_coefficient (variaveis_ordenadas : list string)
    (manual_coefficients : gmap string flutuante) (l : linha)
    : gmap string flutuante :=
  match l with
  | Invalida => manual_coefficients
  | Par idx mc =>
      if decide (idx < 1 ∨ Z.of_nat (length variaveis_ordenadas) < idx)
      then manual_coefficients
      else if menor_ou_igual mc (Numero 0) then manual_coefficients
      else
        match variaveis_ordenadas !! Z.to_nat (idx - 1) with
        | Some var => <[var := mc]> manual_coefficients
        | None => manual_coefficients
        end
  end.

Definition solicitar_manual_coefficients (variaveis_ordenadas : list string)
    (linhas : list linha) : gmap string flutuante :=
  foldl (passo_manual_coefficient variaveis_ordenadas)
    (manual_coefficients_iniciais variaveis_ordenadas) linhas.

(** The real number a float stands for, when it is a number. *)
Definition numero (v : flutuante) : option R :=
  match v with
  | Numero x => Some x
  | _ => None
  end.

(** The analysers are modelled on real numbers: a dictionary typed at a
    prompt is followed into them when all of its values are numbers. *)
Definition numeros (d : gmap string flutuante) : option (gmap string R) :=
  if decide (map_Forall (λ _ v, is_Some (numero v)) d)
  then Some (omap numero d)
  else None.

(** [d[k] = v] on a dictionary kept with its insertion order. *)
Fixpoint atribuir (k : string) (v : node) (d : list (string * node))
    : list (string * node) :=
  match d with
  | [] => [(k, v)]
  | (k', v') :: resto =>
      if decide (k' = k) then (k', v) :: resto
      else (k', v') :: atribuir k v resto
  end.

(** The items of [self.funcoes] in insertion order, each reduced to its
    ["node"] field. *)
Definition itens_funcoes (p : Extrator.projeto) : list (string * node) :=
  foldl (λ (itens : list (string * node)) '(modulo, tree),
           foldl (λ (itens : list (string * node)) n,
                    match n with
                    | FunctionDef name _ =>
                        atribuir (Extrator.nome_qualificado modulo name) n itens
                    | _ => itens
                    end)
             itens (walk tree))
    [] p.

(** What [main] ends with: [sys.exit(codigo)], or the two analyses from
    which the reports are written.  [ForaDoModelo] stands for the runs in
    which a [nan] or an infinity typed at a prompt reaches an analyser:
    the program goes on in floats, where the real numbers of this model
    do not follow it. *)
Inductive saida : Type :=
  | Sair (codigo : Z)
  | Relatorios
      (analise_zhang :
         Zhang.acoplas * Zhang.entropia * (list (list R) * Zhang.julgamento))
      (analise_dou : Dou.coeficientes * Dou.vrm)
  | ForaDoModelo.

Section Main.

Variable eig : list (list R) → resultado (list R * list (list R)).
Variable atribuicoes : node → list (list node * node).

(** [main], from the extraction on: the command line is read into the
    two flags, and the project is the files of the folder that parse.
    [linhas_p] and [linhas_dou] are the lines typed at the two prompts,
    and [fila0] the listing of the root set in the depth labeling.  The
    model ends where the two analyses are built: the writing of the
    reports and the prints that follow are left out. *)
Definition main (p : Extrator.projeto)
    (modo_interativo_zhang modo_interativo_dou : bool)
    (linhas_p linhas_dou : list linha) (fila0 : list string)
    : resultado saida :=
  let funcoes := Extrator._encontrar_funcoes p in
  let chamadas := Extrator._analisar_chamadas funcoes in
  let variaveis := Variaveis._extrair_variaveis (itens_funcoes p) in
  let var_dependencies :=
    Variaveis._analisar_dependencias_variaveis atribuicoes variaveis
      (itens_funcoes p) in
  if decide (size (dom funcoes) = 0%nat) then ret (Sair 1)
  else if decide (variaveis = []) then ret (Sair 1)
  else
    let funcoes_ordenadas := Main.funcoes_ordenadas funcoes in
    let probabilidades :=
      if modo_interativo_zhang
      then numeros (solicitar_probabilidades funcoes_ordenadas linhas_p)
      else Some (Main.probabilidades_padrao funcoes_ordenadas) in
    let matriz := Main.obter_matriz_adjacencia funcoes_ordenadas chamadas in
    match probabilidades with
    | None => ret ForaDoModelo
    | Some probabilidades =>
        analise_zhang ←!
          Zhang.AnalisadorZhang eig funcoes_ordenadas matriz probabilidades;
        let variaveis_ordenadas :=
          merge_sort Main.string_le (Dou.keys variaveis) in
        let manual_coefficients :=
          if modo_interativo_dou
          then numeros
                 (solicitar_manual_coefficients variaveis_ordenadas linhas_dou)
          else Some (manual_coefficients_padrao variaveis_ordenadas) in
        match manual_coefficients with
        | None => ret ForaDoModelo
        | Some manual_coefficients =>
            analise_dou ←!
              Dou.AnalisadorDou variaveis manual_coefficients var_dependencies
                fila0;
            ret (Relatorios analise_zhang analise_dou)
        end
    end.

End Main.

End Programa.

(** ** analisador_coupling_briand.py *)

Module Briand.
Import Ast.

Record ElementaryCoupling : Type := {
  source : string;
  target : string;
  data_name : string;
  C : R;
  PC : R;
  N : R;
  value : R
}.

(** [compute_value]: [EC[d] = C[d] * PC[d] * N[d]] *)
Definition compute_value (ec : ElementaryCoupling) : ElementaryCoupling :=
  {| source := source ec; target := target ec; data_name := data_name ec;
     C := C ec; PC := PC ec; N := N ec;
     value := (C ec * PC ec * N ec)%R |}.

Record ModuleCoupling : Type := {
  element : string;
  elementary : list ElementaryCoupling
}.

Definition total_coupling (mc : ModuleCoupling) : R :=
  foldl Rplus 0%R (value <$> elementary mc).

Record CouplingVisitor : Type := {
  current_function : option string;
  calls : list (string * string * list string)
}.

Section Visitor.

(** [ast.dump], the text that stands for an argument that is not a
    name; it is outside the repository. *)
Variable dump : node → string.

Definition arg_name (arg : node) : string :=
  match arg with
  | Name id => id
  | _ => dump arg
  end.

(** [visit_Call], before its [generic_visit]: [self.current_function]
    is tested for truth, so [None] and the empty name both fail. *)
Definition registrar (st : CouplingVisitor) (func : node) (args : list node)
    : CouplingVisitor :=
  match current_function st, func with
  | Some f, Name called =>
      if decide (f = "") then st
      else {| current_function := current_function st;
              calls := calls st ++ [(f, called, arg_name <$> args)] |}
  | _, _ => st
  end.

(** [NodeVisitor.visit] with the two [visit_*] methods of
    [CouplingVisitor]; [generic_visit] visits the children in field
    order. *)
Fixpoint visit (n : node) (st : CouplingVisitor) : CouplingVisitor :=
  match n with
  | FunctionDef name children =>
      let prev := current_function st in
      let st1 := foldl (λ s c, visit c s)
                   {| current_function := Some name; calls := calls st |}
                   children in
      {| current_function := prev; calls := calls st1 |}
  | Call func args keywords =>
      let st1 := registrar st func args in
      let st2 := visit func st1 in
      let st3 := foldl (λ s c, visit c s) st2 args in
      foldl (λ s c, visit c s) st3 keywords
  | Attribute value _ => visit value st
  | Name _ => st
  | Other children => foldl (λ s c, visit c s) st children
  end.

(** [sitio cur n cur' c]: the call node [c] occurs in the tree [n], and
    when [n] lies in the function [cur] (or in none), the innermost
    function definition around [c] is [cur']. *)
Inductive sitio : option string → node → option string → node → Prop :=
  | sitio_aqui cur func args keywords :
      sitio cur (Call func args keywords) cur (Call func args keywords)
  | sitio_func cur func args keywords cur' c :
      sitio cur func cur' c → sitio cur (Call func args keywords) cur' c
  | sitio_arg cur func args keywords x cur' c :
      x ∈ args → sitio cur x cur' c →
      sitio cur (Call func args keywords) cur' c
  | sitio_keyword cur func args keywords x cur' c :
      x ∈ keywords → sitio cur x cur' c →
      sitio cur (Call func args keywords) cur' c
  | sitio_attribute cur value attr cur' c :
      sitio cur value cur' c → sitio cur (Attribute value attr) cur' c
  | sitio_def cur name children x cur' c :
      x ∈ children → sitio (Some name) x cur' c →
      sitio cur (FunctionDef name children) cur' c
  | sitio_other cur children x cur' c :
      x ∈ children → sitio cur x cur' c → sitio cur (Other children) cur' c.

(** The records the claim expects from a tree: one for each call site
    inside a function definition whose callee is a bare name. *)
Definition registro_de (cur : option string) (n : node)
    (r : string * string * list string) : Prop :=
  ∃ src tgt args keywords,
    r = (src, tgt, arg_name <$> args)
    ∧ src ≠ ""
    ∧ sitio cur n (Some src) (Call (Name tgt) args keywords).

(** What visiting [n] does to a visitor: the current function is
    restored and the records of [n] are added to those already there. *)
Definition visita_ok (n : node) : Prop :=
  ∀ st,
    current_function (visit n st) = current_function st
    ∧ ∀ r, r ∈ calls (visit n st)
           ↔ r ∈ calls st ∨ registro_de (current_function st) n r.

Definition CouplingVisitor_init : CouplingVisitor :=
  {| current_function := None; calls := [] |}.

(** The first loop of [analyze_source]: [data_usage_count]. *)
Definition contar_usos (calls : list (string * string * list string))
    : gmap string Z :=
  foldl (λ (m : gmap string Z) '(_, _, args),
           foldl (λ (m : gmap string Z) name,
                    <[name := default 0 (m !! name) + 1]> m)
             m args)
    ∅ calls.

Definition _build_ec_from_call (src tgt data_name : string) (N_d : R)
    : ElementaryCoupling :=
  {| source := src; target := tgt; data_name := data_name;
     C := 1; PC := 1; N := N_d; value := 0 |}.

(** The elementary coupling [analyze_source] builds for one datum of
    one call, with [compute_value] applied. *)
Definition ec_de (data_usage_count : gmap string Z)
    (src tgt data_name : string) : ElementaryCoupling :=
  let N_d := IZR (default 0 (data_usage_count !! data_name)) in
  compute_value (_build_ec_from_call src tgt data_name N_d).

(** The second loop of [analyze_source], over [visitor.calls]. *)
Definition criar_ecs (data_usage_count : gmap string Z)
    (elementary : list ElementaryCoupling)
    (calls : list (string * string * list string))
    : list ElementaryCoupling :=
  foldl (λ elementary '(src, tgt, args),
           foldl (λ elementary data_name,
                    elementary ++ [ec_de data_usage_count src tgt data_name])
             elementary args)
    elementary calls.

(** [analyze_source] on the parsed [tree]; the analyser is its list
    [self.elementary]. *)
Definition analyze_source (elementary : list ElementaryCoupling)
    (tree : node) : list ElementaryCoupling :=
  let visitor := visit tree CouplingVisitor_init in
  let data_usage_count := contar_usos (calls visitor) in
  criar_ecs data_usage_count elementary (calls visitor).

End Visitor.

(** A step of the visitor that leaves [current_function] as it found it
    and only appends records, the same ones whatever was recorded
    before. *)
Definition so_acrescenta (F : CouplingVisitor → CouplingVisitor) : Prop :=
  ∀ st,
    current_function (F st) = current_function st
    ∧ calls (F st)
      = calls st
        ++ calls (F {| current_function := current_function st; calls := [] |}).

(** Occurrences of the datum [d] among the arguments of the calls. *)
Definition ocorrencias (d : string)
    (calls : list (string * string * list string)) : nat :=
  length (filter (λ x, x = d) (calls ≫= snd)).

(** [aggregate_by_module]: [results] is a [defaultdict] whose fresh value
    is [ModuleCoupling(element="")]. *)
Definition aggregate_by_module (elementary : list ElementaryCoupling)
    : gmap string ModuleCoupling :=
  foldl (λ (results : gmap string ModuleCoupling) ec,
           let key := source ec in
           let mc := default {| element := ""; elementary := [] |}
                       (results !! key) in
           let el := if decide (element mc = "") then key else element mc in
           <[key := {| element := el;
                       elementary := Briand.elementary mc ++ [ec] |}]> results)
    ∅ elementary.

End Briand.

(** ** Concrete inputs *)

Module Cenarios.

(** [rr] is a root; [aa = rr + 1], [bb = aa + 1], [xx = rr + bb] and
    [yy = xx] give the dependency sets below. *)
Definition variaveis_cadeia : list string := ["rr"; "aa"; "bb"; "xx"; "yy"].

Definition dependencias_cadeia : gmap string (gset string) :=
  <["aa" := {["rr"]}]>
    (<["bb" := {["aa"]}]>
       (<["xx" := {["rr"; "bb"]}]>
          (<["yy" := {["xx"]}]> ∅))).

(** [rr] is a root; [aa = bb] and [bb = aa] depend on each other only. *)
Definition variaveis_ciclo : Dou.variaveis_dict :=
  [("m.f::rr", 1); ("m.f::aa", 2); ("m.f::bb", 2)].

Definition dependencias_ciclo : gmap string (gset string) :=
  <["m.f::aa" := {["m.f::bb"]}]> (<["m.f::bb" := {["m.f::aa"]}]> ∅).

(** [def f(): g(); h(); k()] and three functions that call nothing. *)
Definition projeto_estrela : Extrator.projeto :=
  [("m", Ast.Other
           [Ast.FunctionDef "f"
              [Ast.Other [Ast.Call (Ast.Name "g") [] []];
               Ast.Other [Ast.Call (Ast.Name "h") [] []];
               Ast.Other [Ast.Call (Ast.Name "k") [] []]];
            Ast.FunctionDef "g" [];
            Ast.FunctionDef "h" [];
            Ast.FunctionDef "k" []])].

Definition funcoes_estrela : list string := ["m.f"; "m.g"; "m.h"; "m.k"].

Definition matriz_estrela : Main.matriz :=
  [[0; 1; 1; 1]; [0; 0; 0; 0]; [0; 0; 0; 0]; [0; 0; 0; 0]].

(** [def mdc(a, b): while b != 0: a, b = b, a % b; return a] and
    [def mmc(a, b): return mdc(a, b)], with the nodes that are neither
    calls, names nor definitions kept as [Other]. *)
Definition arvore_mdc_mmc : Ast.node :=
  Ast.Other
    [Ast.FunctionDef "mdc"
       [Ast.Other [];
        Ast.Other [Ast.Other [Ast.Name "b"; Ast.Other []];
                   Ast.Other [Ast.Other [Ast.Name "a"; Ast.Name "b"];
                              Ast.Other [Ast.Name "b";
                                         Ast.Other [Ast.Name "a"; Ast.Name "b"]]]];
        Ast.Other [Ast.Name "a"]];
     Ast.FunctionDef "mmc"
       [Ast.Other [];
        Ast.Other [Ast.Call (Ast.Name "mdc") [Ast.Name "a"; Ast.Name "b"] []]]].

(** A stand-in for [ast.dump]. *)
Definition dump_texto (n : Ast.node) : string := "<dump>".

(** [mostrar(total)] at module level, and [def f(obj, x): obj.m(x)]. *)
Definition arvore_sem_registros : Ast.node :=
  Ast.Other
    [Ast.Other [Ast.Call (Ast.Name "mostrar") [Ast.Name "total"] []];
     Ast.FunctionDef "f"
       [Ast.Other [];
        Ast.Other [Ast.Call (Ast.Attribute (Ast.Name "obj") "m")
                     [Ast.Name "x"] []]]].

(** [def f(): g(); g()] and [def g(): pass] in the module [m]. *)
Definition projeto_fg : Extrator.projeto :=
  [("m", Ast.Other
           [Ast.FunctionDef "f"
              [Ast.Other [];
               Ast.Other [Ast.Call (Ast.Name "g") [] []];
               Ast.Other [Ast.Call (Ast.Name "g") [] []]];
            Ast.FunctionDef "g" [Ast.Other []; Ast.Other []]])].

(** The same module with the two call sites of [f] removed. *)
Definition projeto_fg_sem_chamadas : Extrator.projeto :=
  [("m", Ast.Other
           [Ast.FunctionDef "f" [Ast.Other []; Ast.Other []];
            Ast.FunctionDef "g" [Ast.Other []; Ast.Other []]])].

(** The same two call sites with [f] defined inside a function [h]:
    [def h(): def f(): g(); g()] and [def g(): pass]. *)
Definition projeto_aninhado : Extrator.projeto :=
  [("m", Ast.Other
           [Ast.FunctionDef "h"
              [Ast.Other [];
               Ast.FunctionDef "f"
                 [Ast.Other [];
                  Ast.Other [Ast.Call (Ast.Name "g") [] []];
                  Ast.Other [Ast.Call (Ast.Name "g") [] []]]];
            Ast.FunctionDef "g" [Ast.Other []; Ast.Other []]])].

Definition projeto_aninhado_sem_chamadas : Extrator.projeto :=
  [("m", Ast.Other
           [Ast.FunctionDef "h"
              [Ast.Other [];
               Ast.FunctionDef "f" [Ast.Other []; Ast.Other []]];
            Ast.FunctionDef "g" [Ast.Other []; Ast.Other []]])].


(** An eigen-solver that does not converge. *)
Definition eig_falha (A : list (list R))
    : resultado (list R * list (list R)) :=
  raise LinAlgError.

(** [def f(): total = valor + 1; return total] in the module [m]: the
    names [total], [valor] and [total] again. *)
Definition funcao_total : Ast.node :=
  Ast.FunctionDef "f"
    [Ast.Other [];
     Ast.Other [Ast.Name "total"; Ast.Other [Ast.Name "valor"; Ast.Other []]];
     Ast.Other [Ast.Name "total"]].

Definition itens_total : list (string * Ast.node) := [("m.f", funcao_total)].

(** Its one assignment, [total = valor + 1]. *)
Definition atribuicoes_total (node_func : Ast.node)
    : list (list Ast.node * Ast.node) :=
  [([Ast.Name "total"], Ast.Other [Ast.Name "valor"; Ast.Other []])].

(** The module [m] that holds this function alone. *)
Definition projeto_total : Extrator.projeto := [("m", Ast.Other [funcao_total])].


(** The functions [f] and [g] of the module [m]. *)
Definition funcoes_fg : list string := ["m.f"; "m.g"].

(** [def f(): g()] and [def g(): f()]: each function calls the other. *)
Definition matriz_mutua : Main.matriz := [[0; 1]; [1; 0]].

End Cenarios.

(** * Properties *)

(** ** The error monad *)

Lemma bind_inr {A B} (c : resultado A) (k : A → resultado B) y :
  bind c k = inr y → ∃ x, c = inr x ∧ k x = inr y.
Proof. destruct c as [e|x]; simpl; [discriminate | eauto]. Qed.

Lemma size_list_to_set_le (l : list string) :
  (size (list_to_set l : gset string) ≤ length l)%nat.
Proof.
  induction l as [|x l IH].
  - by rewrite list_to_set_nil, size_empty.
  - rewrite list_to_set_cons, size_union_alt, size_singleton.
    assert (size ((list_to_set l : gset string) ∖ {[x]}) ≤ size (list_to_set l : gset string))%nat
      by (apply subseteq_size; set_solver).
    simpl. lia.
Qed.

(** ** The depth labeling of [analisador_dou.py] *)

Lemma profundidades_iniciais variaveis var_dependencies fila0 v :
  v ∈ variaveis →
  Dou.profundidades (Dou.estado_inicial variaveis var_dependencies fila0) !! v
    = Some 0.
Proof.
  unfold Dou.estado_inicial. simpl.
  induction variaveis as [|x l IH]; intros Hv; [set_solver|].
  rewrite fmap_cons, list_to_map_cons. simpl.
  destruct (decide (x = v)) as [->|Hne].
  - by rewrite lookup_insert_eq.
  - rewrite lookup_insert_ne by done. apply IH. set_solver.
Qed.

Section DouProps.
Import Dou.
Variable variaveis : list string.
Variable var_dependencies : gmap string (gset string).


Lemma visitar_dependente_medida var_atual prof_atual st x :
  x ∈ variaveis →
  medida variaveis (visitar_dependente var_dependencies var_atual prof_atual st x) = medida variaveis st.
Proof.
  intros Hx. unfold visitar_dependente, medida. set (V := list_to_set variaveis : gset string).
  destruct (var_dependencies !! x) as [ds|]; [|done].
  destruct (decide (var_atual ∈ ds)); [|done].
  destruct (decide (x ∈ visitados st)) as [Hv|Hv]; simpl; [done|].
  rewrite length_app. simpl.
  assert (V ∖ visitados st = {[x]} ∪ (V ∖ ({[x]} ∪ visitados st))) as ->.
  { apply set_eq. intros y. rewrite !elem_of_union, !elem_of_difference,
      elem_of_union, elem_of_singleton.
    destruct (decide (y = x)) as [->|]; subst V; [|naive_solver].
    rewrite elem_of_list_to_set. naive_solver. }
  rewrite (size_union {[x]}) by set_solver. rewrite size_singleton. lia.
Qed.

Lemma foldl_visitar_medida var_atual prof_atual l st :
  (∀ x, x ∈ l → x ∈ variaveis) →
  medida variaveis
    (foldl (visitar_dependente var_dependencies var_atual prof_atual) st l)
  = medida variaveis st.
Proof.
  revert st. induction l as [|x l IH]; intros st Hall; simpl; [done|].
  rewrite IH by (intros; apply Hall; set_solver).
  apply visitar_dependente_medida, Hall. set_solver.
Qed.

Lemma passo_medida var_atual st :
  medida variaveis (passo variaveis var_dependencies var_atual st)
  = medida variaveis st.
Proof. unfold passo. by apply foldl_visitar_medida. Qed.

Lemma bfs_fila_vazia fuel st :
  (medida variaveis st ≤ fuel)%nat →
  fila (bfs fuel variaveis var_dependencies st) = [].
Proof.
  revert st. induction fuel as [|fuel IH]; intros st Hm; simpl.
  - unfold medida in Hm. destruct (fila st); simpl in *; [done|lia].
  - destruct (fila st) as [|v q] eqn:Hf; [done|].
    apply IH. rewrite passo_medida. unfold medida in *. simpl.
    rewrite Hf in Hm. simpl in Hm. lia.
Qed.

Lemma medida_inicial fila0 :
  fila0 ≡ₚ elements (nos_raiz variaveis var_dependencies) →
  (medida variaveis (estado_inicial variaveis var_dependencies fila0) ≤ length variaveis)%nat.
Proof.
  intros Hp. unfold medida, estado_inicial. simpl.
  set (V := list_to_set variaveis : gset string).
  rewrite Hp.
  change (length (elements ?X)) with (size X).
  rewrite <- size_union by set_solver.
  assert (V ∖ nos_raiz variaveis var_dependencies ∪ nos_raiz variaveis var_dependencies = V) as ->.
  { apply set_eq. intros y. rewrite elem_of_union, elem_of_difference.
    unfold nos_raiz. subst V. rewrite !elem_of_list_to_set, list_elem_of_filter.
    destruct (eh_raiz var_dependencies y); naive_solver. }
  apply size_list_to_set_le.
Qed.

(** The loop of [_calcular_profundidades_arvore] ends within
    [length variaveis] turns. *)
Lemma bfs_termina fila0 :
  fila0 ≡ₚ elements (nos_raiz variaveis var_dependencies) →
  fila (bfs (length variaveis) variaveis var_dependencies
          (estado_inicial variaveis var_dependencies fila0)) = [].
Proof. intros Hp. by apply bfs_fila_vazia, medida_inicial. Qed.


Lemma visitar_dependente_prof var_atual prof_atual st x v :
  profundidades (visitar_dependente var_dependencies var_atual prof_atual st x) !! v
    ≠ profundidades st !! v →
  v = x ∧ ∃ ds, var_dependencies !! x = Some ds ∧ var_atual ∈ ds.
Proof.
  unfold visitar_dependente.
  destruct (var_dependencies !! x) as [ds|]; [|done].
  destruct (decide (var_atual ∈ ds)); [|done].
  intros Hne. destruct (decide (v = x)) as [->|Hvx]; [eauto|].
  exfalso. apply Hne.
  destruct (decide (x ∈ visitados st)); simpl; by rewrite lookup_insert_ne.
Qed.

Lemma visitar_dependente_fila var_atual prof_atual st x :
  fila (visitar_dependente var_dependencies var_atual prof_atual st x) = fila st
  ∨ (fila (visitar_dependente var_dependencies var_atual prof_atual st x)
       = fila st ++ [x]
     ∧ ∃ ds, var_dependencies !! x = Some ds ∧ var_atual ∈ ds).
Proof.
  unfold visitar_dependente.
  destruct (var_dependencies !! x) as [ds|]; [|by left].
  destruct (decide (var_atual ∈ ds)); [|by left].
  destruct (decide (x ∈ visitados st)); simpl; [by left|right; eauto].
Qed.

Lemma visitar_dependente_dom var_atual prof_atual st x v :
  is_Some (profundidades st !! v) →
  is_Some (profundidades
             (visitar_dependente var_dependencies var_atual prof_atual st x) !! v).
Proof.
  unfold visitar_dependente. intros Hv.
  destruct (var_dependencies !! x) as [ds|]; [|done].
  destruct (decide (var_atual ∈ ds)); [|done].
  destruct (decide (x ∈ visitados st)); simpl;
    (destruct (decide (x = v)) as [->|];
     [rewrite lookup_insert_eq; eauto | by rewrite lookup_insert_ne]).
Qed.

Lemma foldl_visitar_inv p0 var_atual prof_atual l st :
  alcancavel variaveis var_dependencies var_atual → (∀ x, x ∈ l → x ∈ variaveis) →
  inv_alcance variaveis var_dependencies p0 st →
  inv_alcance variaveis var_dependencies p0 (foldl (visitar_dependente var_dependencies var_atual prof_atual) st l).
Proof.
  intros Ha. revert st. induction l as [|x l IH]; intros st Hl Hinv; simpl; [done|].
  apply IH; [intros; apply Hl; set_solver|].
  assert (Hx : x ∈ variaveis) by (apply Hl; set_solver).
  destruct Hinv as [Hq Hp]. split.
  - intros v.
    destruct (visitar_dependente_fila var_atual prof_atual st x)
      as [->|[-> (ds & Hds & Hin)]]; [auto|].
    rewrite elem_of_app, list_elem_of_singleton. intros [?| ->]; [auto|].
    by eapply alc_passo.
  - intros v Hv. rewrite <- Hp by done.
    destruct (decide (profundidades
        (visitar_dependente var_dependencies var_atual prof_atual st x) !! v
        = profundidades st !! v)) as [|Hne]; [done|].
    apply visitar_dependente_prof in Hne as [-> (ds & Hds & Hin)].
    exfalso. apply Hv. by eapply alc_passo.
Qed.

Lemma bfs_inv_alcance p0 fuel st :
  inv_alcance variaveis var_dependencies p0 st →
  inv_alcance variaveis var_dependencies p0 (bfs fuel variaveis var_dependencies st).
Proof.
  revert st. induction fuel as [|fuel IH]; intros st Hinv; simpl; [done|].
  destruct (fila st) as [|v q] eqn:Hf; [done|].
  apply IH. unfold passo. simpl.
  destruct Hinv as [Hq Hp]. apply foldl_visitar_inv; [|done|].
  - apply Hq. rewrite Hf. set_solver.
  - split; simpl; [|done]. intros u Hu. apply Hq. rewrite Hf. set_solver.
Qed.

Lemma foldl_visitar_raiz var_atual prof_atual l st v :
  eh_raiz var_dependencies v = true →
  profundidades (foldl (visitar_dependente var_dependencies var_atual prof_atual) st l) !! v
    = profundidades st !! v.
Proof.
  intros Hr. revert st. induction l as [|x l IH]; intros st; simpl; [done|].
  rewrite IH.
  destruct (decide (profundidades
      (visitar_dependente var_dependencies var_atual prof_atual st x) !! v
      = profundidades st !! v)) as [|Hne]; [done|].
  apply visitar_dependente_prof in Hne as [-> (ds & Hds & Hin)].
  unfold eh_raiz in Hr. rewrite Hds in Hr.
  apply bool_decide_eq_true in Hr. apply size_empty_inv in Hr.
  apply leibniz_equiv in Hr. set_solver.
Qed.

Lemma bfs_raiz fuel st v :
  eh_raiz var_dependencies v = true →
  profundidades (bfs fuel variaveis var_dependencies st) !! v
    = profundidades st !! v.
Proof.
  intros Hr. revert st. induction fuel as [|fuel IH]; intros st; simpl; [done|].
  destruct (fila st) as [|u q]; [done|].
  rewrite IH. unfold passo. by rewrite foldl_visitar_raiz.
Qed.

Lemma foldl_visitar_dom var_atual prof_atual l st v :
  is_Some (profundidades st !! v) →
  is_Some (profundidades
    (foldl (visitar_dependente var_dependencies var_atual prof_atual) st l) !! v).
Proof.
  revert st. induction l as [|x l IH]; intros st Hs; simpl; [done|].
  by apply IH, visitar_dependente_dom.
Qed.

Lemma bfs_dom fuel st v :
  is_Some (profundidades st !! v) →
  is_Some (profundidades (bfs fuel variaveis var_dependencies st) !! v).
Proof.
  revert st. induction fuel as [|fuel IH]; intros st Hs; simpl; [done|].
  destruct (fila st) as [|u q]; [done|].
  apply IH. unfold passo. by apply foldl_visitar_dom.
Qed.

(** Roots keep depth 0. *)
Lemma profundidade_raiz fila0 v :
  v ∈ variaveis → eh_raiz var_dependencies v = true →
  _calcular_profundidades_arvore variaveis var_dependencies fila0 !! v = Some 0.
Proof.
  intros Hv Hr. unfold _calcular_profundidades_arvore.
  rewrite bfs_raiz by done. by apply profundidades_iniciais.
Qed.

Lemma profundidade_definida fila0 v :
  v ∈ variaveis →
  is_Some (_calcular_profundidades_arvore variaveis var_dependencies fila0 !! v).
Proof.
  intros Hv. unfold _calcular_profundidades_arvore.
  apply bfs_dom. rewrite profundidades_iniciais by done. eauto.
Qed.

(** Variables out of reach of the roots keep the initial depth 0. *)
Lemma profundidade_inalcancavel fila0 v :
  fila0 ≡ₚ elements (nos_raiz variaveis var_dependencies) →
  v ∈ variaveis → ¬ alcancavel variaveis var_dependencies v →
  _calcular_profundidades_arvore variaveis var_dependencies fila0 !! v = Some 0.
Proof.
  intros Hp Hv Hna. unfold _calcular_profundidades_arvore.
  set (st0 := estado_inicial variaveis var_dependencies fila0).
  assert (Hinv : inv_alcance variaveis var_dependencies (profundidades st0) st0).
  { split; [|done]. intros u Hu. simpl in Hu. rewrite Hp in Hu.
    apply elem_of_elements in Hu. unfold nos_raiz in Hu.
    apply elem_of_list_to_set, list_elem_of_filter in Hu as [? ?].
    by apply alc_raiz. }
  apply (bfs_inv_alcance _ (length variaveis)) in Hinv as [_ Hq].
  rewrite Hq by done. by apply profundidades_iniciais.
Qed.
End DouProps.

(** ** Bounds of the depth labeling *)

Section DouLimites.
Import Dou.
Variable variaveis : list string.
Variable var_dependencies : gmap string (gset string).

Lemma bfs_fila_vazia_id fuel st :
  fila st = [] → bfs fuel variaveis var_dependencies st = st.
Proof. intros H. destruct fuel; simpl; [done|]. by rewrite H. Qed.

Lemma bfs_soma a b st :
  bfs (a + b) variaveis var_dependencies st
  = bfs b variaveis var_dependencies (bfs a variaveis var_dependencies st).
Proof.
  revert st. induction a as [|a IH]; intros st; [done|].
  simpl. destruct (fila st) as [|v q] eqn:Hf; [|apply IH].
  by rewrite bfs_fila_vazia_id.
Qed.

Lemma visitar_dependente_casos var_atual prof_atual st x :
  visitar_dependente var_dependencies var_atual prof_atual st x = st
  ∨ (∃ ds, var_dependencies !! x = Some ds ∧ var_atual ∈ ds
           ∧ x ∈ visitados st
           ∧ visitar_dependente var_dependencies var_atual prof_atual st x
             = {| profundidades :=
                    <[x := Z.max (profundidades st !!! x) (prof_atual + 1)]>
                      (profundidades st);
                  visitados := visitados st;
                  fila := fila st |})
  ∨ (∃ ds, var_dependencies !! x = Some ds ∧ var_atual ∈ ds
           ∧ (x ∉ visitados st)
           ∧ visitar_dependente var_dependencies var_atual prof_atual st x
             = {| profundidades := <[x := prof_atual + 1]> (profundidades st);
                  visitados := {[x]} ∪ visitados st;
                  fila := fila st ++ [x] |}).
Proof.
  unfold visitar_dependente.
  destruct (var_dependencies !! x) as [ds|]; [|by left].
  destruct (decide (var_atual ∈ ds)); [|by left].
  destruct (decide (x ∈ visitados st)); right; [left|right]; by exists ds.
Qed.

Lemma visitar_dependente_limites var_atual prof_atual st x :
  x ∈ variaveis → 0 ≤ prof_atual →
  prof_atual + 1 + Z.of_nat (medida variaveis st) ≤ Z.of_nat (length variaveis) →
  inv_limites variaveis st →
  inv_limites variaveis
    (visitar_dependente var_dependencies var_atual prof_atual st x).
Proof.
  intros Hx H0 Hb (I1 & I2 & I3).
  pose proof (visitar_dependente_medida variaveis var_dependencies
                var_atual prof_atual st x Hx) as Hm.
  unfold inv_limites. rewrite Hm.
  destruct (visitar_dependente_casos var_atual prof_atual st x)
    as [->|[(ds & _ & _ & _ & ->)|(ds & _ & _ & _ & ->)]]; [done|..]; simpl.
  - split; [done|]. split.
    + intros v Hv. apply lookup_insert_is_Some'. right. by apply I2.
    + intros v y Hy. destruct (decide (x = v)) as [->|Hne].
      * rewrite lookup_insert_eq in Hy. injection Hy as <-.
        destruct (I2 v Hx) as [z Hz].
        rewrite (lookup_total_correct _ _ _ Hz).
        destruct (I3 v z Hz). lia.
      * rewrite lookup_insert_ne in Hy by done. exact (I3 v y Hy).
  - split.
    + intros v Hv. apply elem_of_app in Hv as [Hv|Hv]; [by apply I1|].
      by apply list_elem_of_singleton in Hv as ->.
    + split.
      * intros v Hv. apply lookup_insert_is_Some'. right. by apply I2.
      * intros v y Hy. destruct (decide (x = v)) as [->|Hne].
        -- rewrite lookup_insert_eq in Hy. injection Hy as <-. lia.
        -- rewrite lookup_insert_ne in Hy by done. exact (I3 v y Hy).
Qed.

Lemma foldl_visitar_limites var_atual prof_atual l st :
  (∀ x, x ∈ l → x ∈ variaveis) → 0 ≤ prof_atual →
  prof_atual + 1 + Z.of_nat (medida variaveis st) ≤ Z.of_nat (length variaveis) →
  inv_limites variaveis st →
  inv_limites variaveis
    (foldl (visitar_dependente var_dependencies var_atual prof_atual) st l).
Proof.
  revert st. induction l as [|x l IH]; intros st Hl H0 Hb Hinv; [done|].
  cbn [foldl]. apply IH.
  - intros; apply Hl; by right.
  - done.
  - rewrite visitar_dependente_medida; [done|]. apply Hl. left.
  - apply visitar_dependente_limites; [apply Hl; left|done..].
Qed.

Lemma bfs_limites fuel st :
  inv_limites variaveis st →
  inv_limites variaveis (bfs fuel variaveis var_dependencies st).
Proof.
  revert st. induction fuel as [|fuel IH]; intros st Hinv; [done|].
  simpl. destruct (fila st) as [|v q] eqn:Hf; [done|].
  apply IH. destruct Hinv as (I1 & I2 & I3).
  assert (Hv : v ∈ variaveis) by (apply I1; rewrite Hf; left).
  destruct (I2 v Hv) as [y Hy]. destruct (I3 v y Hy) as [Hy0 Hyb].
  assert (Hmed : medida variaveis st
                 = S (medida variaveis
                        {| profundidades := profundidades st;
                           visitados := visitados st; fila := q |})).
  { unfold medida. simpl. rewrite Hf. simpl. lia. }
  unfold passo. cbn [profundidades].
  rewrite (lookup_total_correct _ _ _ Hy).
  apply foldl_visitar_limites; [done|done|lia|].
  split; [|split]; simpl.
  - intros u Hu. apply I1. rewrite Hf. by right.
  - done.
  - intros u x Hx. destruct (I3 u x Hx). lia.
Qed.

Lemma limites_iniciais fila0 :
  fila0 ≡ₚ elements (nos_raiz variaveis var_dependencies) →
  inv_limites variaveis (estado_inicial variaveis var_dependencies fila0).
Proof.
  intros Hp. split; [|split].
  - intros v Hv. simpl in Hv. rewrite Hp in Hv.
    apply elem_of_elements in Hv. unfold nos_raiz in Hv.
    apply elem_of_list_to_set, list_elem_of_filter in Hv. by destruct Hv.
  - intros v Hv. rewrite (profundidades_iniciais _ _ _ _ Hv). by eexists.
  - intros v x Hx. pose proof (medida_inicial variaveis var_dependencies fila0 Hp).
    assert (x = 0); [|lia].
    simpl in Hx. apply elem_of_list_to_map_2 in Hx.
    apply list_elem_of_fmap in Hx as (? & [= _ ->] & _). done.
Qed.

(** Every depth the labeling returns is at least 0 and at most the
    number of variables. *)
Lemma profundidade_limites fila0 v x :
  fila0 ≡ₚ elements (nos_raiz variaveis var_dependencies) →
  _calcular_profundidades_arvore variaveis var_dependencies fila0 !! v = Some x →
  0 ≤ x ≤ Z.of_nat (length variaveis).
Proof.
  intros Hp Hx. unfold _calcular_profundidades_arvore in Hx.
  destruct (bfs_limites (length variaveis) _ (limites_iniciais fila0 Hp))
    as (_ & _ & I3).
  destruct (I3 v x Hx). lia.
Qed.

(** No depth is negative, whatever the queue starts with. *)
Lemma visitar_dependente_nao_negativa var_atual prof_atual st x :
  0 ≤ prof_atual →
  (∀ v y, profundidades st !! v = Some y → 0 ≤ y) →
  ∀ v y,
    profundidades (visitar_dependente var_dependencies var_atual prof_atual st x)
      !! v = Some y →
    0 ≤ y.
Proof.
  intros H0 Hinv v y.
  destruct (visitar_dependente_casos var_atual prof_atual st x)
    as [->|[(ds & _ & _ & _ & ->)|(ds & _ & _ & _ & ->)]];
    [apply Hinv|..]; simpl;
    (destruct (decide (x = v)) as [->|Hne];
     [rewrite lookup_insert_eq; intros [= <-]; lia
     |rewrite lookup_insert_ne by done; apply Hinv]).
Qed.

Lemma foldl_visitar_nao_negativa var_atual prof_atual l st :
  0 ≤ prof_atual →
  (∀ v y, profundidades st !! v = Some y → 0 ≤ y) →
  ∀ v y,
    profundidades
      (foldl (visitar_dependente var_dependencies var_atual prof_atual) st l)
      !! v = Some y →
    0 ≤ y.
Proof.
  intros H0. revert st. induction l as [|x l IH]; intros st Hinv; [done|].
  cbn [foldl]. apply IH. by apply visitar_dependente_nao_negativa.
Qed.

Lemma bfs_nao_negativa fuel st :
  (∀ v y, profundidades st !! v = Some y → 0 ≤ y) →
  ∀ v y,
    profundidades (bfs fuel variaveis var_dependencies st) !! v = Some y → 0 ≤ y.
Proof.
  revert st. induction fuel as [|fuel IH]; intros st Hinv; [done|].
  simpl. destruct (fila st) as [|u q]; [done|].
  apply IH. unfold passo. apply foldl_visitar_nao_negativa; simpl; [|done].
  rewrite lookup_total_alt.
  destruct (profundidades st !! u) as [y|] eqn:Hy; simpl; [by eapply Hinv|done].
Qed.

Lemma profundidade_nao_negativa fila0 v x :
  _calcular_profundidades_arvore variaveis var_dependencies fila0 !! v = Some x →
  0 ≤ x.
Proof.
  unfold _calcular_profundidades_arvore. apply bfs_nao_negativa.
  intros u y Hy. simpl in Hy. apply elem_of_list_to_map_2 in Hy.
  apply list_elem_of_fmap in Hy as (? & [= _ ->] & _). done.
Qed.

End DouLimites.

(** ** The coefficients of [analisador_dou.py] *)

Section DouCoef.
Import Dou.

Lemma foldl_passo_hc_erro profs e l :
  foldl (passo_hc profs) (inl e) l = inl e.
Proof. induction l as [|x l IH]; simpl; [done|]. apply IH. Qed.

Lemma powerRZ_2_nao_nulo e : powerRZ 2 e ≠ 0%R.
Proof. apply powerRZ_NOR. lra. Qed.

(** The expression of the hierarchical coefficient returns exactly for
    the depths from -1073 to 1024, and then the value of the formula. *)
Lemma calcular_hc_inr dep_i h :
  calcular_hc dep_i = inr h →
  h = hc_de_profundidade dep_i ∧ -1073 ≤ dep_i ≤ 1024.
Proof.
  unfold calcular_hc, potencia_de_2, dividir_1.
  destruct (decide (1024 ≤ dep_i - 1)); [done|].
  destruct (decide (dep_i - 1 < -1074)); simpl.
  - rewrite decide_True by done. done.
  - rewrite decide_False by apply powerRZ_2_nao_nulo.
    intros [= <-]. split; [done|lia].
Qed.

Lemma calcular_hc_ok dep_i :
  -1073 ≤ dep_i ≤ 1024 → calcular_hc dep_i = inr (hc_de_profundidade dep_i).
Proof.
  intros H. unfold calcular_hc, potencia_de_2, dividir_1.
  rewrite decide_False by lia. rewrite decide_False by lia. simpl.
  rewrite decide_False by apply powerRZ_2_nao_nulo. done.
Qed.

Lemma calcular_hc_OverflowError dep_i :
  1025 ≤ dep_i → calcular_hc dep_i = inl OverflowError.
Proof.
  intros H. unfold calcular_hc, potencia_de_2.
  rewrite decide_True by lia. done.
Qed.

Lemma foldl_passo_hc_spec profs l m0 m :
  foldl (passo_hc profs) (ret m0) l = inr m →
  (∀ var, var ∈ l →
     ∃ dep_i, profs !! var = Some dep_i
              ∧ m !! var = Some (hc_de_profundidade dep_i))
  ∧ (∀ var, var ∉ l → m !! var = m0 !! var).
Proof.
  revert m. induction l as [|x l IH] using rev_ind; intros m.
  - simpl. intros [= <-]. split; [intros ? H; by apply elem_of_nil in H|done].
  - rewrite foldl_app. simpl. unfold passo_hc at 1.
    intros H. apply bind_inr in H as (m1 & H1 & H).
    apply bind_inr in H as (dep & Hd & H).
    apply bind_inr in H as (h & Hh & H). injection H as <-.
    apply calcular_hc_inr in Hh as [-> _].
    unfold dict_get in Hd. destruct (profs !! x) as [dx|] eqn:Hx; [|done].
    injection Hd as ->.
    destruct (IH _ H1) as [IHin IHout]. split.
    + intros var Hvar. destruct (decide (var = x)) as [->|Hne].
      * exists dep. by rewrite lookup_insert_eq.
      * rewrite lookup_insert_ne by done. apply IHin. set_solver.
    + intros var Hvar. rewrite lookup_insert_ne by set_solver.
      apply IHout. set_solver.
Qed.

(** The depths of the variables for which the loop returned are at most
    1024. *)
Lemma foldl_passo_hc_limite profs l m0 m :
  foldl (passo_hc profs) (ret m0) l = inr m →
  ∀ var dep_i, var ∈ l → profs !! var = Some dep_i → dep_i ≤ 1024.
Proof.
  revert m. induction l as [|x l IH] using rev_ind; intros m.
  - intros _ var dep_i H. by apply elem_of_nil in H.
  - rewrite foldl_app. simpl. unfold passo_hc at 1.
    intros H. apply bind_inr in H as (m1 & H1 & H).
    apply bind_inr in H as (dep & Hd & H).
    apply bind_inr in H as (h & Hh & _).
    apply calcular_hc_inr in Hh as [_ Hlim].
    unfold dict_get in Hd. destruct (profs !! x) as [dx|] eqn:Hx; [|done].
    injection Hd as ->.
    intros var dep_i Hvar Hdep. apply elem_of_app in Hvar as [Hvar|Hvar].
    + by eapply IH.
    + apply list_elem_of_singleton in Hvar as ->.
      rewrite Hx in Hdep. injection Hdep as <-. lia.
Qed.

Lemma foldl_passo_hc_ok profs l m0 :
  (∀ var, var ∈ l →
     ∃ dep_i, profs !! var = Some dep_i ∧ -1073 ≤ dep_i ≤ 1024) →
  ∃ m, foldl (passo_hc profs) (ret m0) l = inr m.
Proof.
  induction l as [|x l IH] using rev_ind; intros Hl; [by eexists|].
  destruct IH as [m Hm]; [intros; apply Hl; set_solver|].
  destruct (Hl x) as (dep & Hd & Hlim); [set_solver|].
  rewrite foldl_app. simpl. rewrite Hm. unfold passo_hc, dict_get. simpl.
  rewrite Hd. simpl. rewrite (calcular_hc_ok _ Hlim). simpl. by eexists.
Qed.

(** When the loop raises over variables that all have a depth of at
    least 0, the exception is [OverflowError], and some variable has a
    depth of 1025 or more. *)
Lemma foldl_passo_hc_inl profs l m0 e :
  (∀ var, var ∈ l → ∃ dep_i, profs !! var = Some dep_i ∧ 0 ≤ dep_i) →
  foldl (passo_hc profs) (ret m0) l = inl e →
  e = OverflowError
  ∧ ∃ var dep_i, var ∈ l ∧ profs !! var = Some dep_i ∧ 1025 ≤ dep_i.
Proof.
  induction l as [|x l IH] using rev_ind; intros Hl; [done|].
  rewrite foldl_app. simpl.
  destruct (foldl (passo_hc profs) (ret m0) l) as [e'|m] eqn:Hm.
  - simpl. intros [= <-].
    destruct IH as (-> & var & dep & Hvar & Hdep & Hlim);
      [intros; apply Hl; set_solver|done|].
    split; [done|]. exists var, dep. split; [set_solver|done].
  - destruct (Hl x) as (dep & Hd & Hpos); [set_solver|].
    unfold passo_hc, dict_get. simpl. rewrite Hd. simpl.
    destruct (decide (dep ≤ 1024)) as [Hle|Hgt].
    + rewrite calcular_hc_ok by lia. done.
    + rewrite calcular_hc_OverflowError by lia. simpl. intros [= <-].
      split; [done|]. exists x, dep. split; [set_solver|]. split; [done|lia].
Qed.

(** [_calcular_coeficientes] returns on a non-empty dictionary whose
    depths are at most 1024. *)
Lemma _calcular_coeficientes_ok_limite d mcs deps fila0 :
  d ≠ [] →
  (∀ var dep_i, var ∈ keys d →
     _calcular_profundidades_arvore (keys d) deps fila0 !! var = Some dep_i →
     -1073 ≤ dep_i ≤ 1024) →
  ∃ c, _calcular_coeficientes d mcs deps fila0 = inr c.
Proof.
  intros Hd Hlim. unfold _calcular_coeficientes.
  destruct (decide _) as [He|_].
  { apply fmap_nil_inv in He. unfold keys in He. apply fmap_nil_inv in He. done. }
  destruct (foldl_passo_hc_ok
              (_calcular_profundidades_arvore (keys d) deps fila0) (keys d) ∅)
    as [m Hm].
  { intros var Hvar.
    destruct (profundidade_definida (keys d) deps fila0 var Hvar) as [dep Hdep].
    exists dep. split; [done|]. by eapply Hlim. }
  rewrite Hm. simpl. by eexists.
Qed.

Lemma length_keys d : length (keys d) = length d.
Proof. unfold keys. by rewrite length_fmap. Qed.

(** So it returns on every non-empty dictionary of at most 1024
    variables: a depth is at most the number of variables. *)
Lemma _calcular_coeficientes_ok d mcs deps fila0 :
  d ≠ [] → (length d ≤ 1024)%nat →
  fila0 ≡ₚ elements (nos_raiz (keys d) deps) →
  ∃ c, _calcular_coeficientes d mcs deps fila0 = inr c.
Proof.
  intros Hd Hn Hp. apply _calcular_coeficientes_ok_limite; [done|].
  intros var dep_i _ Hdep.
  pose proof (profundidade_limites (keys d) deps fila0 var dep_i Hp Hdep) as H.
  rewrite length_keys in H. lia.
Qed.

(** [_calcular_coeficientes] returns only when every depth is at most
    1024. *)
Lemma _calcular_coeficientes_limite d mcs deps fila0 c var dep_i :
  _calcular_coeficientes d mcs deps fila0 = inr c → var ∈ keys d →
  _calcular_profundidades_arvore (keys d) deps fila0 !! var = Some dep_i →
  dep_i ≤ 1024.
Proof.
  unfold _calcular_coeficientes. destruct (decide _); [done|].
  intros H Hvar. apply bind_inr in H as (m & Hm & _).
  by apply (foldl_passo_hc_limite _ _ _ _ Hm).
Qed.

Lemma _calcular_coeficientes_hc d mcs deps fila0 c var :
  _calcular_coeficientes d mcs deps fila0 = inr c → var ∈ keys d →
  ∃ dep_i,
    _calcular_profundidades_arvore (keys d) deps fila0 !! var = Some dep_i
    ∧ hc_values c !! var = Some (hc_de_profundidade dep_i).
Proof.
  unfold _calcular_coeficientes. destruct (decide _); [done|].
  intros H Hvar. apply bind_inr in H as (m & Hm & H). injection H as <-. simpl.
  by apply (foldl_passo_hc_spec _ _ _ _ Hm).
Qed.

Lemma hc_de_profundidade_0 : hc_de_profundidade 0 = 2%R.
Proof.
  unfold hc_de_profundidade.
  change (0 + 1) with 1. change (0 - 1) with (-1).
  unfold powerRZ. change (Pos.to_nat 1) with 1%nat. simpl pow. lra.
Qed.

Lemma hc_de_profundidade_potencia dep_i :
  hc_de_profundidade dep_i = (IZR (dep_i + 1) * powerRZ 2 (- (dep_i - 1)))%R.
Proof. unfold hc_de_profundidade. rewrite powerRZ_neg'. lra. Qed.
End DouCoef.

(** C2, as the code has it: for every variable the hierarchical coefficient
    is [(dep_i + 1) * 2^(-(dep_i - 1))] at every depth, the root included;
    no guard sets it to 1 at depth 0, where the formula gives 2. *)
Theorem C2_hc_formula_sem_guarda d mcs deps fila0 c var :
  Dou._calcular_coeficientes d mcs deps fila0 = inr c →
  var ∈ Dou.keys d →
  ∃ dep_i,
    Dou._calcular_profundidades_arvore (Dou.keys d) deps fila0 !! var = Some dep_i
    ∧ Dou.hc_values c !! var
      = Some (IZR (dep_i + 1) * powerRZ 2 (- (dep_i - 1)))%R
    ∧ (dep_i = 0 → Dou.hc_values c !! var = Some 2%R).
Proof.
  intros Hc Hvar.
  destruct (_calcular_coeficientes_hc _ _ _ _ _ _ Hc Hvar) as (dep & Hd & Hh).
  exists dep. split; [done|]. split.
  - by rewrite <- hc_de_profundidade_potencia.
  - intros ->. by rewrite Hh, hc_de_profundidade_0.
Qed.

(** A single variable that depends on nothing: depth 0 and coefficient 2. *)
Lemma C2_hc_formula_sem_guarda_witness :
  ∃ c, Dou._calcular_coeficientes [("m.f::total", 3)] ∅ ∅ ["m.f::total"] = inr c
       ∧ ∃ dep_i,
           Dou._calcular_profundidades_arvore (Dou.keys [("m.f::total", 3)]) ∅
             ["m.f::total"] !! "m.f::total" = Some dep_i
           ∧ Dou.hc_values c !! "m.f::total"
             = Some (IZR (dep_i + 1) * powerRZ 2 (- (dep_i - 1)))%R
           ∧ (dep_i = 0 → Dou.hc_values c !! "m.f::total" = Some 2%R).
Proof.
  destruct (_calcular_coeficientes_ok [("m.f::total", 3)] ∅ ∅ ["m.f::total"])
    as [c Hc]; [done|simpl; lia|vm_compute; reflexivity|].
  exists c. split; [exact Hc|].
  apply (C2_hc_formula_sem_guarda _ _ _ _ _ _ Hc).
  vm_compute. left.
Defined.

(** C2 fails at the root: a variable of depth 0 gets coefficient 2, not 1. *)
Lemma C2_raiz_recebe_2 :
  ∃ c, Dou._calcular_coeficientes [("m.f::total", 3)] ∅ ∅ ["m.f::total"] = inr c
       ∧ Dou._calcular_profundidades_arvore ["m.f::total"] ∅ ["m.f::total"]
           !! "m.f::total" = Some 0
       ∧ Dou.hc_values c !! "m.f::total" = Some 2%R
       ∧ Dou.hc_values c !! "m.f::total" ≠ Some 1%R.
Proof.
  destruct (_calcular_coeficientes_ok [("m.f::total", 3)] ∅ ∅ ["m.f::total"])
    as [c Hc]; [done|simpl; lia|vm_compute; reflexivity|].
  exists c. split; [exact Hc|].
  destruct (_calcular_coeficientes_hc _ _ _ _ _ "m.f::total" Hc)
    as (dep & Hd & Hh); [vm_compute; left|].
  assert (dep = 0) as -> by (vm_compute in Hd; congruence).
  split; [exact Hd|].
  rewrite Hh, hc_de_profundidade_0. split; [done|].
  intros [= H]. lra.
Qed.

(** C3 at the chain [rr → aa → bb → xx → yy] with [xx] also depending on
    [rr]: [xx] is dequeued at depth 1, before [bb] raises it to 3, so its
    dependent [yy] keeps depth 2 although its only predecessor ends at
    depth 3. *)
Theorem C3_profundidade_nao_propagada :
  let profs :=
    Dou._calcular_profundidades_arvore Cenarios.variaveis_cadeia
      Cenarios.dependencias_cadeia ["rr"] in
  elements (Dou.nos_raiz Cenarios.variaveis_cadeia Cenarios.dependencias_cadeia)
    = ["rr"]
  ∧ elements (Cenarios.dependencias_cadeia !!! "yy") = ["xx"]
  ∧ profs !! "rr" = Some 0
  ∧ profs !! "xx" = Some 3
  ∧ profs !! "yy" = Some 2.
Proof. vm_compute. repeat split. Qed.

(** C9: a variable that no chain of dependencies links to a root keeps the
    initial depth 0, the depth of a root, and so the coefficient of a
    root. *)
Theorem C9_inalcancavel_profundidade_0 d mcs deps fila0 c v :
  fila0 ≡ₚ elements (Dou.nos_raiz (Dou.keys d) deps) →
  Dou._calcular_coeficientes d mcs deps fila0 = inr c →
  v ∈ Dou.keys d →
  ¬ Dou.alcancavel (Dou.keys d) deps v →
  Dou._calcular_profundidades_arvore (Dou.keys d) deps fila0 !! v = Some 0
  ∧ Dou.hc_values c !! v = Some (Dou.hc_de_profundidade 0)
  ∧ ∀ r, r ∈ Dou.keys d → Dou.eh_raiz deps r = true →
      Dou._calcular_profundidades_arvore (Dou.keys d) deps fila0 !! r = Some 0
      ∧ Dou.hc_values c !! r = Dou.hc_values c !! v.
Proof.
  intros Hp Hc Hv Hna.
  pose proof (profundidade_inalcancavel _ _ _ _ Hp Hv Hna) as Hv0.
  destruct (_calcular_coeficientes_hc _ _ _ _ _ _ Hc Hv) as (dep & Hd & Hh).
  rewrite Hv0 in Hd. injection Hd as <-.
  split; [done|]. split; [done|].
  intros r Hr Hraiz.
  pose proof (profundidade_raiz _ deps fila0 _ Hr Hraiz) as Hr0.
  destruct (_calcular_coeficientes_hc _ _ _ _ _ _ Hc Hr) as (dep & Hd & Hh').
  rewrite Hr0 in Hd. injection Hd as <-.
  split; [done|]. by rewrite Hh, Hh'.
Qed.

Lemma dependencias_ciclo_aa :
  Cenarios.dependencias_ciclo !! "m.f::aa" = Some {["m.f::bb"]}.
Proof. vm_compute. reflexivity. Qed.

Lemma dependencias_ciclo_bb :
  Cenarios.dependencias_ciclo !! "m.f::bb" = Some {["m.f::aa"]}.
Proof. vm_compute. reflexivity. Qed.

Lemma dependencias_ciclo_rr : Cenarios.dependencias_ciclo !! "m.f::rr" = None.
Proof. vm_compute. reflexivity. Qed.

(** In the cycle scenario only the root can be dequeued. *)
Lemma ciclo_inalcancavel v :
  Dou.alcancavel (Dou.keys Cenarios.variaveis_ciclo) Cenarios.dependencias_ciclo v →
  v = "m.f::rr".
Proof.
  assert (Hk : Dou.keys Cenarios.variaveis_ciclo
               = ["m.f::rr"; "m.f::aa"; "m.f::bb"]) by reflexivity.
  induction 1 as [v Hv Hr|u v ds _ -> Hv Hds Hu].
  - rewrite Hk in Hv. rewrite !elem_of_cons, elem_of_nil in Hv.
    destruct Hv as [->|[->|[->|[]]]]; [reflexivity| |]; unfold Dou.eh_raiz in Hr.
    + rewrite dependencias_ciclo_aa in Hr. vm_compute in Hr. discriminate Hr.
    + rewrite dependencias_ciclo_bb in Hr. vm_compute in Hr. discriminate Hr.
  - rewrite Hk in Hv. rewrite !elem_of_cons, elem_of_nil in Hv.
    destruct Hv as [->|[->|[->|[]]]].
    + rewrite dependencias_ciclo_rr in Hds. discriminate Hds.
    + rewrite dependencias_ciclo_aa in Hds. injection Hds as <-.
      apply elem_of_singleton in Hu. discriminate Hu.
    + rewrite dependencias_ciclo_bb in Hds. injection Hds as <-.
      apply elem_of_singleton in Hu. discriminate Hu.
Qed.

(** The theorem at a root and a two-variable cycle. *)
Lemma C9_inalcancavel_profundidade_0_witness :
  ∃ c,
    Dou._calcular_coeficientes Cenarios.variaveis_ciclo ∅
      Cenarios.dependencias_ciclo ["m.f::rr"] = inr c
    ∧ Dou._calcular_profundidades_arvore (Dou.keys Cenarios.variaveis_ciclo)
        Cenarios.dependencias_ciclo ["m.f::rr"] !! "m.f::aa" = Some 0
    ∧ Dou.hc_values c !! "m.f::aa" = Some (Dou.hc_de_profundidade 0)
    ∧ ∀ r, r ∈ Dou.keys Cenarios.variaveis_ciclo →
        Dou.eh_raiz Cenarios.dependencias_ciclo r = true →
        Dou._calcular_profundidades_arvore (Dou.keys Cenarios.variaveis_ciclo)
          Cenarios.dependencias_ciclo ["m.f::rr"] !! r = Some 0
        ∧ Dou.hc_values c !! r = Dou.hc_values c !! "m.f::aa".
Proof.
  destruct (_calcular_coeficientes_ok Cenarios.variaveis_ciclo ∅
              Cenarios.dependencias_ciclo ["m.f::rr"]) as [c Hc];
    [done|simpl; lia|vm_compute; reflexivity|].
  exists c. split; [exact Hc|].
  apply (C9_inalcancavel_profundidade_0 Cenarios.variaveis_ciclo ∅
           Cenarios.dependencias_ciclo ["m.f::rr"] c "m.f::aa").
  - vm_compute. reflexivity.
  - exact Hc.
  - vm_compute. right. left.
  - intros H. apply ciclo_inalcancavel in H. discriminate.
Defined.

(** ** The entropy model of [analisador_zhang.py] *)

Lemma soma_R_snoc l x : soma_R (l ++ [x]) = (soma_R l + x)%R.
Proof.
  unfold soma_R. induction l as [|y l IH]; simpl; [lra|]. rewrite IH. lra.
Qed.

Lemma lookup_list_to_map_const {V} (c : V) (l : list string) k :
  k ∈ l → (list_to_map ((λ x, (x, c)) <$> l) : gmap string V) !! k = Some c.
Proof.
  induction l as [|x l IH]; intros Hk; [by apply elem_of_nil in Hk|].
  rewrite fmap_cons, list_to_map_cons. simpl.
  destruct (decide (x = k)) as [->|Hne].
  - by rewrite lookup_insert_eq.
  - rewrite lookup_insert_ne by done. apply IH. set_solver.
Qed.

Section Entropia.
Import Zhang.
Variable a : acoplas.
Variable probabilidades : gmap string R.

Lemma passo_entropia_spec H det i f :
  (i < length (graus a))%nat → is_Some (probabilidades !! f) →
  passo_entropia a probabilidades (ret (H, det)) (i, f)
  = ret ((H + termo (item_de a probabilidades i f))%R, det ++ [item_de a probabilidades i f]).
Proof.
  intros Hi [p Hp]. unfold passo_entropia. simpl.
  destruct (lookup_lt_is_Some_2 _ _ Hi) as [g Hg].
  unfold list_get, dict_get. rewrite Hg, Hp. simpl.
  unfold item_de. rewrite (list_lookup_total_correct _ _ _ Hg).
  rewrite (lookup_total_correct _ _ _ Hp). simpl.
  unfold termo_spec. rewrite mult_IZR.
  destruct (decide ((0 < IZR g)%R ∧ (0 < p)%R ∧ 0 < M a)) as [Hc|Hc];
    destruct (decide ((IZR g > 0)%R ∧ (p > 0)%R ∧ M a > 0)) as [Hc'|Hc'].
  - done.
  - exfalso. apply Hc'. destruct Hc as (?&?&?). repeat split; [lra|lra|lia].
  - exfalso. apply Hc. destruct Hc' as (?&?&?). repeat split; [lra|lra|lia].
  - by rewrite Rplus_0_r.
Qed.

Lemma foldl_passo_entropia funcoes :
  (length funcoes ≤ length (graus a))%nat →
  (∀ f, f ∈ funcoes → is_Some (probabilidades !! f)) →
  foldl (passo_entropia a probabilidades) (ret (0%R, []))
    (imap (λ i f, (i, f)) funcoes)
  = ret (soma_R (termo <$> imap (item_de a probabilidades) funcoes), imap (item_de a probabilidades) funcoes).
Proof.
  induction funcoes as [|f l IH] using rev_ind; intros Hlen Hp; [done|].
  rewrite length_app in Hlen. simpl in Hlen.
  rewrite !imap_app, foldl_app.
  rewrite IH by (first [lia | intros; apply Hp; set_solver]).
  cbn [imap foldl]. rewrite Nat.add_0_r.
  rewrite passo_entropia_spec by (first [lia | apply Hp; set_solver]).
  rewrite fmap_app. change (termo <$> [?x]) with [termo x].
  by rewrite soma_R_snoc.
Qed.

(** The entropy model returns whenever every entity has a row and a
    probability; its terms are those of the specification and [H] is
    their sum. *)
Lemma _calcular_entropy_model_spec funcoes :
  (length funcoes ≤ length (graus a))%nat →
  (∀ f, f ∈ funcoes → is_Some (probabilidades !! f)) →
  ∃ e, _calcular_entropy_model funcoes a probabilidades = inr e
       ∧ H_entropy_detalhado e = imap (item_de a probabilidades) funcoes
       ∧ H_entropy e = soma_R (termo <$> H_entropy_detalhado e)
       ∧ H_normalized e = normalizar (length funcoes) (H_entropy e).
Proof.
  intros Hlen Hp. unfold _calcular_entropy_model.
  rewrite foldl_passo_entropia by done. simpl. by eexists.
Qed.
End Entropia.

Lemma log10_sinal x :
  (0 < x)%R → ((x <= 1 → Zhang.log10 x <= 0) ∧ (1 < x → 0 < Zhang.log10 x))%R.
Proof.
  intros Hx. unfold Zhang.log10.
  assert (H10 : (0 < ln 10)%R) by (rewrite <- ln_1; apply ln_increasing; lra).
  split; intros H.
  - assert (ln x <= 0)%R.
    { destruct (Req_dec x 1) as [->|Hne]; [rewrite ln_1; lra|].
      rewrite <- ln_1. left. apply ln_increasing; lra. }
    apply Rmult_le_reg_r with (ln 10); [done|].
    unfold Rdiv. rewrite Rmult_assoc, Rinv_l by lra. lra.
  - assert (0 < ln x)%R by (rewrite <- ln_1; apply ln_increasing; lra).
    apply Rdiv_lt_0_compat; lra.
Qed.

(** Sign of an entropy term: non-negative up to [n_i = 2M], negative
    beyond. *)
Lemma termo_spec_sinal n_i p_i M :
  (0 <= p_i)%R →
  ((n_i <= 2 * IZR M → 0 <= Zhang.termo_spec n_i p_i M)
   ∧ (2 * IZR M < n_i → 0 < p_i → (0 < M)%Z → Zhang.termo_spec n_i p_i M < 0))%R.
Proof.
  intros Hp. unfold Zhang.termo_spec.
  destruct (decide _) as [(Hn & Hp' & HM)|Hc].
  - assert (HM' : (0 < 2 * IZR M)%R).
    { apply Z.gt_lt, IZR_lt in HM. lra. }
    assert (Hcoef : (0 < n_i * p_i / (2 * IZR M))%R).
    { apply Rdiv_lt_0_compat; [|done]. apply Rmult_lt_0_compat; lra. }
    assert (Hq : (0 < n_i / (2 * IZR M))%R) by (apply Rdiv_lt_0_compat; lra).
    destruct (log10_sinal _ Hq) as [Hle Hgt]. split.
    + intros Hn2. assert (n_i / (2 * IZR M) <= 1)%R.
      { apply Rmult_le_reg_r with (2 * IZR M)%R; [done|].
        unfold Rdiv. rewrite Rmult_assoc, Rinv_l by lra. lra. }
      specialize (Hle H). nra.
    + intros Hn2 _ _. assert (1 < n_i / (2 * IZR M))%R.
      { apply Rmult_lt_reg_r with (2 * IZR M)%R; [done|].
        unfold Rdiv. rewrite Rmult_assoc, Rinv_l by lra. lra. }
      specialize (Hgt H). nra.
  - split; [lra|]. intros Hn2 Hp' HM. exfalso. apply Hc.
    assert (0 < IZR M)%R by (apply IZR_lt in HM; lra).
    repeat split; [lra|lra|lia].
Qed.

(** C5: for every entity [i] the entropy model records the term
    [-((n_i p_i) / (2M)) log10 (n_i / (2M))] when [n_i > 0], [p_i > 0] and
    [M > 0], and 0 otherwise, with [n_i] the sum of row [i] of the adjacency
    matrix, and the entropy [H] is the sum of the terms. *)
Theorem C5_termos_de_entropia funcoes (m : Main.matriz) probabilidades :
  (length funcoes ≤ length m)%nat →
  (∀ f, f ∈ funcoes → is_Some (probabilidades !! f)) →
  ∃ e,
    Zhang._calcular_entropy_model funcoes (Zhang._contar_acoplas m) probabilidades
      = inr e
    ∧ length (Zhang.H_entropy_detalhado e) = length funcoes
    ∧ (∀ i f, funcoes !! i = Some f →
         ∃ it linha p_i,
           Zhang.H_entropy_detalhado e !! i = Some it
           ∧ m !! i = Some linha
           ∧ probabilidades !! f = Some p_i
           ∧ Zhang.termo it
             = Zhang.termo_spec (IZR (soma_Z linha)) p_i
                 (Zhang.M (Zhang._contar_acoplas m)))
    ∧ Zhang.H_entropy e = soma_R (Zhang.termo <$> Zhang.H_entropy_detalhado e).
Proof.
  intros Hlen Hp.
  destruct (_calcular_entropy_model_spec (Zhang._contar_acoplas m) probabilidades
              funcoes) as (e & He & Hdet & HH & _).
  { simpl. by rewrite length_fmap. }
  { done. }
  exists e. split; [done|]. split; [by rewrite Hdet, length_imap|]. split; [|done].
  intros i f Hif.
  assert (Hi : (i < length m)%nat) by (apply lookup_lt_Some in Hif; lia).
  destruct (lookup_lt_is_Some_2 _ _ Hi) as [linha Hl].
  destruct (Hp f) as [p Hpf]; [by eapply list_elem_of_lookup_2|].
  exists (Zhang.item_de (Zhang._contar_acoplas m) probabilidades i f), linha, p.
  split; [by rewrite Hdet, list_lookup_imap, Hif|].
  split; [done|]. split; [done|]. simpl.
  rewrite (lookup_total_correct _ _ _ Hpf).
  assert (Hg : (soma_Z <$> m) !! i = Some (soma_Z linha)) by by rewrite list_lookup_fmap, Hl.
  by rewrite (list_lookup_total_correct _ _ _ Hg).
Qed.

Lemma C5_termos_de_entropia_witness :
  ∃ e,
    Zhang._calcular_entropy_model Cenarios.funcoes_estrela
      (Zhang._contar_acoplas Cenarios.matriz_estrela)
      (Main.probabilidades_padrao Cenarios.funcoes_estrela) = inr e
    ∧ length (Zhang.H_entropy_detalhado e) = length Cenarios.funcoes_estrela
    ∧ (∀ i f, Cenarios.funcoes_estrela !! i = Some f →
         ∃ it linha p_i,
           Zhang.H_entropy_detalhado e !! i = Some it
           ∧ Cenarios.matriz_estrela !! i = Some linha
           ∧ Main.probabilidades_padrao Cenarios.funcoes_estrela !! f = Some p_i
           ∧ Zhang.termo it
             = Zhang.termo_spec (IZR (soma_Z linha)) p_i
                 (Zhang.M (Zhang._contar_acoplas Cenarios.matriz_estrela)))
    ∧ Zhang.H_entropy e = soma_R (Zhang.termo <$> Zhang.H_entropy_detalhado e).
Proof.
  apply (C5_termos_de_entropia Cenarios.funcoes_estrela Cenarios.matriz_estrela
           (Main.probabilidades_padrao Cenarios.funcoes_estrela)).
  - simpl. lia.
  - intros f Hf. unfold Main.probabilidades_padrao.
    rewrite lookup_list_to_map_const by done. eauto.
Defined.

(** C6, as the code has it: the term of an entity whose row sum [n_i] is at
    most [2M] is non-negative for every probability in [0,1]; [M] is the
    truncated half of the off-diagonal sum, a row sum can exceed [2M], and
    then, for [p_i > 0] and [M > 0], the term is negative. *)
Theorem C6_sinal_dos_termos funcoes (m : Main.matriz) probabilidades :
  (length funcoes ≤ length m)%nat →
  (∀ f, f ∈ funcoes → ∃ p_i, probabilidades !! f = Some p_i ∧ (0 <= p_i <= 1)%R) →
  ∃ e,
    Zhang._calcular_entropy_model funcoes (Zhang._contar_acoplas m) probabilidades
      = inr e
    ∧ ∀ i it, Zhang.H_entropy_detalhado e !! i = Some it →
        ∃ linha, m !! i = Some linha
          ∧ Zhang.ni it = IZR (soma_Z linha)
          ∧ (Zhang.ni it <= 2 * IZR (Zhang.M (Zhang._contar_acoplas m)) →
             0 <= Zhang.termo it)%R
          ∧ (2 * IZR (Zhang.M (Zhang._contar_acoplas m)) < Zhang.ni it →
             0 < Zhang.pi it → (0 < Zhang.M (Zhang._contar_acoplas m))%Z →
             Zhang.termo it < 0)%R.
Proof.
  intros Hlen Hp.
  destruct (_calcular_entropy_model_spec (Zhang._contar_acoplas m) probabilidades
              funcoes) as (e & He & Hdet & _).
  { simpl. by rewrite length_fmap. }
  { intros f Hf. destruct (Hp f Hf) as (p & -> & _). eauto. }
  exists e. split; [done|]. intros i it Hit.
  rewrite Hdet, list_lookup_imap in Hit.
  destruct (funcoes !! i) as [f|] eqn:Hif; [|done]. injection Hit as <-.
  assert (Hi : (i < length m)%nat) by (apply lookup_lt_Some in Hif; lia).
  destruct (lookup_lt_is_Some_2 _ _ Hi) as [linha Hl].
  destruct (Hp f) as (p & Hpf & Hp01); [by eapply list_elem_of_lookup_2|].
  exists linha. split; [done|]. simpl.
  assert (Hg : (soma_Z <$> m) !! i = Some (soma_Z linha))
    by by rewrite list_lookup_fmap, Hl.
  rewrite (list_lookup_total_correct _ _ _ Hg), (lookup_total_correct _ _ _ Hpf).
  split; [done|].
  apply termo_spec_sinal. lra.
Qed.

Lemma C6_sinal_dos_termos_witness :
  ∃ e,
    Zhang._calcular_entropy_model Cenarios.funcoes_estrela
      (Zhang._contar_acoplas Cenarios.matriz_estrela)
      (Main.probabilidades_padrao Cenarios.funcoes_estrela) = inr e
    ∧ ∀ i it, Zhang.H_entropy_detalhado e !! i = Some it →
        ∃ linha, Cenarios.matriz_estrela !! i = Some linha
          ∧ Zhang.ni it = IZR (soma_Z linha)
          ∧ (Zhang.ni it
               <= 2 * IZR (Zhang.M (Zhang._contar_acoplas Cenarios.matriz_estrela)) →
             0 <= Zhang.termo it)%R
          ∧ (2 * IZR (Zhang.M (Zhang._contar_acoplas Cenarios.matriz_estrela))
               < Zhang.ni it →
             0 < Zhang.pi it →
             (0 < Zhang.M (Zhang._contar_acoplas Cenarios.matriz_estrela))%Z →
             Zhang.termo it < 0)%R.
Proof.
  apply (C6_sinal_dos_termos Cenarios.funcoes_estrela Cenarios.matriz_estrela
           (Main.probabilidades_padrao Cenarios.funcoes_estrela)).
  - simpl. lia.
  - intros f Hf. exists (1 / 2)%R. split; [|lra].
    unfold Main.probabilidades_padrao. by rewrite lookup_list_to_map_const.
Defined.

(** C6 fails on the call graph of [f] calling [g], [h] and [k]: the weights
    are 0 or 1 and every probability is 1/2, yet [M = 1], [n_f = 3 > 2M]
    and the term of [f] is negative. *)
Lemma C6_termo_negativo :
  Main.matriz_do_projeto Cenarios.projeto_estrela = Cenarios.matriz_estrela
  ∧ Forall (Forall (λ x, 0 ≤ x)) Cenarios.matriz_estrela
  ∧ (∀ f, f ∈ Cenarios.funcoes_estrela →
       Main.probabilidades_padrao Cenarios.funcoes_estrela !! f = Some (1 / 2)%R)
  ∧ ∃ e it,
      Zhang._calcular_entropy_model Cenarios.funcoes_estrela
        (Zhang._contar_acoplas Cenarios.matriz_estrela)
        (Main.probabilidades_padrao Cenarios.funcoes_estrela) = inr e
      ∧ Zhang.H_entropy_detalhado e !! 0%nat = Some it
      ∧ Zhang.funcao it = "m.f"
      ∧ (Zhang.termo it < 0)%R.
Proof.
  split; [by vm_compute|].
  split; [repeat constructor; lia|].
  assert (Hp : ∀ f, f ∈ Cenarios.funcoes_estrela →
     Main.probabilidades_padrao Cenarios.funcoes_estrela !! f = Some (1 / 2)%R).
  { intros f Hf. unfold Main.probabilidades_padrao.
    by rewrite lookup_list_to_map_const. }
  split; [exact Hp|].
  destruct (_calcular_entropy_model_spec
              (Zhang._contar_acoplas Cenarios.matriz_estrela)
              (Main.probabilidades_padrao Cenarios.funcoes_estrela)
              Cenarios.funcoes_estrela) as (e & He & Hdet & _).
  { simpl. lia. }
  { intros f Hf. rewrite Hp by done. eauto. }
  exists e. eexists. split; [exact He|].
  split; [rewrite Hdet; reflexivity|]. split; [reflexivity|].
  cbn [Zhang.termo Zhang.item_de].
  assert (Hf : "m.f" ∈ Cenarios.funcoes_estrela) by (vm_compute; left).
  rewrite (lookup_total_correct _ _ _ (Hp _ Hf)).
  change (Zhang.graus (Zhang._contar_acoplas Cenarios.matriz_estrela) !!! 0%nat)
    with 3.
  change (Zhang.M (Zhang._contar_acoplas Cenarios.matriz_estrela)) with 1.
  apply termo_spec_sinal; [lra|lra|lra|lia].
Qed.

(** ** Inputs without edges *)

Lemma soma_Z_zeros l : Forall (λ x, x = 0) l → soma_Z l = 0.
Proof. induction 1 as [|x l -> _ IH]; simpl; [done|]. by rewrite IH. Qed.

Lemma np_sum_zeros (m : list (list Z)) :
  Forall (Forall (λ x, x = 0)) m → Zhang.np_sum (Zhang.fill_diagonal_0 m) = 0.
Proof.
  intros Hm. unfold Zhang.np_sum. apply soma_Z_zeros.
  apply Forall_fmap, Forall_lookup. intros i linha Hl. simpl.
  unfold Zhang.fill_diagonal_0 in Hl. rewrite list_lookup_imap in Hl.
  destruct (m !! i) as [l0|] eqn:Hi; simpl in Hl; [|discriminate Hl].
  injection Hl as <-.
  apply soma_Z_zeros. apply Forall_insert; try reflexivity.
  eapply (Forall_lookup_1 _ m); eassumption.
Qed.

Lemma termo_spec_M_0 n_i p_i M : M ≤ 0 → Zhang.termo_spec n_i p_i M = 0%R.
Proof.
  intros HM. unfold Zhang.termo_spec.
  destruct (decide _) as [(_ & _ & ?)|]; [lia|done].
Qed.

Lemma soma_R_zeros l : Forall (λ x, x = 0%R) l → soma_R l = 0%R.
Proof. induction 1 as [|x l -> _ IH]; simpl; [done|]. rewrite IH. lra. Qed.

Lemma normalizar_0 n : Zhang.normalizar n 0 = 0%R.
Proof.
  unfold Zhang.normalizar. destruct (decide _); [|done]. simpl.
  destruct (decide _) as [H|]; [|done].
  unfold Rdiv. rewrite Rmult_0_l. apply Rmin_right. lra.
Qed.

(** Without functions, or without edges, every entropy term is 0 and so
    are [H] and [H_normalized]. *)
Lemma entropia_sem_arestas funcoes (m : Main.matriz) probabilidades :
  (length funcoes ≤ length m)%nat →
  (∀ f, f ∈ funcoes → is_Some (probabilidades !! f)) →
  funcoes = [] ∨ Forall (Forall (λ x, x = 0)) m →
  ∃ e,
    Zhang._calcular_entropy_model funcoes (Zhang._contar_acoplas m) probabilidades
      = inr e
    ∧ Zhang.H_entropy e = 0%R
    ∧ Zhang.H_normalized e = 0%R
    ∧ Forall (λ it, Zhang.termo it = 0%R) (Zhang.H_entropy_detalhado e).
Proof.
  intros Hlen Hp Hz.
  destruct (_calcular_entropy_model_spec (Zhang._contar_acoplas m) probabilidades
              funcoes) as (e & He & Hdet & HH & HN).
  { simpl. by rewrite length_fmap. }
  { done. }
  exists e. split; [done|].
  assert (Ht : Forall (λ it, Zhang.termo it = 0%R) (Zhang.H_entropy_detalhado e)).
  { rewrite Hdet. destruct Hz as [->|Hz]; [constructor|].
    apply Forall_lookup. intros i it Hit. rewrite list_lookup_imap in Hit.
    destruct (funcoes !! i); [|done]. injection Hit as <-. simpl.
    apply termo_spec_M_0. simpl. by rewrite np_sum_zeros. }
  assert (H0 : Zhang.H_entropy e = 0%R).
  { rewrite HH. apply soma_R_zeros. by apply Forall_fmap. }
  split; [done|]. split; [|done].
  by rewrite HN, H0, normalizar_0.
Qed.

(** ** The judgment-matrix model of [analisador_zhang.py] *)

Lemma mapR_ok {A B} (f : A → resultado B) l :
  (∀ x, x ∈ l → ∃ y, f x = inr y) →
  ∃ ys, Zhang.mapR f l = inr ys ∧ length ys = length l.
Proof.
  induction l as [|x l IH]; intros Hf; simpl; [by eexists|].
  destruct (Hf x) as [y Hy]; [set_solver|].
  destruct IH as (ys & Hys & Hlen); [intros; apply Hf; set_solver|].
  rewrite Hy, Hys. simpl. exists (y :: ys). split; [done|]. simpl. by rewrite Hlen.
Qed.

Lemma celula_julgamento_ok n (m : Main.matriz) i j :
  Main.quadrada n m → (i < n)%nat → (j < n)%nat →
  ∃ v, Zhang.celula_julgamento m i j = inr v.
Proof.
  intros [Hlen Hrows] Hi Hj. unfold Zhang.celula_julgamento.
  destruct (decide (i = j)); [by eexists|].
  destruct (lookup_lt_is_Some_2 m i) as [linha Hl]; [lia|].
  assert (Hll : length linha = n)
    by exact (Forall_lookup_1 (λ linha, length linha = n) m i linha Hrows Hl).
  destruct (lookup_lt_is_Some_2 linha j) as [v Hv]; [lia|].
  unfold list_get. rewrite Hl. simpl. rewrite Hv. simpl.
  destruct (decide (0 < v)); [|by eexists].
  destruct (decide (0 < soma_Z linha)); by eexists.
Qed.

(** Building the judgment matrix never raises on an [n × n] matrix. *)
Lemma matriz_julgamento_ok n (m : Main.matriz) :
  Main.quadrada n m → ∃ A, Zhang.matriz_julgamento n m = inr A ∧ length A = n.
Proof.
  intros Hq. unfold Zhang.matriz_julgamento.
  destruct (mapR_ok
    (λ i, Zhang.mapR (λ j, Zhang.celula_julgamento m i j) (seq 0 n)) (seq 0 n))
    as (A & HA & Hlen).
  - intros i Hi. apply elem_of_seq in Hi.
    destruct (mapR_ok (λ j, Zhang.celula_julgamento m i j) (seq 0 n))
      as (linha & Hl & _); [|by eexists].
    intros j Hj. apply elem_of_seq in Hj.
    apply (celula_julgamento_ok n); [done|lia|lia].
  - exists A. split; [done|]. by rewrite Hlen, length_seq.
Qed.

Lemma corpo_try_eig_falha eig funcoes probabilidades A e :
  eig A = inl e → Zhang.corpo_try eig funcoes probabilidades A = inl e.
Proof. intros H. unfold Zhang.corpo_try. by rewrite H. Qed.

Lemma corpo_try_espectro_vazio eig funcoes probabilidades A vecs :
  eig A = inr ([], vecs) →
  Zhang.corpo_try eig funcoes probabilidades A = inl ValueError.
Proof. intros H. unfold Zhang.corpo_try. by rewrite H. Qed.

Lemma julgamento_recuo eig funcoes (m : Main.matriz) probabilidades A e :
  Zhang.matriz_julgamento (length funcoes) m = inr A →
  Zhang.corpo_try eig funcoes probabilidades A = inl e →
  Zhang._calcular_judgment_matrix_model eig funcoes m probabilidades
  = inr (A, Zhang.recuo (length funcoes)).
Proof.
  intros HA Ht. unfold Zhang._calcular_judgment_matrix_model.
  rewrite HA. simpl. by rewrite Ht.
Qed.

Lemma julgamento_retorna eig funcoes (m : Main.matriz) probabilidades A :
  Zhang.matriz_julgamento (length funcoes) m = inr A →
  ∃ j, Zhang._calcular_judgment_matrix_model eig funcoes m probabilidades
       = inr (A, j).
Proof.
  intros HA. unfold Zhang._calcular_judgment_matrix_model.
  rewrite HA. simpl. destruct (Zhang.corpo_try _ _ _ _); by eexists.
Qed.


(** C7: on an [n × n] adjacency matrix the judgment-matrix model always
    returns, and when the eigen-decomposition raises, gives an empty
    spectrum, or anything else in the [try] raises, the result is the
    uniform vector [W_i = 1/n] with judgment coupling 0. *)
Theorem C7_recuo_uniforme eig funcoes (m : Main.matriz) probabilidades :
  Main.quadrada (length funcoes) m →
  ∃ A j,
    Zhang.matriz_julgamento (length funcoes) m = inr A
    ∧ Zhang._calcular_judgment_matrix_model eig funcoes m probabilidades
      = inr (A, j)
    ∧ ((∃ e, eig A = inl e)
       ∨ (∃ vecs, eig A = inr ([], vecs))
       ∨ (∃ e, Zhang.corpo_try eig funcoes probabilidades A = inl e) →
       j = Zhang.recuo (length funcoes)
       ∧ Zhang.C_judgment j = 0%R
       ∧ length (Zhang.sorting_vector j) = length funcoes
       ∧ ∀ i, (i < length funcoes)%nat →
           Zhang.sorting_vector j !! i = Some (1 / INR (length funcoes))%R).
Proof.
  intros Hq. destruct (matriz_julgamento_ok _ _ Hq) as (A & HA & _).
  destruct (julgamento_retorna eig funcoes m probabilidades A HA) as [j Hj].
  exists A, j. split; [done|]. split; [done|].
  intros Hfalha.
  assert (Ht : ∃ e, Zhang.corpo_try eig funcoes probabilidades A = inl e).
  { destruct Hfalha as [[e He]|[[vecs Hv]|Ht]]; [| |done].
    - exists e. by apply corpo_try_eig_falha.
    - exists ValueError. by eapply corpo_try_espectro_vazio. }
  destruct Ht as [e Ht].
  rewrite (julgamento_recuo _ _ _ _ _ _ HA Ht) in Hj. injection Hj as <-.
  split; [done|]. split; [done|]. simpl.
  split; [by rewrite length_replicate|].
  intros i Hi. by apply lookup_replicate_2.
Qed.

Lemma C7_recuo_uniforme_witness :
  ∃ A j,
    Zhang.matriz_julgamento (length Cenarios.funcoes_estrela)
      Cenarios.matriz_estrela = inr A
    ∧ Zhang._calcular_judgment_matrix_model Cenarios.eig_falha
        Cenarios.funcoes_estrela Cenarios.matriz_estrela
        (Main.probabilidades_padrao Cenarios.funcoes_estrela) = inr (A, j)
    ∧ ((∃ e, Cenarios.eig_falha A = inl e)
       ∨ (∃ vecs, Cenarios.eig_falha A = inr ([], vecs))
       ∨ (∃ e, Zhang.corpo_try Cenarios.eig_falha Cenarios.funcoes_estrela
                 (Main.probabilidades_padrao Cenarios.funcoes_estrela) A = inl e) →
       j = Zhang.recuo (length Cenarios.funcoes_estrela)
       ∧ Zhang.C_judgment j = 0%R
       ∧ length (Zhang.sorting_vector j) = length Cenarios.funcoes_estrela
       ∧ ∀ i, (i < length Cenarios.funcoes_estrela)%nat →
           Zhang.sorting_vector j !! i
           = Some (1 / INR (length Cenarios.funcoes_estrela))%R).
Proof.
  apply (C7_recuo_uniforme Cenarios.eig_falha Cenarios.funcoes_estrela
           Cenarios.matriz_estrela
           (Main.probabilidades_padrao Cenarios.funcoes_estrela)).
  split; [reflexivity|]. repeat constructor.
Defined.

(** ** The visitor of [analisador_coupling_briand.py] *)

(** Induction on syntax trees, with the hypothesis on every child. *)
Lemma node_ind_filhos (P : Ast.node → Prop) :
  (∀ id, P (Ast.Name id)) →
  (∀ value attr, P value → P (Ast.Attribute value attr)) →
  (∀ func args keywords,
     P func → Forall P args → Forall P keywords →
     P (Ast.Call func args keywords)) →
  (∀ name children, Forall P children → P (Ast.FunctionDef name children)) →
  (∀ children, Forall P children → P (Ast.Other children)) →
  ∀ n, P n.
Proof.
  intros HName HAttr HCall HDef HOther.
  fix IH 1. intros [id|value attr|func args keywords|name children|children].
  - apply HName.
  - apply HAttr, IH.
  - apply HCall; [apply IH| |].
    + induction args as [|x l IHl]; constructor; [apply IH|apply IHl].
    + induction keywords as [|x l IHl]; constructor; [apply IH|apply IHl].
  - apply HDef. induction children as [|x l IHl]; constructor; [apply IH|apply IHl].
  - apply HOther. induction children as [|x l IHl]; constructor; [apply IH|apply IHl].
Qed.

Section Visitor.
Import Ast Briand.
Variable dump : node → string.

Lemma foldl_visit_ok children st :
  Forall (visita_ok dump) children →
  current_function (foldl (λ s c, visit dump c s) st children)
    = current_function st
  ∧ ∀ r, r ∈ calls (foldl (λ s c, visit dump c s) st children)
         ↔ r ∈ calls st
           ∨ ∃ x, x ∈ children ∧ registro_de dump (current_function st) x r.
Proof.
  intros Hch. revert st. induction Hch as [|x l Hx _ IH]; intros st; simpl.
  - split; [done|]. intros r. split; [by left|].
    intros [?|(x & Hx & _)]; [done|by apply elem_of_nil in Hx].
  - destruct (Hx st) as [Hc Hr]. destruct (IH (visit dump x st)) as [Hc' Hr'].
    split; [by rewrite Hc', Hc|]. intros r. rewrite Hr', Hr, Hc. split.
    + intros [[?|?]|(y & Hy & ?)]; [by left| |].
      * right. exists x. split; [left|done].
      * right. exists y. split; [by right|done].
    + intros [?|(y & Hy & ?)]; [by left; left|].
      apply elem_of_cons in Hy as [->|Hy]; [by left; right|].
      right. by exists y.
Qed.

Lemma registrar_spec st func args :
  current_function (registrar dump st func args) = current_function st
  ∧ ∀ r, r ∈ calls (registrar dump st func args)
         ↔ r ∈ calls st
           ∨ ∃ src tgt, current_function st = Some src ∧ src ≠ ""
                        ∧ func = Name tgt ∧ r = (src, tgt, arg_name dump <$> args).
Proof.
  unfold registrar.
  destruct (current_function st) as [f|] eqn:Hcur.
  2:{ split; [done|]. intros r. split; [by left|].
      intros [?|(? & ? & ? & _)]; done. }
  destruct func as [called| | | |];
    try (split; [done|]; intros r; split; [by left|];
         intros [?|(? & ? & _ & _ & ? & _)]; done).
  destruct (decide (f = "")) as [->|Hne].
  { split; [done|]. intros r. split; [by left|].
    intros [?|(? & ? & [= <-] & ? & _)]; done. }
  split; [done|]. intros r. simpl. rewrite elem_of_app, list_elem_of_singleton.
  split.
  - intros [?| ->]; [by left|]. right. by exists f, called.
  - intros [?|(src & tgt & [= <-] & _ & [= <-] & ->)]; [by left|by right].
Qed.

Lemma visit_ok n : visita_ok dump n.
Proof.
  induction n as [id|value attr IH|func args keywords IHf IHa IHk
                 |name children IH|children IH] using node_ind_filhos;
    intros st.
  - simpl. split; [done|]. intros r. split; [by left|].
    intros [?|(src & tgt & a & k & _ & _ & Hs)]; [done|]. inversion Hs.
  - simpl. destruct (IH st) as [Hc Hr]. split; [done|]. intros r. rewrite Hr.
    split; (intros [?|(src & tgt & a & k & -> & Hne & Hs)]; [by left|right]);
      exists src, tgt, a, k; (split; [done|split; [done|]]).
    + by constructor.
    + by inversion Hs.
  - simpl.
    destruct (registrar_spec st func args) as [Hc1 Hr1].
    destruct (IHf (registrar dump st func args)) as [Hc2 Hr2].
    destruct (foldl_visit_ok args (visit dump func (registrar dump st func args)) IHa)
      as [Hc3 Hr3].
    destruct (foldl_visit_ok keywords
                (foldl (λ s c, visit dump c s)
                   (visit dump func (registrar dump st func args)) args) IHk)
      as [Hc4 Hr4].
    split; [by rewrite Hc4, Hc3, Hc2, Hc1|]. intros r.
    rewrite Hr4, Hr3, Hr2, Hr1, Hc3, Hc2, Hc1. split.
    + intros [[[[?|(src & tgt & Hcur & Hne & -> & ->)]|Hf]|(x & Hx & Hxr)]
             |(x & Hx & Hxr)]; [by left|right..].
      * exists src, tgt, args, keywords. rewrite Hcur.
        split; [done|]. split; [done|]. constructor.
      * destruct Hf as (src & tgt & a & k & -> & Hne & Hs).
        exists src, tgt, a, k. split; [done|]. split; [done|].
        by apply sitio_func.
      * destruct Hxr as (src & tgt & a & k & -> & Hne & Hs).
        exists src, tgt, a, k. split; [done|]. split; [done|].
        by eapply sitio_arg.
      * destruct Hxr as (src & tgt & a & k & -> & Hne & Hs).
        exists src, tgt, a, k. split; [done|]. split; [done|].
        by eapply sitio_keyword.
    + intros [?|(src & tgt & a & k & -> & Hne & Hs)]; [by repeat left|].
      inversion Hs; subst.
      * left. left. left. right. by exists src, tgt.
      * left. left. right. by exists src, tgt, a, k.
      * left. right. eexists. split; [eassumption|]. by exists src, tgt, a, k.
      * right. eexists. split; [eassumption|]. by exists src, tgt, a, k.
  - simpl.
    destruct (foldl_visit_ok children
                {| current_function := Some name; calls := calls st |} IH)
      as [Hc Hr].
    split; [done|]. intros r. simpl. rewrite Hr. simpl. split.
    + intros [?|(x & Hx & src & tgt & a & k & -> & Hne & Hs)]; [by left|right].
      exists src, tgt, a, k. split; [done|]. split; [done|].
      by eapply sitio_def.
    + intros [?|(src & tgt & a & k & -> & Hne & Hs)]; [by left|right].
      inversion Hs; subst. eexists. split; [eassumption|].
      by exists src, tgt, a, k.
  - simpl. destruct (foldl_visit_ok children st IH) as [Hc Hr].
    split; [done|]. intros r. rewrite Hr. split.
    + intros [?|(x & Hx & src & tgt & a & k & -> & Hne & Hs)]; [by left|right].
      exists src, tgt, a, k. split; [done|]. split; [done|].
      by eapply sitio_other.
    + intros [?|(src & tgt & a & k & -> & Hne & Hs)]; [by left|right].
      inversion Hs; subst. eexists. split; [eassumption|].
      by exists src, tgt, a, k.
Qed.

(** The records of a whole tree. *)
Lemma calls_spec tree r :
  r ∈ calls (visit dump tree CouplingVisitor_init)
  ↔ registro_de dump None tree r.
Proof.
  destruct (visit_ok tree CouplingVisitor_init) as [_ Hr]. rewrite Hr. simpl.
  split; [intros [H|?]; [by apply elem_of_nil in H|done]|by right].
Qed.
End Visitor.

(** ** The elementary couplings of [analisador_coupling_briand.py] *)

Section Briand.
Import Ast Briand.

Lemma contar_args m args d :
  default 0 (foldl (λ (m : gmap string Z) name,
                      <[name := default 0 (m !! name) + 1]> m) m args !! d)
  = default 0 (m !! d) + Z.of_nat (length (filter (λ x, x = d) args)).
Proof.
  revert m. induction args as [|x l IH]; intros m; simpl; [lia|].
  rewrite IH. rewrite filter_cons.
  destruct (decide (x = d)) as [->|Hne].
  - rewrite lookup_insert_eq. simpl. lia.
  - by rewrite lookup_insert_ne.
Qed.

Lemma contar_chamadas m cs d :
  default 0 (foldl (λ (m : gmap string Z) '(_, _, args),
                      foldl (λ (m : gmap string Z) name,
                               <[name := default 0 (m !! name) + 1]> m) m args)
               m cs !! d)
  = default 0 (m !! d) + Z.of_nat (ocorrencias d cs).
Proof.
  revert m. unfold ocorrencias.
  induction cs as [|[[src tgt] args] l IH]; intros m; [simpl; lia|].
  cbn [foldl]. rewrite IH, contar_args, bind_cons, filter_app, length_app.
  cbn [snd]. lia.
Qed.

(** [N[d]] counts the occurrences of [d] among all arguments. *)
Lemma contar_usos_spec cs d :
  default 0 (contar_usos cs !! d) = Z.of_nat (ocorrencias d cs).
Proof. unfold contar_usos. by rewrite contar_chamadas, lookup_empty. Qed.

Lemma ocorrencias_app d l1 l2 :
  ocorrencias d (l1 ++ l2) = (ocorrencias d l1 + ocorrencias d l2)%nat.
Proof.
  unfold ocorrencias. by rewrite bind_app, filter_app, length_app.
Qed.

Lemma ocorrencias_0 d (cs : list (string * string * list string)) :
  (∀ r, r ∈ cs → d ∉ r.2) → ocorrencias d cs = 0%nat.
Proof.
  unfold ocorrencias. induction cs as [|r l IH]; intros H; [done|].
  rewrite bind_cons, filter_app, length_app, IH by (intros; apply H; set_solver).
  assert (Hr : d ∉ r.2) by (apply H; set_solver).
  rewrite Nat.add_0_r. clear -Hr.
  induction (r.2) as [|x a IHa]; [done|].
  rewrite filter_cons. destruct (decide (x = d)) as [->|]; [set_solver|].
  apply IHa. set_solver.
Qed.

Lemma criar_ecs_args cnt src tgt el args :
  foldl (λ el d, el ++ [ec_de cnt src tgt d]) el args
  = el ++ (ec_de cnt src tgt <$> args).
Proof.
  revert el. induction args as [|x l IH]; intros el; simpl.
  - by rewrite app_nil_r.
  - by rewrite IH, <- app_assoc.
Qed.

(** The second loop appends, call by call, one coupling per argument. *)
Lemma criar_ecs_spec cnt el cs :
  criar_ecs cnt el cs
  = el ++ (cs ≫= (λ r, ec_de cnt r.1.1 r.1.2 <$> r.2)).
Proof.
  unfold criar_ecs. revert el.
  induction cs as [|[[src tgt] args] l IH]; intros el; simpl.
  - by rewrite app_nil_r.
  - rewrite criar_ecs_args, IH, <- app_assoc. done.
Qed.

(** [aggregate_by_module] groups the couplings by their source. *)
Lemma aggregate_by_module_spec el key :
  aggregate_by_module el !! key
  = match filter (λ ec, source ec = key) el with
    | [] => None
    | l => Some {| element := key; elementary := l |}
    end.
Proof.
  unfold aggregate_by_module.
  induction el as [|ec el IH] using rev_ind; [done|].
  rewrite foldl_app, filter_app. simpl.
  destruct (decide (source ec = key)) as [<-|Hne].
  - rewrite lookup_insert_eq, IH, filter_cons_True by done.
    destruct (filter _ el) as [|e0 l0]; simpl.
    + first [done | by rewrite decide_True].
    + destruct (decide (source ec = "")) as [->|]; done.
  - rewrite lookup_insert_ne, IH, filter_cons_False by done.
    by rewrite app_nil_r.
Qed.
End Briand.

Lemma filter_nenhum {A} (P : A → Prop) `{∀ x, Decision (P x)} (l : list A) :
  (∀ x, x ∈ l → ¬ P x) → filter P l = [].
Proof.
  induction l as [|x l IH]; intros Hl; [done|].
  rewrite filter_cons_False by (apply Hl; left).
  apply IH. intros y Hy. apply Hl. by right.
Qed.

Section BriandClaims.
Import Ast Briand.
Variable dump : node → string.

Lemma elem_of_criar_ecs cnt cs ec :
  ec ∈ criar_ecs cnt [] cs →
  ∃ src tgt args d,
    (src, tgt, args) ∈ cs ∧ d ∈ args ∧ ec = ec_de cnt src tgt d.
Proof.
  rewrite criar_ecs_spec, app_nil_l, list_elem_of_bind.
  intros ([[src tgt] args] & Hec & Hr). simpl in Hec.
  apply list_elem_of_fmap in Hec as (d & -> & Hd). by exists src, tgt, args, d.
Qed.

Lemma ocorrencias_pos d (cs : list (string * string * list string)) :
  (0 < ocorrencias d cs)%nat → ∃ r, r ∈ cs ∧ d ∈ r.2.
Proof.
  unfold ocorrencias. intros Hpos.
  destruct (filter (λ x, x = d) (cs ≫= snd)) as [|x l] eqn:Hf; [simpl in Hpos; lia|].
  assert (Hx : x ∈ filter (λ x, x = d) (cs ≫= snd)) by (rewrite Hf; left).
  apply list_elem_of_filter in Hx as [-> Hx].
  apply list_elem_of_bind in Hx as (r & Hd & Hr). by exists r.
Qed.

Lemma registrar_nada st func args :
  current_function st = None ∨ (∀ id, func ≠ Name id) →
  registrar dump st func args = st.
Proof.
  unfold registrar. intros [->|Hf]; [done|].
  destruct (current_function st); [|done].
  destruct func as [id| | | |]; try done. by destruct (Hf id).
Qed.
End BriandClaims.

(** C10: the analyser records exactly the call sites that lie inside a
    function definition and whose callee is a bare name.  A call at module
    level or through an attribute adds no record of its own; every
    elementary coupling, every counted datum and every function with a
    coupling score comes from a recorded call site. *)
Theorem C10_registros_so_em_funcoes (dump : Ast.node → string) (tree : Ast.node) :
  let visitor := Briand.visit dump tree Briand.CouplingVisitor_init in
  let elementary := Briand.analyze_source dump [] tree in
  (∀ src tgt nomes,
     (src, tgt, nomes) ∈ Briand.calls visitor
     ↔ ∃ args keywords,
         nomes = Briand.arg_name dump <$> args ∧ src ≠ ""
         ∧ Briand.sitio None tree (Some src)
             (Ast.Call (Ast.Name tgt) args keywords))
  ∧ (∀ st func args keywords,
       Briand.current_function st = None ∨ (∀ id, func ≠ Ast.Name id) →
       Briand.visit dump (Ast.Call func args keywords) st
       = foldl (λ s c, Briand.visit dump c s)
           (foldl (λ s c, Briand.visit dump c s) (Briand.visit dump func st) args)
           keywords)
  ∧ (∀ ec, ec ∈ elementary →
       ∃ args keywords,
         Briand.source ec ≠ ""
         ∧ Briand.data_name ec ∈ Briand.arg_name dump <$> args
         ∧ Briand.sitio None tree (Some (Briand.source ec))
             (Ast.Call (Ast.Name (Briand.target ec)) args keywords))
  ∧ (∀ d, 0 < default 0 (Briand.contar_usos (Briand.calls visitor) !! d) →
       ∃ src tgt args keywords,
         src ≠ "" ∧ d ∈ Briand.arg_name dump <$> args
         ∧ Briand.sitio None tree (Some src)
             (Ast.Call (Ast.Name tgt) args keywords))
  ∧ (∀ m mc, Briand.aggregate_by_module elementary !! m = Some mc →
       ∃ tgt args keywords,
         m ≠ ""
         ∧ Briand.sitio None tree (Some m)
             (Ast.Call (Ast.Name tgt) args keywords)).
Proof.
  intros visitor elementary.
  assert (Hcalls : ∀ src tgt nomes,
     (src, tgt, nomes) ∈ Briand.calls visitor
     ↔ ∃ args keywords,
         nomes = Briand.arg_name dump <$> args ∧ src ≠ ""
         ∧ Briand.sitio None tree (Some src)
             (Ast.Call (Ast.Name tgt) args keywords)).
  { intros src tgt nomes. subst visitor. rewrite calls_spec.
    unfold Briand.registro_de. split.
    - intros (s & t & a & k & [= -> -> ->] & Hne & Hs). by exists a, k.
    - intros (a & k & -> & Hne & Hs). by exists src, tgt, a, k. }
  assert (Hecs : ∀ ec, ec ∈ elementary →
       ∃ args keywords,
         Briand.source ec ≠ ""
         ∧ Briand.data_name ec ∈ Briand.arg_name dump <$> args
         ∧ Briand.sitio None tree (Some (Briand.source ec))
             (Ast.Call (Ast.Name (Briand.target ec)) args keywords)).
  { intros ec Hec. subst elementary. unfold Briand.analyze_source in Hec.
    apply elem_of_criar_ecs in Hec as (src & tgt & nomes & d & Hr & Hd & ->).
    apply Hcalls in Hr as (a & k & -> & Hne & Hs). by exists a, k. }
  split; [exact Hcalls|]. split; [|split; [exact Hecs|split]].
  - intros st func args keywords Hn. simpl. by rewrite registrar_nada.
  - intros d Hd. rewrite contar_usos_spec in Hd.
    destruct (ocorrencias_pos d (Briand.calls visitor)) as ([[src tgt] nomes] & Hr & Hin);
      [lia|].
    apply Hcalls in Hr as (a & k & -> & Hne & Hs). by exists src, tgt, a, k.
  - intros m mc Hm. rewrite aggregate_by_module_spec in Hm.
    destruct (filter (λ ec, Briand.source ec = m) elementary) as [|ec l] eqn:Hf;
      [done|].
    assert (Hec : ec ∈ filter (λ ec, Briand.source ec = m) elementary)
      by (rewrite Hf; left).
    apply list_elem_of_filter in Hec as [<- Hec].
    destruct (Hecs ec Hec) as (a & k & Hne & _ & Hs). by exists (Briand.target ec), a, k.
Qed.

(** A module-level call and a method call leave the analyser empty. *)
Lemma arvore_sem_registros_vazia :
  Briand.calls (Briand.visit Cenarios.dump_texto Cenarios.arvore_sem_registros
                  Briand.CouplingVisitor_init) = []
  ∧ Briand.analyze_source Cenarios.dump_texto [] Cenarios.arvore_sem_registros = [].
Proof. split; reflexivity. Qed.

(** C8: when the only call recorded for [mmc] is [mdc(a, b)] and no other
    recorded call passes [a] or [b], then [N[a] = N[b] = 1], the two
    elementary couplings have value 1 with [C = PC = 1], [MC(mmc) = 2],
    and the score of [mdc] holds no coupling in which it is the callee. *)
Theorem C8_mdc_mmc (dump : Ast.node → string) (tree : Ast.node) pre post :
  let visitor := Briand.visit dump tree Briand.CouplingVisitor_init in
  let elementary := Briand.analyze_source dump [] tree in
  let results := Briand.aggregate_by_module elementary in
  Briand.calls visitor = pre ++ [("mmc", "mdc", ["a"; "b"])] ++ post →
  (∀ r, r ∈ pre ++ post → r.1.1 ≠ "mmc" ∧ ("a" ∉ r.2) ∧ ("b" ∉ r.2)) →
  Briand.contar_usos (Briand.calls visitor) !! "a" = Some 1
  ∧ Briand.contar_usos (Briand.calls visitor) !! "b" = Some 1
  ∧ (∀ ec, ec ∈ elementary →
       Briand.data_name ec = "a" ∨ Briand.data_name ec = "b" →
       Briand.source ec = "mmc" ∧ Briand.target ec = "mdc"
       ∧ Briand.C ec = 1%R ∧ Briand.PC ec = 1%R ∧ Briand.N ec = 1%R
       ∧ Briand.value ec = 1%R)
  ∧ (∃ mc eca ecb,
       results !! "mmc" = Some mc
       ∧ Briand.elementary mc = [eca; ecb]
       ∧ Briand.data_name eca = "a" ∧ Briand.data_name ecb = "b"
       ∧ Briand.total_coupling mc = 2%R)
  ∧ (∀ mc ec, results !! "mdc" = Some mc → ec ∈ Briand.elementary mc →
       Briand.source ec = "mdc").
Proof.
  intros visitor elementary results Hcalls Houtros.
  set (cnt := Briand.contar_usos (Briand.calls visitor)).
  assert (Hpre : ∀ r, r ∈ pre → r.1.1 ≠ "mmc" ∧ ("a" ∉ r.2) ∧ ("b" ∉ r.2))
    by (intros; apply Houtros; set_solver).
  assert (Hpost : ∀ r, r ∈ post → r.1.1 ≠ "mmc" ∧ ("a" ∉ r.2) ∧ ("b" ∉ r.2))
    by (intros; apply Houtros; set_solver).
  assert (Hn : ∀ d, d = "a" ∨ d = "b" → default 0 (cnt !! d) = 1).
  { intros d Hd. subst cnt. rewrite contar_usos_spec, Hcalls, !ocorrencias_app.
    rewrite (ocorrencias_0 d pre), (ocorrencias_0 d post).
    - destruct Hd as [-> | ->]; reflexivity.
    - intros r Hr. destruct (Hpost r Hr) as (_ & ? & ?). by destruct Hd as [-> | ->].
    - intros r Hr. destruct (Hpre r Hr) as (_ & ? & ?). by destruct Hd as [-> | ->]. }
  assert (Hsome : ∀ d, d = "a" ∨ d = "b" → cnt !! d = Some 1).
  { intros d Hd. specialize (Hn d Hd). destruct (cnt !! d); simpl in Hn; [by subst|done]. }
  assert (Hel : elementary
    = (pre ≫= (λ r, Briand.ec_de cnt r.1.1 r.1.2 <$> r.2))
      ++ [Briand.ec_de cnt "mmc" "mdc" "a"; Briand.ec_de cnt "mmc" "mdc" "b"]
      ++ (post ≫= (λ r, Briand.ec_de cnt r.1.1 r.1.2 <$> r.2))).
  { subst elementary. unfold Briand.analyze_source. fold visitor. fold cnt.
    rewrite criar_ecs_spec, app_nil_l, Hcalls, !bind_app. done. }
  assert (Hfora : ∀ l : list (string * string * list string), (∀ r, r ∈ l → r.1.1 ≠ "mmc" ∧ ("a" ∉ r.2) ∧ ("b" ∉ r.2)) →
     ∀ ec, ec ∈ (l ≫= (λ r, Briand.ec_de cnt r.1.1 r.1.2 <$> r.2)) →
     Briand.source ec ≠ "mmc" ∧ Briand.data_name ec ≠ "a"
     ∧ Briand.data_name ec ≠ "b").
  { intros l Hl ec Hec. apply list_elem_of_bind in Hec as (r & Hec & Hr).
    apply list_elem_of_fmap in Hec as (d & -> & Hd). simpl.
    destruct (Hl r Hr) as (? & ? & ?). split; [done|]. split; by intros ->. }
  split; [by apply Hsome; left|]. split; [by apply Hsome; right|].
  assert (Hva : ∀ d, d = "a" ∨ d = "b" →
     Briand.N (Briand.ec_de cnt "mmc" "mdc" d) = 1%R
     ∧ Briand.value (Briand.ec_de cnt "mmc" "mdc" d) = 1%R).
  { intros d Hd. simpl. rewrite (Hn d Hd). split; [done|]. lra. }
  split; [|split].
  - intros ec Hec Hd. rewrite Hel, !elem_of_app in Hec.
    destruct Hec as [Hec|[Hec|Hec]].
    + destruct (Hfora pre Hpre ec Hec) as (_ & ? & ?). by destruct Hd.
    + apply elem_of_cons in Hec as [->|Hec];
        [|apply elem_of_cons in Hec as [->|Hec]; [|by apply elem_of_nil in Hec]].
      * destruct (Hva "a") as [? ?]; [by left|]. by repeat split.
      * destruct (Hva "b") as [? ?]; [by right|]. by repeat split.
    + destruct (Hfora post Hpost ec Hec) as (_ & ? & ?). by destruct Hd.
  - exists {| Briand.element := "mmc";
              Briand.elementary := [Briand.ec_de cnt "mmc" "mdc" "a";
                                    Briand.ec_de cnt "mmc" "mdc" "b"] |},
      (Briand.ec_de cnt "mmc" "mdc" "a"), (Briand.ec_de cnt "mmc" "mdc" "b").
    split; [|split; [done|split; [done|split; [done|]]]].
    + subst results. rewrite aggregate_by_module_spec, Hel, !filter_app.
      rewrite (filter_nenhum (λ ec, Briand.source ec = "mmc")
                 (pre ≫= (λ r, Briand.ec_de cnt r.1.1 r.1.2 <$> r.2)))
        by (intros ec Hec; by destruct (Hfora pre Hpre ec Hec) as (? & _)).
      rewrite (filter_nenhum (λ ec, Briand.source ec = "mmc")
                 (post ≫= (λ r, Briand.ec_de cnt r.1.1 r.1.2 <$> r.2)))
        by (intros ec Hec; by destruct (Hfora post Hpost ec Hec) as (? & _)).
      reflexivity.
    + unfold Briand.total_coupling. simpl.
      rewrite (Hn "a"), (Hn "b") by auto. lra.
  - intros mc ec Hmc Hec. subst results.
    rewrite aggregate_by_module_spec in Hmc.
    destruct (filter _ elementary) as [|e0 l0] eqn:Hf; [done|].
    injection Hmc as <-. simpl in Hec. rewrite <- Hf in Hec.
    by apply list_elem_of_filter in Hec as [? _].
Qed.

Lemma C8_mdc_mmc_witness :
  let visitor := Briand.visit Cenarios.dump_texto Cenarios.arvore_mdc_mmc
                   Briand.CouplingVisitor_init in
  let elementary :=
    Briand.analyze_source Cenarios.dump_texto [] Cenarios.arvore_mdc_mmc in
  let results := Briand.aggregate_by_module elementary in
  Briand.contar_usos (Briand.calls visitor) !! "a" = Some 1
  ∧ Briand.contar_usos (Briand.calls visitor) !! "b" = Some 1
  ∧ (∀ ec, ec ∈ elementary →
       Briand.data_name ec = "a" ∨ Briand.data_name ec = "b" →
       Briand.source ec = "mmc" ∧ Briand.target ec = "mdc"
       ∧ Briand.C ec = 1%R ∧ Briand.PC ec = 1%R ∧ Briand.N ec = 1%R
       ∧ Briand.value ec = 1%R)
  ∧ (∃ mc eca ecb,
       results !! "mmc" = Some mc
       ∧ Briand.elementary mc = [eca; ecb]
       ∧ Briand.data_name eca = "a" ∧ Briand.data_name ecb = "b"
       ∧ Briand.total_coupling mc = 2%R)
  ∧ (∀ mc ec, results !! "mdc" = Some mc → ec ∈ Briand.elementary mc →
       Briand.source ec = "mdc").
Proof.
  apply (C8_mdc_mmc Cenarios.dump_texto Cenarios.arvore_mdc_mmc [] []).
  - reflexivity.
  - intros r Hr. by apply elem_of_nil in Hr.
Defined.

(** ** The VRM aggregates of [analisador_dou.py] *)

Section DouVrm.
Import Dou.

Lemma foldl_passo_mc mcs l m0 var :
  foldl (passo_mc mcs) m0 l !! var
  = if decide (var ∈ l) then Some (default 1%R (mcs !! var)) else m0 !! var.
Proof.
  revert m0. induction l as [|x l IH]; intros m0.
  - destruct (decide (var ∈ [])) as [H|_]; [by apply elem_of_nil in H|done].
  - cbn [foldl]. rewrite IH. unfold passo_mc.
    destruct (decide (var ∈ l)) as [Hin|Hin];
      destruct (decide (var ∈ x :: l)) as [Hin'|Hin']; try done.
    + exfalso. apply Hin'. by right.
    + apply elem_of_cons in Hin' as [->|?]; [|done]. by rewrite lookup_insert_eq.
    + rewrite lookup_insert_ne; [done|]. intros ->. apply Hin'. left.
Qed.

Lemma foldl_passo_sc desvio (f : string → R) l m0 var :
  foldl (passo_sc desvio) m0 (zip (f <$> l) l) !! var
  = if decide (var ∈ l) then Some (f var + desvio)%R else m0 !! var.
Proof.
  revert m0. induction l as [|x l IH]; intros m0.
  - destruct (decide (var ∈ [])) as [H|_]; [by apply elem_of_nil in H|done].
  - change (foldl (passo_sc desvio) m0 (zip (f <$> x :: l) (x :: l)))
      with (foldl (passo_sc desvio) (passo_sc desvio m0 (f x, x))
              (zip (f <$> l) l)).
    rewrite IH. unfold passo_sc.
    destruct (decide (var ∈ l)) as [Hin|Hin];
      destruct (decide (var ∈ x :: l)) as [Hin'|Hin']; try done.
    + exfalso. apply Hin'. by right.
    + apply elem_of_cons in Hin' as [->|?]; [|done]. by rewrite lookup_insert_eq.
    + rewrite lookup_insert_ne; [done|]. intros ->. apply Hin'. left.
Qed.

Lemma foldl_passo_vrm d c (fm fs fh : string → R) l a0 :
  (∀ var, var ∈ l →
     mc_values c !! var = Some (fm var)
     ∧ sc_values c !! var = Some (fs var)
     ∧ hc_values c !! var = Some (fh var)) →
  ∃ a, foldl (passo_vrm d c) (ret a0) l = inr a
       ∧ acoplamento_total a
         = (acoplamento_total a0
            + soma_R ((λ var, fm var + fs var + fh var) <$> l))%R
       ∧ sc_total a = (sc_total a0 + soma_R (fs <$> l))%R
       ∧ hc_total a = (hc_total a0 + soma_R (fh <$> l))%R
       ∧ length (itens a) = (length (itens a0) + length l)%nat.
Proof.
  revert a0. induction l as [|x l IH]; intros a0 Hl.
  - exists a0. simpl. repeat split; first [lra | lia | done].
  - destruct (Hl x) as (Hm & Hs & Hh); [left|].
    cbn [foldl]. unfold passo_vrm at 2. unfold dict_get.
    rewrite Hm, Hs, Hh. simpl bind.
    destruct (IH {| acoplamento_total :=
                      (acoplamento_total a0 + (fm x + fs x + fh x))%R;
                    sc_total := (sc_total a0 + fs x)%R;
                    hc_total := (hc_total a0 + fh x)%R;
                    itens := itens a0 ++
                      [ {| variavel := x; xi := frequencia d x;
                           mc := fm x; sc := fs x; hc := fh x;
                           acoplamento := (fm x + fs x + fh x)%R |} ] |})
      as (a & Ha & Ht & Hsc & Hhc & Hlen); [intros; apply Hl; by right|].
    exists a. split; [exact Ha|]. rewrite Ht, Hsc, Hhc, Hlen.
    cbn [acoplamento_total sc_total hc_total itens].
    rewrite !fmap_cons, length_app. unfold soma_R. cbn [foldr length].
    repeat split; first [lra | lia].
Qed.

(** When [_calcular_coeficientes] has returned on a non-empty dictionary,
    [AnalisadorDou] returns: [MC] is the manual coefficient or 1, [SC] is
    [X_i] plus the deviation of the population, [HC] follows the depth,
    and the aggregates are the sums and means of [MC + SC + HC]. *)
Lemma AnalisadorDou_spec_de d mcs deps fila0 c :
  d ≠ [] →
  _calcular_coeficientes d mcs deps fila0 = inr c →
  ∃ v,
    AnalisadorDou d mcs deps fila0 = inr (c, v)
    ∧ (∀ var, var ∈ keys d →
         mc_values c !! var = Some (default 1%R (mcs !! var))
         ∧ sc_values c !! var = Some (IZR (frequencia d var) + desvio_de d)%R
         ∧ ∃ dep_i,
             _calcular_profundidades_arvore (keys d) deps fila0 !! var
               = Some dep_i
             ∧ hc_values c !! var = Some (hc_de_profundidade dep_i))
    ∧ C_vrm v
      = soma_R ((λ var, default 1%R (mcs !! var)
                        + (IZR (frequencia d var) + desvio_de d)
                        + default 0%R (hc_values c !! var))%R <$> keys d)
    ∧ C_medio v = (C_vrm v / INR (length d))%R
    ∧ HC_medio v
      = (soma_R ((λ var, default 0%R (hc_values c !! var)) <$> keys d)
         / INR (length d))%R
    ∧ SC_medio v
      = (soma_R ((λ var, IZR (frequencia d var) + desvio_de d)%R <$> keys d)
         / INR (length d))%R
    ∧ length (detalhado v) = length d.
Proof.
  intros Hd Hc.
  assert (Hcoef : ∀ var, var ∈ keys d →
         mc_values c !! var = Some (default 1%R (mcs !! var))
         ∧ sc_values c !! var = Some (IZR (frequencia d var) + desvio_de d)%R
         ∧ ∃ dep_i,
             _calcular_profundidades_arvore (keys d) deps fila0 !! var
               = Some dep_i
             ∧ hc_values c !! var = Some (hc_de_profundidade dep_i)).
  { intros var Hvar.
    pose proof (_calcular_coeficientes_hc _ _ _ _ _ _ Hc Hvar) as Hhc.
    unfold _calcular_coeficientes in Hc. destruct (decide _); [done|].
    apply bind_inr in Hc as (m & Hm & Hc). injection Hc as <-. simpl.
    rewrite foldl_passo_mc, decide_True by done.
    unfold desvio_de.
    rewrite (foldl_passo_sc _ (λ var, IZR (frequencia d var))), decide_True by done.
    done. }
  assert (Hn : length (keys d) = length d) by (unfold keys; by rewrite length_fmap).
  destruct (foldl_passo_vrm d c
              (λ var, default 1%R (mcs !! var))
              (λ var, (IZR (frequencia d var) + desvio_de d)%R)
              (λ var, default 0%R (hc_values c !! var))
              (keys d) acumulador_inicial)
    as (a & Ha & Ht & Hsc & Hhc & Hlen).
  { intros var Hvar. destruct (Hcoef var Hvar) as (Hm & Hs & dep & _ & Hh).
    rewrite Hm, Hs, Hh. done. }
  assert (Hne : length (keys d) ≠ 0%nat) by (rewrite Hn; by destruct d).
  eexists. split.
  { unfold AnalisadorDou. rewrite Hc. simpl.
    unfold _calcular_acoplamento_vrm. rewrite Ha. simpl.
    rewrite decide_False by done. reflexivity. }
  split; [exact Hcoef|]. simpl in *.
  rewrite !decide_True by lia. rewrite Ht, Hsc, Hhc, Hlen, Hn.
  repeat split; first [lra | lia | f_equal; lra].
Qed.

(** What a return of [AnalisadorDou] tells: the dictionary is not empty
    and [_calcular_coeficientes] has returned the coefficients. *)
Lemma AnalisadorDou_inr d mcs deps fila0 c v :
  AnalisadorDou d mcs deps fila0 = inr (c, v) →
  d ≠ [] ∧ _calcular_coeficientes d mcs deps fila0 = inr c.
Proof.
  intros H. split; [by intros ->|].
  unfold AnalisadorDou in H. apply bind_inr in H as (c' & Hc & H).
  apply bind_inr in H as (v' & _ & H). by injection H as -> _.
Qed.

(** When [AnalisadorDou] raises on a non-empty dictionary, the exception
    is [OverflowError] and some variable has a depth of 1025 or more. *)
Lemma AnalisadorDou_inl d mcs deps fila0 e :
  d ≠ [] →
  AnalisadorDou d mcs deps fila0 = inl e →
  e = OverflowError
  ∧ ∃ var dep_i,
      var ∈ keys d
      ∧ _calcular_profundidades_arvore (keys d) deps fila0 !! var = Some dep_i
      ∧ 1025 ≤ dep_i.
Proof.
  intros Hd He.
  destruct (_calcular_coeficientes d mcs deps fila0) as [e'|c] eqn:Hc.
  - assert (e' = e) as ->.
    { unfold AnalisadorDou in He. rewrite Hc in He. simpl in He.
      by injection He. }
    unfold _calcular_coeficientes in Hc.
    destruct (decide _) as [Hnil|_].
    { apply fmap_nil_inv in Hnil. unfold keys in Hnil.
      by apply fmap_nil_inv in Hnil. }
    destruct (foldl (passo_hc _) (ret ∅) (keys d)) as [e'|m] eqn:Hm; [|done].
    simpl in Hc. injection Hc as ->.
    apply (foldl_passo_hc_inl _ _ _ _) in Hm; [done|].
    intros var Hvar.
    destruct (profundidade_definida (keys d) deps fila0 var Hvar) as [dep Hdep].
    exists dep. split; [done|].
    by apply (profundidade_nao_negativa (keys d) deps fila0 var).
  - destruct (AnalisadorDou_spec_de d mcs deps fila0 c Hd Hc) as (v & Hv & _).
    rewrite Hv in He. discriminate He.
Qed.

(** On a non-empty dictionary of at most 1024 variables, and a queue that
    starts with the roots, [AnalisadorDou] returns. *)
Lemma AnalisadorDou_spec d mcs deps fila0 :
  d ≠ [] → (length d ≤ 1024)%nat →
  fila0 ≡ₚ elements (nos_raiz (keys d) deps) →
  ∃ c v,
    AnalisadorDou d mcs deps fila0 = inr (c, v)
    ∧ (∀ var, var ∈ keys d →
         mc_values c !! var = Some (default 1%R (mcs !! var))
         ∧ sc_values c !! var = Some (IZR (frequencia d var) + desvio_de d)%R
         ∧ ∃ dep_i,
             _calcular_profundidades_arvore (keys d) deps fila0 !! var
               = Some dep_i
             ∧ hc_values c !! var = Some (hc_de_profundidade dep_i))
    ∧ C_vrm v
      = soma_R ((λ var, default 1%R (mcs !! var)
                        + (IZR (frequencia d var) + desvio_de d)
                        + default 0%R (hc_values c !! var))%R <$> keys d)
    ∧ C_medio v = (C_vrm v / INR (length d))%R
    ∧ HC_medio v
      = (soma_R ((λ var, default 0%R (hc_values c !! var)) <$> keys d)
         / INR (length d))%R
    ∧ SC_medio v
      = (soma_R ((λ var, IZR (frequencia d var) + desvio_de d)%R <$> keys d)
         / INR (length d))%R
    ∧ length (detalhado v) = length d.
Proof.
  intros Hd Hn Hp.
  destruct (_calcular_coeficientes_ok d mcs deps fila0 Hd Hn Hp) as [c Hc].
  exists c. by apply AnalisadorDou_spec_de.
Qed.

(** Without variables the statistics print raises, and so would the
    unguarded mean [acoplamento_total / self.n]. *)
Lemma AnalisadorDou_vazio mcs deps fila0 c :
  AnalisadorDou [] mcs deps fila0 = inl ValueError
  ∧ _calcular_acoplamento_vrm [] c = inl ZeroDivisionError.
Proof. split; reflexivity. Qed.

Lemma soma_R_limite (f : string → R) (k : R) l :
  (∀ x, x ∈ l → k <= f x)%R → (k * INR (length l) <= soma_R (f <$> l))%R.
Proof.
  induction l as [|x l IH]; intros Hl.
  - simpl. lra.
  - rewrite fmap_cons. cbn [length]. rewrite S_INR.
    change (soma_R (f x :: (f <$> l))) with (f x + soma_R (f <$> l))%R.
    assert (k <= f x)%R by (apply Hl; left).
    assert (k * INR (length l) <= soma_R (f <$> l))%R
      by (apply IH; intros; apply Hl; by right).
    lra.
Qed.

Lemma desvio_padrao_nao_negativo l : (0 <= desvio_padrao l)%R.
Proof.
  unfold desvio_padrao. destruct (decide _); [apply sqrt_pos|lra].
Qed.

Lemma frequencia_elem d var :
  var ∈ keys d → ∃ x, (var, x) ∈ d ∧ frequencia d var = x.
Proof.
  unfold keys, frequencia. intros Hvar.
  apply list_elem_of_fmap in Hvar as ([k x] & -> & Hkx). simpl.
  destruct (list_find (λ kv, kv.1 = k) d) as [[i [k' x']]|] eqn:Hf.
  - apply list_find_Some in Hf as (Hi & Hk & _). simpl in Hk. subst k'.
    exists x'. split; [by eapply list_elem_of_lookup_2|done].
  - exfalso. apply list_find_None in Hf.
    rewrite Forall_forall in Hf. by apply (Hf (k, x)).
Qed.

End DouVrm.

(** ** Empty inputs *)









(** ** The call sets of [extrator_codigo.py] *)

Section Chamadas.
Import Ast Extrator.

Lemma adicionar_spec (ch : gmap string (gset string)) f g f' g' :
  g' ∈ default ∅ (adicionar ch f g !! f')
  ↔ g' ∈ default ∅ (ch !! f') ∨ (f' = f ∧ g' = g).
Proof.
  unfold adicionar. destruct (decide (f = f')) as [->|Hne].
  - rewrite lookup_insert_eq. simpl. rewrite elem_of_union, elem_of_singleton.
    naive_solver.
  - rewrite lookup_insert_ne by done. naive_solver.
Qed.

Lemma foldl_alvos_spec nm f alvos (ch : gmap string (gset string)) f' g' :
  g' ∈ default ∅
         (foldl (λ chamadas nome_alvo,
                   if casa nm nome_alvo then
                     if decide (nome_alvo ≠ f)
                     then adicionar chamadas f nome_alvo
                     else chamadas
                   else chamadas) ch alvos !! f')
  ↔ g' ∈ default ∅ (ch !! f')
    ∨ (f' = f ∧ g' ∈ alvos ∧ g' ≠ f ∧ casa nm g' = true).
Proof.
  revert ch. induction alvos as [|a l IH]; intros ch.
  - simpl. split; [by left|]. intros [?|(_ & H & _)]; [done|].
    by apply elem_of_nil in H.
  - cbn [foldl]. rewrite IH, elem_of_cons.
    destruct (casa nm a) eqn:Hc; [destruct (decide (a ≠ f)) as [Hne|He]|].
    + rewrite adicionar_spec. naive_solver.
    + naive_solver.
    + split; [naive_solver|].
      intros [?|(-> & [->|?] & ? & Hc')]; [by left|congruence|right; done].
Qed.

Lemma registrar_chamada_spec alvos f (ch : gmap string (gset string)) n f' g' :
  g' ∈ default ∅ (registrar_chamada alvos f ch n !! f')
  ↔ g' ∈ default ∅ (ch !! f')
    ∨ (f' = f ∧ g' ∈ alvos ∧ g' ≠ f
       ∧ ∃ nm, _extrair_nome_chamada n = Some nm ∧ nm ≠ ""
               ∧ casa nm g' = true).
Proof.
  unfold registrar_chamada.
  destruct n as [id|v a|func args kws|name ch'|ch'];
    try (split; [by left|]; intros [?|(_ & _ & _ & nm & Hn & _)];
         [done|discriminate Hn]).
  destruct (_extrair_nome_chamada (Call func args kws)) as [nm|] eqn:Hnm.
  2:{ split; [by left|]. intros [?|(_ & _ & _ & nm & Hn & _)];
        [done|discriminate Hn]. }
  destruct (decide (nm = "")) as [->|Hne].
  { split; [by left|]. intros [?|(_ & _ & _ & nm & [= <-] & ? & _)]; done. }
  rewrite foldl_alvos_spec. split.
  - intros [?|(? & ? & ? & ?)]; [by left|right]. repeat split; try done.
    by exists nm.
  - intros [?|(? & ? & ? & nm' & [= <-] & ? & ?)]; [by left|by right].
Qed.

Lemma foldl_registrar_spec alvos f nodes (ch : gmap string (gset string)) f' g' :
  g' ∈ default ∅ (foldl (registrar_chamada alvos f) ch nodes !! f')
  ↔ g' ∈ default ∅ (ch !! f')
    ∨ (f' = f ∧ g' ∈ alvos ∧ g' ≠ f
       ∧ ∃ n nm, n ∈ nodes ∧ _extrair_nome_chamada n = Some nm ∧ nm ≠ ""
                 ∧ casa nm g' = true).
Proof.
  revert ch. induction nodes as [|n l IH]; intros ch.
  - simpl. split; [by left|].
    intros [?|(_ & _ & _ & n & nm & H & _)]; [done|by apply elem_of_nil in H].
  - cbn [foldl]. rewrite IH, registrar_chamada_spec. split.
    + intros [[?|(? & ? & ? & nm & ? & ? & ?)]|(? & ? & ? & n' & nm & ? & ?)].
      * by left.
      * right. repeat split; try done. exists n, nm. split; [left|done].
      * right. repeat split; try done. exists n', nm. split; [by right|done].
    + intros [?|(? & ? & ? & n' & nm & Hn' & ? & ? & ?)]; [by left; left|].
      apply elem_of_cons in Hn' as [->|Hn'].
      * left. right. repeat split; try done. by exists nm.
      * right. repeat split; try done. by exists n', nm.
Qed.

Lemma elem_of_nomes_chamados nm node_f :
  nm ∈ nomes_chamados node_f
  ↔ ∃ n, n ∈ walk node_f ∧ _extrair_nome_chamada n = Some nm ∧ nm ≠ "".
Proof.
  unfold nomes_chamados. rewrite list_elem_of_filter, list_elem_of_omap.
  naive_solver.
Qed.

Lemma foldl_funcoes_spec alvos (pares : list (string * node))
    (ch : gmap string (gset string)) f' g' :
  g' ∈ default ∅
         (foldl (λ chamadas '(nome_func, node_func),
                   foldl (registrar_chamada alvos nome_func) chamadas
                     (walk node_func)) ch pares !! f')
  ↔ g' ∈ default ∅ (ch !! f')
    ∨ (g' ∈ alvos ∧ g' ≠ f'
       ∧ ∃ node_f nm, (f', node_f) ∈ pares ∧ nm ∈ nomes_chamados node_f
                      ∧ casa nm g' = true).
Proof.
  revert ch. induction pares as [|[f nf] l IH]; intros ch.
  - simpl. split; [by left|].
    intros [?|(_ & _ & nf & nm & H & _)]; [done|by apply elem_of_nil in H].
  - cbn [foldl]. rewrite IH, foldl_registrar_spec. split.
    + intros [[?|(-> & ? & ? & n & nm & ? & ? & ? & ?)]
             |(? & ? & nf' & nm & ? & ? & ?)].
      * by left.
      * right. repeat split; try done. exists nf, nm.
        split; [left|]. split; [|done]. apply elem_of_nomes_chamados. by exists n.
      * right. repeat split; try done. exists nf', nm. split; [by right|done].
    + intros [?|(? & ? & nf' & nm & Hp & Hnm & ?)]; [by left; left|].
      apply elem_of_cons in Hp as [[= -> ->]|Hp].
      * left. right. apply elem_of_nomes_chamados in Hnm as (n & ? & ? & ?).
        repeat split; try done. by exists n, nm.
      * right. repeat split; try done. by exists nf', nm.
Qed.

(** [self.chamadas[f]] holds [g] exactly when some call site of [f] names
    a callee that matches the other function [g]. *)
Lemma _analisar_chamadas_spec funcoes f g :
  g ∈ default ∅ (_analisar_chamadas funcoes !! f) ↔ aresta funcoes f g.
Proof.
  unfold _analisar_chamadas, aresta. rewrite foldl_funcoes_spec.
  rewrite lookup_empty. simpl. split.
  - intros [H|(Hg & Hne & nf & nm & Hf & Hnm & Hc)]; [by apply elem_of_empty in H|].
    exists nf, nm. apply elem_of_map_to_list in Hf.
    apply list_elem_of_fmap in Hg as ([g' ng] & -> & Hg).
    apply elem_of_map_to_list in Hg. simpl. by eauto 10.
  - intros (nf & nm & Hf & [ng Hg] & Hne & Hnm & Hc). right.
    split; [|split; [done|]].
    + apply list_elem_of_fmap. exists (g, ng). split; [done|].
      by apply elem_of_map_to_list.
    + exists nf, nm. split; [by apply elem_of_map_to_list|done].
Qed.

(** A function is never in its own call set, and call sets hold functions
    of the table only. *)
Lemma _analisar_chamadas_alvos funcoes f g :
  g ∈ default ∅ (_analisar_chamadas funcoes !! f) →
  g ≠ f ∧ is_Some (funcoes !! f) ∧ is_Some (funcoes !! g).
Proof.
  rewrite _analisar_chamadas_spec. intros (nf & nm & Hf & Hg & Hne & _).
  by eauto.
Qed.
End Chamadas.

(** ** The order of the function names *)

Lemma string_compare_trans s1 s2 s3 :
  String.compare s1 s2 ≠ Gt → String.compare s2 s3 ≠ Gt →
  String.compare s1 s3 ≠ Gt.
Proof.
  revert s2 s3. induction s1 as [|a s1 IH]; intros [|b s2] [|c s3];
    simpl; try done.
  unfold Ascii.compare.
  destruct (N.compare_spec (Ascii.N_of_ascii a) (Ascii.N_of_ascii b));
    destruct (N.compare_spec (Ascii.N_of_ascii b) (Ascii.N_of_ascii c));
    destruct (N.compare_spec (Ascii.N_of_ascii a) (Ascii.N_of_ascii c));
    try done; try lia.
  apply IH.
Qed.

Lemma string_le_trans : Transitive Main.string_le.
Proof.
  intros s1 s2 s3. unfold Main.string_le, String.leb. intros H1 H2.
  pose proof (string_compare_trans s1 s2 s3) as H.
  destruct (String.compare s1 s2); destruct (String.compare s2 s3);
    destruct (String.compare s1 s3); try done; by destruct H.
Qed.

Lemma string_le_total : Total Main.string_le.
Proof. intros s1 s2. apply String.leb_total. Qed.

Lemma string_le_antisym : AntiSymm eq Main.string_le.
Proof. intros s1 s2. apply String.leb_antisym. Qed.

#[local] Existing Instances string_le_trans string_le_total string_le_antisym.

Section Ordenadas.
Import Main.
Variable funcoes : gmap string Ast.node.

Lemma funcoes_ordenadas_perm :
  funcoes_ordenadas funcoes ≡ₚ (map_to_list funcoes).*1.
Proof. apply merge_sort_Permutation. Qed.

Lemma funcoes_ordenadas_NoDup : NoDup (funcoes_ordenadas funcoes).
Proof. rewrite funcoes_ordenadas_perm. apply NoDup_fst_map_to_list. Qed.

Lemma elem_of_funcoes_ordenadas f :
  f ∈ funcoes_ordenadas funcoes ↔ is_Some (funcoes !! f).
Proof.
  rewrite funcoes_ordenadas_perm, list_elem_of_fmap. split.
  - intros ([k v] & -> & H). apply elem_of_map_to_list in H. by eexists.
  - intros [v H]. exists (f, v). split; [done|]. by apply elem_of_map_to_list.
Qed.

Lemma funcoes_ordenadas_sorted :
  StronglySorted string_le (funcoes_ordenadas funcoes).
Proof. apply StronglySorted_merge_sort; apply _. Qed.
End Ordenadas.

(** Two tables with the same names give the same ordered list. *)
Lemma funcoes_ordenadas_dom (t1 t2 : gmap string Ast.node) :
  dom t1 = dom t2 → Main.funcoes_ordenadas t1 = Main.funcoes_ordenadas t2.
Proof.
  intros Hdom.
  apply (StronglySorted_unique Main.string_le);
    [apply funcoes_ordenadas_sorted..|].
  apply NoDup_Permutation; [apply funcoes_ordenadas_NoDup..|].
  intros f. rewrite !elem_of_funcoes_ordenadas, <- !elem_of_dom. by rewrite Hdom.
Qed.

(** ** The adjacency matrix of [main.py] *)

Section Matriz.
Import Main.

Lemma quadrada_zeros n : quadrada n (zeros n).
Proof.
  unfold quadrada, zeros. rewrite length_replicate. split; [done|].
  apply Forall_replicate. by rewrite length_replicate.
Qed.

Lemma entrada_zeros n i j : (i < n)%nat → (j < n)%nat → entrada (zeros n) i j = 0.
Proof.
  intros Hi Hj. unfold entrada, zeros.
  rewrite (list_lookup_total_correct _ i (replicate n 0))
    by by apply lookup_replicate_2.
  apply list_lookup_total_correct. by apply lookup_replicate_2.
Qed.

Lemma incrementar_spec n (m : list (list Z)) i j :
  quadrada n m → (i < n)%nat → (j < n)%nat →
  quadrada n (incrementar m i j)
  ∧ ∀ i' j', entrada (incrementar m i j) i' j'
             = entrada m i' j' + (if decide (i' = i ∧ j' = j) then 1 else 0).
Proof.
  intros [Hlen Hrows] Hi Hj. unfold incrementar, matriz.
  destruct (lookup_lt_is_Some_2 m i) as [linha Hl]; [lia|].
  assert (Hll : length linha = n)
    by exact (Forall_lookup_1 (λ linha, length linha = n) m i linha Hrows Hl).
  destruct (lookup_lt_is_Some_2 linha j) as [v Hv]; [lia|].
  rewrite Hl, Hv. split.
  - split; [by rewrite length_insert|].
    apply Forall_insert; [done|]. by rewrite length_insert.
  - intros i' j'. unfold entrada, matriz.
    destruct (decide (i' = i)) as [->|Hi'].
    + rewrite list_lookup_total_insert_eq by lia.
      rewrite (list_lookup_total_correct _ _ _ Hl).
      destruct (decide (j' = j)) as [->|Hj'].
      * rewrite list_lookup_total_insert_eq by lia.
        rewrite (list_lookup_total_correct _ _ _ Hv).
        rewrite decide_True by done. done.
      * rewrite list_lookup_total_insert_ne by done.
        rewrite decide_False by naive_solver. lia.
    + rewrite list_lookup_total_insert_ne by done.
      rewrite decide_False by naive_solver. lia.
Qed.

Lemma indice_map_snoc l x :
  indice_map (l ++ [x]) = <[x := length l]> (indice_map l).
Proof.
  unfold indice_map. rewrite imap_app, foldl_app. cbn [imap foldl].
  by rewrite Nat.add_0_r.
Qed.

(** The index dictionary inverts the ordered list. *)
Lemma indice_map_spec fo f i :
  NoDup fo → indice_map fo !! f = Some i ↔ fo !! i = Some f.
Proof.
  revert i. induction fo as [|x l IH] using rev_ind; intros i Hnd.
  - unfold indice_map. simpl. by rewrite lookup_empty.
  - apply NoDup_app in Hnd as (Hl & Hx & _).
    rewrite indice_map_snoc. destruct (decide (x = f)) as [->|Hne].
    + rewrite lookup_insert_eq. split.
      * intros [= <-]. by rewrite lookup_app_r, Nat.sub_diag.
      * intros Hi. f_equal.
        destruct (decide (i < length l)%nat) as [Hlt|Hge].
        -- rewrite lookup_app_l in Hi by done. exfalso.
           apply (Hx f); [by eapply list_elem_of_lookup_2|left].
        -- apply lookup_lt_Some in Hi. rewrite length_app in Hi. simpl in Hi. lia.
    + rewrite lookup_insert_ne by done. rewrite IH by done.
      destruct (decide (i < length l)%nat) as [Hlt|Hge].
      * by rewrite lookup_app_l.
      * split; [intros Hi; apply lookup_lt_Some in Hi; lia|].
        rewrite lookup_app_r by lia. intros Hi.
        destruct (i - length l)%nat; [by injection Hi|done].
Qed.

Variable fo : list string.
Hypothesis fo_NoDup : NoDup fo.

Lemma foldl_destinos_spec i (dl : list string) (m : matriz) :
  quadrada (length fo) m → (i < length fo)%nat → NoDup dl →
  quadrada (length fo)
    (foldl (λ (m : matriz) destino,
              match indice_map fo !! destino with
              | Some j => incrementar m i j
              | None => m
              end) m dl)
  ∧ ∀ i' j' fj, fo !! j' = Some fj →
      entrada (foldl (λ (m : matriz) destino,
                        match indice_map fo !! destino with
                        | Some j => incrementar m i j
                        | None => m
                        end) m dl) i' j'
      = entrada m i' j' + (if decide (i' = i ∧ fj ∈ dl) then 1 else 0).
Proof.
  intros Hq Hi Hnd. revert m Hq.
  induction Hnd as [|d dl Hd Hnd IH]; intros m Hq.
  - simpl. split; [done|]. intros i' j' fj _.
    rewrite decide_False; [lia|]. intros [_ H]. by apply elem_of_nil in H.
  - cbn [foldl]. destruct (indice_map fo !! d) as [j|] eqn:Hj.
    + apply indice_map_spec in Hj; [|done].
      assert (Hjn : (j < length fo)%nat) by by eapply lookup_lt_Some.
      destruct (incrementar_spec _ m i j Hq Hi Hjn) as [Hq' He'].
      destruct (IH _ Hq') as [Hq'' He'']. split; [done|].
      intros i' j' fj Hfj. rewrite (He'' _ _ _ Hfj), He'.
      assert (Hjj : j' = j ↔ fj = d).
      { split; [intros ->; congruence|intros ->].
        exact (NoDup_lookup fo j' j d fo_NoDup Hfj Hj). }
      assert (Hex : ¬ (j' = j ∧ fj ∈ dl)).
      { intros [Hj' Hin]. apply Hjj in Hj'. by subst fj. }
      assert (Hc : fj ∈ d :: dl ↔ j' = j ∨ fj ∈ dl)
        by by rewrite elem_of_cons, Hjj.
      destruct (decide (i' = i ∧ j' = j));
        destruct (decide (i' = i ∧ fj ∈ dl));
        destruct (decide (i' = i ∧ fj ∈ d :: dl));
        try lia; exfalso; tauto.
    + destruct (IH _ Hq) as [Hq'' He'']. split; [done|].
      intros i' j' fj Hfj. rewrite (He'' _ _ _ Hfj).
      assert (Hfd : fj ≠ d).
      { intros ->. apply (indice_map_spec fo d j') in Hfj; [|done]. congruence. }
      assert (Hc : fj ∈ d :: dl ↔ fj ∈ dl).
      { rewrite elem_of_cons. tauto. }
      destruct (decide (i' = i ∧ fj ∈ dl));
        destruct (decide (i' = i ∧ fj ∈ d :: dl));
        try lia; exfalso; tauto.
Qed.

Lemma foldl_origens_spec (pares : list (string * gset string)) (m : matriz) :
  quadrada (length fo) m → NoDup pares.*1 →
  quadrada (length fo)
    (foldl (λ (m : matriz) '(origem, destinos),
              match indice_map fo !! origem with
              | Some i =>
                  foldl (λ (m : matriz) destino,
                           match indice_map fo !! destino with
                           | Some j => incrementar m i j
                           | None => m
                           end) m (elements (destinos : gset string))
              | None => m
              end) m pares)
  ∧ ∀ i' j' fi fj, fo !! i' = Some fi → fo !! j' = Some fj →
      entrada (foldl (λ (m : matriz) '(origem, destinos),
              match indice_map fo !! origem with
              | Some i =>
                  foldl (λ (m : matriz) destino,
                           match indice_map fo !! destino with
                           | Some j => incrementar m i j
                           | None => m
                           end) m (elements (destinos : gset string))
              | None => m
              end) m pares) i' j'
      = entrada m i' j'
        + (if decide (fj ∈ default ∅
                        ((list_to_map pares : gmap string (gset string)) !! fi))
           then 1 else 0).
Proof.
  intros Hq Hnd. revert m Hq.
  induction pares as [|[o ds] l IH]; intros m Hq.
  - simpl. split; [done|]. intros i' j' fi fj _ _.
    rewrite lookup_empty. simpl. rewrite decide_False; [lia|]. apply not_elem_of_empty.
  - rewrite fmap_cons in Hnd. apply NoDup_cons in Hnd as [Ho Hnd].
    assert (Hlo : (list_to_map l : gmap string (gset string)) !! o = None)
      by by apply not_elem_of_list_to_map_1.
    cbn [foldl]. rewrite list_to_map_cons.
    destruct (indice_map fo !! o) as [i|] eqn:Hi.
    + apply indice_map_spec in Hi; [|done].
      assert (Hin : (i < length fo)%nat) by by eapply lookup_lt_Some.
      destruct (foldl_destinos_spec i (elements ds) m Hq Hin (NoDup_elements ds))
        as [Hq' He'].
      destruct (IH Hnd _ Hq') as [Hq'' He'']. split; [done|].
      intros i' j' fi fj Hfi Hfj. rewrite (He'' _ _ _ _ Hfi Hfj), (He' _ _ _ Hfj).
      assert (Hii : i' = i ↔ fi = o).
      { split; [intros ->; congruence|intros ->].
        exact (NoDup_lookup fo i' i o fo_NoDup Hfi Hi). }
      destruct (decide (fi = o)) as [->|Hne].
      * rewrite lookup_insert_eq, Hlo. simpl.
        rewrite (decide_False (P := fj ∈ ∅)) by apply not_elem_of_empty.
        destruct (decide (i' = i ∧ fj ∈ elements ds)) as [[_ H]|Hn];
          destruct (decide (fj ∈ ds)) as [H'|Hn']; try lia.
        -- exfalso. apply Hn'. by apply elem_of_elements.
        -- exfalso. apply Hn. split; [by apply Hii|by apply elem_of_elements].
      * rewrite lookup_insert_ne by done.
        rewrite (decide_False (P := i' = i ∧ _)); [lia|]. intros [? _]. by apply Hne, Hii.
    + destruct (IH Hnd _ Hq) as [Hq'' He'']. split; [done|].
      intros i' j' fi fj Hfi Hfj. rewrite (He'' _ _ _ _ Hfi Hfj).
      assert (Hne : o ≠ fi).
      { intros ->. apply (indice_map_spec fo fi i') in Hfi; [|done]. congruence. }
      by rewrite lookup_insert_ne.
Qed.

(** Cell [(i, j)] of the matrix is 1 when the call set of the [i]-th
    function holds the [j]-th one, and 0 otherwise. *)
Lemma obter_matriz_adjacencia_spec (chamadas : gmap string (gset string)) :
  quadrada (length fo) (obter_matriz_adjacencia fo chamadas)
  ∧ ∀ i j fi fj, fo !! i = Some fi → fo !! j = Some fj →
      entrada (obter_matriz_adjacencia fo chamadas) i j
      = if decide (fj ∈ default ∅ (chamadas !! fi)) then 1 else 0.
Proof.
  unfold obter_matriz_adjacencia.
  destruct (foldl_origens_spec (map_to_list chamadas) (zeros (length fo)))
    as [Hq He]; [apply quadrada_zeros|apply NoDup_fst_map_to_list|].
  split; [done|]. intros i j fi fj Hi Hj.
  rewrite (He _ _ _ _ Hi Hj), list_to_map_to_list.
  rewrite entrada_zeros by (by eapply lookup_lt_Some). lia.
Qed.
End Matriz.

(** ** Sums of the adjacency matrix *)

Lemma soma_Z_insert (l : list Z) j v x :
  l !! j = Some v → soma_Z (<[j := x]> l) = soma_Z l - v + x.
Proof.
  revert j. induction l as [|a l IH]; intros [|j] H; simpl in *; try done.
  - injection H as ->. unfold soma_Z. simpl. lia.
  - change (soma_Z (a :: <[j := x]> l)) with (a + soma_Z (<[j := x]> l)).
    change (soma_Z (a :: l)) with (a + soma_Z l). rewrite (IH j) by done. lia.
Qed.

Lemma np_sum_insert (m : list (list Z)) i linha linha' :
  m !! i = Some linha →
  Zhang.np_sum (<[i := linha']> m)
  = Zhang.np_sum m - soma_Z linha + soma_Z linha'.
Proof.
  intros H. unfold Zhang.np_sum. rewrite list_fmap_insert.
  apply soma_Z_insert. by rewrite list_lookup_fmap, H.
Qed.

Lemma fill_diagonal_0_insert (m : list (list Z)) i linha' :
  Zhang.fill_diagonal_0 (<[i := linha']> m)
  = <[i := <[i := 0]> linha']> (Zhang.fill_diagonal_0 m).
Proof.
  unfold Zhang.fill_diagonal_0, Main.matriz. apply list_eq. intros k.
  rewrite list_lookup_imap, !list_lookup_insert, list_lookup_imap.
  rewrite length_imap.
  destruct (decide (i = k ∧ (i < length m)%nat)) as [[-> ?]|]; done.
Qed.

Lemma np_sum_incrementar n (m : list (list Z)) i j :
  Main.quadrada n m → (i < n)%nat → (j < n)%nat → i ≠ j →
  Zhang.np_sum (Zhang.fill_diagonal_0 (Main.incrementar m i j))
  = Zhang.np_sum (Zhang.fill_diagonal_0 m) + 1.
Proof.
  intros [Hlen Hrows] Hi Hj Hij. unfold Main.incrementar, Main.matriz.
  destruct (lookup_lt_is_Some_2 m i) as [linha Hl]; [lia|].
  assert (Hll : length linha = n)
    by exact (Forall_lookup_1 (λ linha, length linha = n) m i linha Hrows Hl).
  destruct (lookup_lt_is_Some_2 linha j) as [v Hv]; [lia|].
  rewrite Hl, Hv, fill_diagonal_0_insert.
  rewrite (np_sum_insert _ i (<[i := 0]> linha)).
  2: { unfold Zhang.fill_diagonal_0, Main.matriz.
       by rewrite list_lookup_imap, Hl. }
  rewrite list_insert_insert_ne by done.
  rewrite (soma_Z_insert (<[i := 0]> linha) j v)
    by by rewrite list_lookup_insert_ne.
  lia.
Qed.

Lemma matriz_ext n (m m' : list (list Z)) :
  Main.quadrada n m → Main.quadrada n m' →
  (∀ i j, (i < n)%nat → (j < n)%nat → Main.entrada m i j = Main.entrada m' i j) →
  m = m'.
Proof.
  intros [Hl Hr] [Hl' Hr'] He. apply (list_eq_same_length _ _ n); [done..|].
  intros i x y Hi Hx Hy.
  assert (Hlx : length x = n)
    by exact (Forall_lookup_1 (λ linha, length linha = n) m i x Hr Hx).
  assert (Hly : length y = n)
    by exact (Forall_lookup_1 (λ linha, length linha = n) m' i y Hr' Hy).
  apply (list_eq_same_length _ _ n); [done..|].
  intros j a b Hj Ha Hb. specialize (He i j Hi Hj).
  unfold Main.entrada, Main.matriz in He.
  rewrite (list_lookup_total_correct _ _ _ Hx),
    (list_lookup_total_correct _ _ _ Hy),
    (list_lookup_total_correct _ _ _ Ha),
    (list_lookup_total_correct _ _ _ Hb) in He. done.
Qed.

Lemma soma_Z_nao_negativa (l : list Z) :
  Forall (λ x, 0 ≤ x) l → 0 ≤ soma_Z l.
Proof.
  induction 1 as [|x l Hx _ IH]; [done|].
  change (soma_Z (x :: l)) with (x + soma_Z l). lia.
Qed.

Lemma np_sum_nao_negativa (m : list (list Z)) :
  Forall (Forall (λ x, 0 ≤ x)) m → 0 ≤ Zhang.np_sum m.
Proof.
  intros H. unfold Zhang.np_sum. apply soma_Z_nao_negativa.
  apply Forall_fmap. eapply Forall_impl; [exact H|].
  intros l Hl. by apply soma_Z_nao_negativa.
Qed.

Lemma fill_diagonal_0_nao_negativa (m : list (list Z)) :
  Forall (Forall (λ x, 0 ≤ x)) m →
  Forall (Forall (λ x, 0 ≤ x)) (Zhang.fill_diagonal_0 m).
Proof.
  intros H. unfold Zhang.fill_diagonal_0, Main.matriz.
  apply Forall_lookup. intros i l Hl.
  rewrite list_lookup_imap in Hl.
  destruct (m !! i) as [linha|] eqn:Hm; [|done]. injection Hl as <-.
  assert (Hlinha : Forall (λ x, 0 ≤ x) linha)
    by exact (Forall_lookup_1 (Forall (λ x, 0 ≤ x)) m i linha H Hm).
  apply Forall_lookup. intros j x Hx.
  apply list_lookup_insert_Some in Hx as [(_ & <- & _)|[_ Hx]]; [done|].
  exact (Forall_lookup_1 (λ x, 0 ≤ x) linha j x Hlinha Hx).
Qed.

(** Every cell of the matrix is 0 or 1. *)
Lemma obter_matriz_adjacencia_binaria fo chamadas :
  NoDup fo →
  Forall (Forall (λ x, x = 0 ∨ x = 1)) (Main.obter_matriz_adjacencia fo chamadas).
Proof.
  intros Hnd.
  destruct (obter_matriz_adjacencia_spec fo Hnd chamadas) as [[Hlen Hrows] He].
  apply Forall_lookup. intros i linha Hl.
  assert (Hll : length linha = length fo)
    by exact (Forall_lookup_1 (λ linha, length linha = length fo) _ i linha Hrows Hl).
  apply Forall_lookup. intros j x Hx.
  destruct (lookup_lt_is_Some_2 fo i) as [fi Hfi].
  { apply lookup_lt_Some in Hl. lia. }
  destruct (lookup_lt_is_Some_2 fo j) as [fj Hfj].
  { apply lookup_lt_Some in Hx. lia. }
  specialize (He i j fi fj Hfi Hfj). unfold Main.entrada, Main.matriz in He.
  rewrite (list_lookup_total_correct _ _ _ Hl),
    (list_lookup_total_correct _ _ _ Hx) in He.
  destruct (decide _); [by right|by left].
Qed.

Lemma M_diretos_nao_negativo fo chamadas :
  NoDup fo →
  0 ≤ Zhang.M_diretos
        (Zhang._contar_acoplas (Main.obter_matriz_adjacencia fo chamadas)).
Proof.
  intros Hnd. unfold Zhang._contar_acoplas. cbn [Zhang.M_diretos].
  apply np_sum_nao_negativa, fill_diagonal_0_nao_negativa.
  eapply Forall_impl; [by apply obter_matriz_adjacencia_binaria|].
  intros l Hl. eapply Forall_impl; [exact Hl|]. intros x [-> | ->]; lia.
Qed.

(** ** Removing the call sites of one function *)

Lemma aresta_insert (T : gmap string Ast.node) f nf nf' a b :
  T !! f = Some nf → Extrator.nomes_chamados nf' = [] →
  Extrator.aresta (<[f := nf']> T) a b ↔ a ≠ f ∧ Extrator.aresta T a b.
Proof.
  intros Hf Hnf'. unfold Extrator.aresta. split.
  - intros (na & nm & Ha & Hb & Hne & Hnm & Hc).
    destruct (decide (a = f)) as [->|Hn].
    + rewrite lookup_insert_eq in Ha. injection Ha as <-.
      rewrite Hnf' in Hnm. by apply elem_of_nil in Hnm.
    + rewrite lookup_insert_ne in Ha by done. split; [done|].
      exists na, nm. split; [done|]. split; [|done].
      destruct (decide (b = f)) as [->|Hbf]; [by eexists|].
      by rewrite lookup_insert_ne in Hb.
  - intros (Hn & na & nm & Ha & Hb & Hne & Hnm & Hc). exists na, nm.
    rewrite lookup_insert_ne by done. split; [done|]. split; [|done].
    destruct (decide (b = f)) as [->|Hbf].
    + rewrite lookup_insert_eq. by eexists.
    + by rewrite lookup_insert_ne.
Qed.

(** The matrix of a table in which every call site of [f] resolves to [g]
    is the matrix of the table without these call sites, with cell
    [(f, g)] incremented once. *)
Lemma matriz_uma_aresta (T : gmap string Ast.node) f g nf nf' i j :
  T !! f = Some nf → Extrator.nomes_chamados nf' = [] →
  (∀ h, Extrator.aresta T f h ↔ h = g) →
  Main.funcoes_ordenadas T !! i = Some f →
  Main.funcoes_ordenadas T !! j = Some g →
  i ≠ j
  ∧ Main.funcoes_ordenadas (<[f := nf']> T) = Main.funcoes_ordenadas T
  ∧ Main.obter_matriz_adjacencia (Main.funcoes_ordenadas T)
      (Extrator._analisar_chamadas T)
    = Main.incrementar
        (Main.obter_matriz_adjacencia (Main.funcoes_ordenadas T)
           (Extrator._analisar_chamadas (<[f := nf']> T))) i j.
Proof.
  intros Hf Hnf' Hfg Hi Hj.
  pose proof (funcoes_ordenadas_NoDup T) as Hnd.
  assert (Hgf : g ≠ f).
  { destruct (proj2 (Hfg g) eq_refl) as (? & ? & _ & _ & Hne & _). done. }
  assert (Hij : i ≠ j) by (intros ->; congruence).
  split; [done|]. split.
  { apply funcoes_ordenadas_dom. rewrite dom_insert_L.
    apply elem_of_dom_2 in Hf. set_solver. }
  set (fo := Main.funcoes_ordenadas T) in *.
  destruct (obter_matriz_adjacencia_spec fo Hnd (Extrator._analisar_chamadas T))
    as [Hq He].
  destruct (obter_matriz_adjacencia_spec fo Hnd
              (Extrator._analisar_chamadas (<[f := nf']> T))) as [Hq' He'].
  assert (Hin : (i < length fo)%nat) by by eapply lookup_lt_Some.
  assert (Hjn : (j < length fo)%nat) by by eapply lookup_lt_Some.
  destruct (incrementar_spec _ _ i j Hq' Hin Hjn) as [Hq'' He''].
  apply (matriz_ext (length fo)); [done..|].
  intros i' j' Hi' Hj'. rewrite He''.
  destruct (lookup_lt_is_Some_2 fo i' Hi') as [fi Hfi].
  destruct (lookup_lt_is_Some_2 fo j' Hj') as [fj Hfj].
  rewrite (He _ _ _ _ Hfi Hfj), (He' _ _ _ _ Hfi Hfj).
  assert (Hii : i' = i ↔ fi = f).
  { split; [intros ->; congruence|intros ->].
    exact (NoDup_lookup fo i' i f Hnd Hfi Hi). }
  assert (Hjj : j' = j ↔ fj = g).
  { split; [intros ->; congruence|intros ->].
    exact (NoDup_lookup fo j' j g Hnd Hfj Hj). }
  pose proof (_analisar_chamadas_spec T fi fj) as H1.
  pose proof (_analisar_chamadas_spec (<[f := nf']> T) fi fj) as H2.
  rewrite (aresta_insert T f nf nf' fi fj Hf Hnf') in H2.
  assert (H3 : fi = f → (Extrator.aresta T fi fj ↔ fj = g))
    by (intros ->; apply Hfg).
  destruct (decide (fj ∈ default ∅ (Extrator._analisar_chamadas T !! fi)));
    destruct (decide (fj ∈ default ∅
                (Extrator._analisar_chamadas (<[f := nf']> T) !! fi)));
    destruct (decide (i' = i ∧ j' = j));
    try lia; exfalso; destruct (decide (fi = f)); tauto.
Qed.

Lemma projeto_fg_arestas h :
  Extrator.aresta (Extrator._encontrar_funcoes Cenarios.projeto_fg) "m.f" h
  ↔ h = "m.g".
Proof.
  rewrite <- _analisar_chamadas_spec.
  assert (Hc : default ∅
            (Extrator._analisar_chamadas
               (Extrator._encontrar_funcoes Cenarios.projeto_fg) !! "m.f")
          = ({["m.g"]} : gset string)) by (vm_compute; reflexivity).
  rewrite Hc. apply elem_of_singleton.
Qed.

(** The call sites of a function defined inside another one count for
    both: [ast.walk] of the outer function meets them too.  With [f]
    inside [h], removing the two calls of [g] takes the edges [f → g] and
    [h → g] away, and [M_diretos] drops by 2. *)
Lemma chamadas_de_funcao_aninhada :
  Main.funcoes_ordenadas (Extrator._encontrar_funcoes Cenarios.projeto_aninhado)
  = ["m.f"; "m.g"; "m.h"]
  ∧ Main.matriz_do_projeto Cenarios.projeto_aninhado
    = [[0; 1; 0]; [0; 0; 0]; [0; 1; 0]]
  ∧ Main.matriz_do_projeto Cenarios.projeto_aninhado_sem_chamadas
    = [[0; 0; 0]; [0; 0; 0]; [0; 0; 0]]
  ∧ Zhang.M_diretos
      (Zhang._contar_acoplas (Main.matriz_do_projeto Cenarios.projeto_aninhado))
    = 2
  ∧ Extrator._encontrar_funcoes Cenarios.projeto_aninhado_sem_chamadas !! "m.h"
    ≠ Extrator._encontrar_funcoes Cenarios.projeto_aninhado !! "m.h".
Proof.
  assert (H1 : Main.matriz_do_projeto Cenarios.projeto_aninhado
               = [[0; 1; 0]; [0; 0; 0]; [0; 1; 0]]) by (vm_compute; reflexivity).
  rewrite H1. repeat split; try (vm_compute; reflexivity).
  vm_compute. discriminate.
Qed.

(** C1, as the code has it.  Two source trees give the same function
    table but for the node kept for [f]: in the first one every callee
    name met in [f] matches [g] and no third function, however many call
    sites there are; in the second one [f] holds no call with a callee
    name.  Then cell [(f, g)] of the matrix is 1 in the first tree, as
    call targets are kept in a set, and 0 in the second; [M_diretos] is
    larger by 1 in the first, and [M = int(M_diretos / 2)] is larger by
    the parity of the count of the second: by 1 when that count is odd,
    by 0 when it is even.  The hypothesis on the tables leaves out an
    [f] defined inside another function, whose node changes with the
    call sites too. *)
Theorem C1_uma_aresta_por_par (p p' : Extrator.projeto) f g nf nf' i j :
  Extrator._encontrar_funcoes p !! f = Some nf →
  Extrator._encontrar_funcoes p' = <[f := nf']> (Extrator._encontrar_funcoes p) →
  Extrator.nomes_chamados nf' = [] →
  (∀ h, Extrator.aresta (Extrator._encontrar_funcoes p) f h ↔ h = g) →
  Main.funcoes_ordenadas (Extrator._encontrar_funcoes p) !! i = Some f →
  Main.funcoes_ordenadas (Extrator._encontrar_funcoes p) !! j = Some g →
  Main.entrada (Main.matriz_do_projeto p) i j = 1
  ∧ Main.entrada (Main.matriz_do_projeto p') i j = 0
  ∧ Zhang.M_diretos (Zhang._contar_acoplas (Main.matriz_do_projeto p))
    = Zhang.M_diretos (Zhang._contar_acoplas (Main.matriz_do_projeto p')) + 1
  ∧ Zhang.M (Zhang._contar_acoplas (Main.matriz_do_projeto p))
    = Zhang.M (Zhang._contar_acoplas (Main.matriz_do_projeto p'))
      + Zhang.M_diretos (Zhang._contar_acoplas (Main.matriz_do_projeto p')) mod 2.
Proof.
  intros Hf HT' Hnf' Hfg Hi Hj. unfold Main.matriz_do_projeto. rewrite HT'.
  set (T := Extrator._encontrar_funcoes p) in *.
  destruct (matriz_uma_aresta T f g nf nf' i j Hf Hnf' Hfg Hi Hj)
    as (Hij & -> & Hm).
  pose proof (funcoes_ordenadas_NoDup T) as Hnd.
  set (fo := Main.funcoes_ordenadas T) in *.
  set (m' := Main.obter_matriz_adjacencia fo
               (Extrator._analisar_chamadas (<[f := nf']> T))) in *.
  destruct (obter_matriz_adjacencia_spec fo Hnd
              (Extrator._analisar_chamadas (<[f := nf']> T))) as [Hq' He'].
  fold m' in Hq', He'.
  assert (Hin : (i < length fo)%nat) by by eapply lookup_lt_Some.
  assert (Hjn : (j < length fo)%nat) by by eapply lookup_lt_Some.
  destruct (incrementar_spec _ m' i j Hq' Hin Hjn) as [_ He''].
  assert (H0 : Main.entrada m' i j = 0).
  { rewrite (He' _ _ _ _ Hi Hj). rewrite decide_False; [done|].
    rewrite _analisar_chamadas_spec, (aresta_insert T f nf nf' f g Hf Hnf').
    by intros [? _]. }
  pose proof (M_diretos_nao_negativo fo
                (Extrator._analisar_chamadas (<[f := nf']> T)) Hnd) as Hpos.
  fold m' in Hpos. rewrite Hm.
  split; [rewrite He'', H0, decide_True by done; lia|]. split; [done|].
  unfold Zhang._contar_acoplas in *. cbn [Zhang.M Zhang.M_diretos] in *.
  rewrite (np_sum_incrementar (length fo)) by done.
  split; [done|].
  rewrite !Z.quot_div_nonneg by lia.
  Z.div_mod_to_equations. lia.
Qed.

Lemma C1_uma_aresta_por_par_witness :
  Main.entrada (Main.matriz_do_projeto Cenarios.projeto_fg) 0 1 = 1
  ∧ Main.entrada (Main.matriz_do_projeto Cenarios.projeto_fg_sem_chamadas) 0 1 = 0
  ∧ Zhang.M_diretos (Zhang._contar_acoplas (Main.matriz_do_projeto Cenarios.projeto_fg))
    = Zhang.M_diretos
        (Zhang._contar_acoplas
           (Main.matriz_do_projeto Cenarios.projeto_fg_sem_chamadas)) + 1
  ∧ Zhang.M (Zhang._contar_acoplas (Main.matriz_do_projeto Cenarios.projeto_fg))
    = Zhang.M
        (Zhang._contar_acoplas
           (Main.matriz_do_projeto Cenarios.projeto_fg_sem_chamadas))
      + Zhang.M_diretos
          (Zhang._contar_acoplas
             (Main.matriz_do_projeto Cenarios.projeto_fg_sem_chamadas)) mod 2.
Proof.
  apply (C1_uma_aresta_por_par Cenarios.projeto_fg
           Cenarios.projeto_fg_sem_chamadas "m.f" "m.g"
           (Ast.FunctionDef "f"
              [Ast.Other [];
               Ast.Other [Ast.Call (Ast.Name "g") [] []];
               Ast.Other [Ast.Call (Ast.Name "g") [] []]])
           (Ast.FunctionDef "f" [Ast.Other []; Ast.Other []])).
  - vm_compute. reflexivity.
  - vm_compute. reflexivity.
  - reflexivity.
  - exact projeto_fg_arestas.
  - vm_compute. reflexivity.
  - vm_compute. reflexivity.
Defined.

(** [f] calls [g] at two call sites: the cell is 1, not 2, and [M] is 0
    with the call sites and without them. *)
Lemma C1_duas_chamadas_celula_1 :
  Extrator.nomes_chamados
    <$> (Extrator._encontrar_funcoes Cenarios.projeto_fg !! "m.f")
  = Some ["g"; "g"]
  ∧ Main.funcoes_ordenadas (Extrator._encontrar_funcoes Cenarios.projeto_fg)
    = ["m.f"; "m.g"]
  ∧ Main.matriz_do_projeto Cenarios.projeto_fg = [[0; 1]; [0; 0]]
  ∧ Main.matriz_do_projeto Cenarios.projeto_fg_sem_chamadas = [[0; 0]; [0; 0]]
  ∧ Main.entrada (Main.matriz_do_projeto Cenarios.projeto_fg) 0 1 ≠ 2
  ∧ Zhang.M (Zhang._contar_acoplas (Main.matriz_do_projeto Cenarios.projeto_fg)) = 0
  ∧ Zhang.M (Zhang._contar_acoplas
               (Main.matriz_do_projeto Cenarios.projeto_fg_sem_chamadas)) = 0.
Proof.
  assert (H1 : Main.matriz_do_projeto Cenarios.projeto_fg = [[0; 1]; [0; 0]])
    by (vm_compute; reflexivity).
  assert (H2 : Main.matriz_do_projeto Cenarios.projeto_fg_sem_chamadas
               = [[0; 0]; [0; 0]]) by (vm_compute; reflexivity).
  rewrite H1, H2. repeat split; try (vm_compute; reflexivity).
  vm_compute. discriminate.
Qed.

(** ** Function discovery and name resolution in [extrator_codigo.py] *)

Lemma prefix_refl s : String.prefix s s = true.
Proof.
  induction s as [|a s IH]; simpl; [done|].
  destruct (Ascii.ascii_dec a a); [exact IH|congruence].
Qed.

Lemma contem_refl s : Extrator.contem s s = true.
Proof. destruct s; [done|]. cbn [Extrator.contem]. by rewrite prefix_refl. Qed.

Lemma contem_app pre s sub :
  Extrator.contem sub s = true → Extrator.contem sub (pre +:+ s) = true.
Proof.
  intros H. induction pre as [|a pre IH]; [exact H|].
  change (String a pre +:+ s) with (String a (pre +:+ s)).
  cbn [Extrator.contem]. rewrite IH. apply orb_true_r.
Qed.

Lemma casa_nome_qualificado modulo nm :
  Extrator.casa nm (Extrator.nome_qualificado modulo nm) = true.
Proof.
  unfold Extrator.casa, Extrator.nome_qualificado.
  rewrite (contem_app modulo), ?orb_true_l; [done|].
  apply contem_app, contem_refl.
Qed.

Section Funcoes.
Import Ast Extrator.

Lemma foldl_walk_funcoes modulo (l : list node) (T : gmap string node) k :
  (∀ n, foldl (λ (funcoes : gmap string node) n,
                 match n with
                 | FunctionDef name _ =>
                     <[nome_qualificado modulo name := n]> funcoes
                 | _ => funcoes
                 end) T l !! k = Some n →
        T !! k = Some n
        ∨ ∃ name ch, n = FunctionDef name ch ∧ n ∈ l
                     ∧ k = nome_qualificado modulo name)
  ∧ ((is_Some (T !! k)
      ∨ ∃ name ch, FunctionDef name ch ∈ l ∧ k = nome_qualificado modulo name) →
     is_Some (foldl (λ (funcoes : gmap string node) n,
                       match n with
                       | FunctionDef name _ =>
                           <[nome_qualificado modulo name := n]> funcoes
                       | _ => funcoes
                       end) T l !! k)).
Proof.
  revert T. induction l as [|x l IH]; intros T.
  - simpl. split; [by left|].
    intros [?|(? & ? & H & _)]; [done|by apply elem_of_nil in H].
  - cbn [foldl]. destruct (IH (match x with
                                | FunctionDef name _ =>
                                    <[nome_qualificado modulo name := x]> T
                                | _ => T
                                end)) as [IH1 IH2]. split.
    + intros n Hn. destruct (IH1 n Hn) as [HT|(name & ch & -> & Hin & ->)].
      * destruct x as [id|v a|fn ar kw|name ch|ch];
          try (by left).
        destruct (decide (nome_qualificado modulo name = k)) as [<-|Hne].
        -- rewrite lookup_insert_eq in HT. injection HT as <-.
           right. exists name, ch. split; [done|]. split; [left|done].
        -- rewrite lookup_insert_ne in HT by done. by left.
      * right. exists name, ch. split; [done|]. split; [by right|done].
    + intros H. apply IH2. destruct H as [HT|(name & ch & Hin & ->)].
      * left. destruct x as [id|v a|fn ar kw|name ch|ch]; try done.
        destruct (decide (nome_qualificado modulo name = k)) as [<-|Hne].
        -- rewrite lookup_insert_eq. by eexists.
        -- by rewrite lookup_insert_ne.
      * apply elem_of_cons in Hin as [<-|Hin].
        -- left. rewrite lookup_insert_eq. by eexists.
        -- right. by exists name, ch.
Qed.

Lemma foldl_projeto_funcoes (p : projeto) (T : gmap string node) k :
  (∀ n, foldl (λ (funcoes : gmap string node) '(modulo, tree),
                 foldl (λ (funcoes : gmap string node) n,
                          match n with
                          | FunctionDef name _ =>
                              <[nome_qualificado modulo name := n]> funcoes
                          | _ => funcoes
                          end) funcoes (walk tree)) T p !! k = Some n →
        T !! k = Some n
        ∨ ∃ modulo tree name ch,
            (modulo, tree) ∈ p ∧ n = FunctionDef name ch ∧ n ∈ walk tree
            ∧ k = nome_qualificado modulo name)
  ∧ ((is_Some (T !! k)
      ∨ ∃ modulo tree name ch,
          (modulo, tree) ∈ p ∧ FunctionDef name ch ∈ walk tree
          ∧ k = nome_qualificado modulo name) →
     is_Some (foldl (λ (funcoes : gmap string node) '(modulo, tree),
                       foldl (λ (funcoes : gmap string node) n,
                                match n with
                                | FunctionDef name _ =>
                                    <[nome_qualificado modulo name := n]> funcoes
                                | _ => funcoes
                                end) funcoes (walk tree)) T p !! k)).
Proof.
  revert T. induction p as [|[modulo tree] p IH]; intros T.
  - simpl. split; [by left|].
    intros [?|(? & ? & ? & ? & H & _)]; [done|by apply elem_of_nil in H].
  - cbn [foldl].
    set (T1 := foldl _ T (walk tree)).
    destruct (IH T1) as [IH1 IH2].
    destruct (foldl_walk_funcoes modulo (walk tree) T k) as [W1 W2].
    fold T1 in W1, W2. split.
    + intros n Hn.
      destruct (IH1 n Hn) as [HT|(m & t & name & ch & Hin & -> & Hw & ->)].
      * destruct (W1 n HT) as [?|(name & ch & -> & Hw & ->)]; [by left|].
        right. exists modulo, tree, name, ch. split; [left|done].
      * right. exists m, t, name, ch. split; [by right|done].
    + intros H. apply IH2.
      destruct H as [HT|(m & t & name & ch & Hin & Hw & ->)].
      * left. apply W2. by left.
      * apply elem_of_cons in Hin as [[= -> ->]|Hin].
        -- left. apply W2. right. by exists name, ch.
        -- right. by exists m, t, name, ch.
Qed.

Lemma chamadas_nao_vazias_adicionar (ch : gmap string (gset string)) f g :
  map_Forall (λ _ s, s ≠ (∅ : gset string)) ch →
  map_Forall (λ _ s, s ≠ (∅ : gset string)) (adicionar ch f g).
Proof.
  intros H. unfold adicionar. apply map_Forall_insert_2; [|done].
  set_solver.
Qed.

Lemma chamadas_nao_vazias_registrar alvos f (ch : gmap string (gset string)) n :
  map_Forall (λ _ s, s ≠ (∅ : gset string)) ch →
  map_Forall (λ _ s, s ≠ (∅ : gset string)) (registrar_chamada alvos f ch n).
Proof.
  intros H. unfold registrar_chamada.
  destruct n as [id|v a|func args kws|name ch'|ch']; try done.
  destruct (_extrair_nome_chamada _) as [nm|]; [|done].
  destruct (decide (nm = "")); [done|].
  revert ch H. induction alvos as [|a l IH]; intros ch H; [done|].
  cbn [foldl]. apply IH.
  destruct (casa nm a); [|done]. destruct (decide (a ≠ f)); [|done].
  by apply chamadas_nao_vazias_adicionar.
Qed.

Lemma chamadas_nao_vazias (funcoes : gmap string node) :
  map_Forall (λ _ s, s ≠ (∅ : gset string)) (_analisar_chamadas funcoes).
Proof.
  unfold _analisar_chamadas.
  generalize ((map_to_list funcoes).*1). intros alvos.
  assert (H0 : map_Forall (λ _ s, s ≠ (∅ : gset string))
                 (∅ : gmap string (gset string))) by apply map_Forall_empty.
  revert H0. generalize (∅ : gmap string (gset string)).
  induction (map_to_list funcoes) as [|[f nf] l IH]; intros ch H; [done|].
  cbn [foldl]. apply IH. clear IH.
  revert ch H. induction (walk nf) as [|n ns IHn]; intros ch H; [done|].
  cbn [foldl]. apply IHn. by apply chamadas_nao_vazias_registrar.
Qed.

End Funcoes.

(** X1: [_encontrar_funcoes] stores a node under a key only when that node
    is a function definition met by [ast.walk] in some file, under the
    name of the file's module followed by the function's name; and every
    function definition of every file, nested ones and methods included,
    has an entry under that key. *)
Theorem encontrar_funcoes_so_definicoes (p : Extrator.projeto) :
  (∀ k n, Extrator._encontrar_funcoes p !! k = Some n →
     ∃ modulo tree name ch,
       (modulo, tree) ∈ p ∧ n = Ast.FunctionDef name ch ∧ n ∈ Ast.walk tree
       ∧ k = Extrator.nome_qualificado modulo name)
  ∧ (∀ modulo tree name ch,
       (modulo, tree) ∈ p → Ast.FunctionDef name ch ∈ Ast.walk tree →
       is_Some (Extrator._encontrar_funcoes p
                  !! Extrator.nome_qualificado modulo name)).
Proof.
  split.
  - intros k n H.
    destruct (foldl_projeto_funcoes p ∅ k) as [H1 _].
    destruct (H1 n H) as [H0|?]; [|done]. by rewrite lookup_empty in H0.
  - intros modulo tree name ch Hin Hw.
    destruct (foldl_projeto_funcoes p ∅ (Extrator.nome_qualificado modulo name))
      as [_ H2].
    apply H2. right. by exists modulo, tree, name, ch.
Qed.

(** X2: a call set never holds the calling function itself, holds only
    functions of the table, belongs to a function of the table, and is
    never empty: a key enters [self.chamadas] with its first target. *)
Theorem analisar_chamadas_invariantes (funcoes : gmap string Ast.node) :
  (∀ f g, g ∈ default ∅ (Extrator._analisar_chamadas funcoes !! f) →
     g ≠ f ∧ is_Some (funcoes !! f) ∧ is_Some (funcoes !! g))
  ∧ (∀ f s, Extrator._analisar_chamadas funcoes !! f = Some s →
       s ≠ ∅ ∧ is_Some (funcoes !! f) ∧ f ∉ s).
Proof.
  assert (H1 : ∀ f g,
            g ∈ default ∅ (Extrator._analisar_chamadas funcoes !! f) →
            g ≠ f ∧ is_Some (funcoes !! f) ∧ is_Some (funcoes !! g)).
  { intros f g. rewrite _analisar_chamadas_spec.
    intros (nf & nm & Hf & Hg & Hne & _). by eauto. }
  split; [exact H1|]. intros f s Hs.
  pose proof (chamadas_nao_vazias funcoes f s Hs) as Hne.
  split; [exact Hne|].
  assert (Hx : ∃ g, g ∈ s).
  { apply set_choose_L. exact Hne. }
  destruct Hx as [g Hg].
  assert (Hg' : g ∈ default ∅ (Extrator._analisar_chamadas funcoes !! f))
    by by rewrite Hs.
  destruct (H1 f g Hg') as (_ & Hf & _). split; [exact Hf|].
  intros Hfs.
  assert (Hf' : f ∈ default ∅ (Extrator._analisar_chamadas funcoes !! f))
    by by rewrite Hs.
  by destruct (H1 f f Hf') as [? _].
Qed.

(** X3: a call [g(...)] or [obj.g(...)] inside [f] puts into the call set
    of [f] every other function of the table named [g], whichever module
    defines it: the callee name is matched as a substring of the
    qualified name. *)
Theorem chamada_por_nome_cria_aresta (funcoes : gmap string Ast.node)
    f node_f modulo nm :
  funcoes !! f = Some node_f →
  nm ∈ Extrator.nomes_chamados node_f →
  is_Some (funcoes !! Extrator.nome_qualificado modulo nm) →
  Extrator.nome_qualificado modulo nm ≠ f →
  Extrator.nome_qualificado modulo nm
    ∈ default ∅ (Extrator._analisar_chamadas funcoes !! f).
Proof.
  intros Hf Hnm Hg Hne. apply _analisar_chamadas_spec.
  exists node_f, nm. split; [done|]. split; [done|]. split; [done|].
  split; [done|]. apply casa_nome_qualificado.
Qed.

Lemma chamada_por_nome_cria_aresta_witness :
  "m.g" ∈ default ∅
            (Extrator._analisar_chamadas
               (Extrator._encontrar_funcoes Cenarios.projeto_fg) !! "m.f").
Proof.
  apply (chamada_por_nome_cria_aresta
           (Extrator._encontrar_funcoes Cenarios.projeto_fg) "m.f"
           (Ast.FunctionDef "f"
              [Ast.Other [];
               Ast.Other [Ast.Call (Ast.Name "g") [] []];
               Ast.Other [Ast.Call (Ast.Name "g") [] []]])
           "m" "g").
  - vm_compute. reflexivity.
  - left.
  - vm_compute. by eexists.
  - discriminate.
Defined.

(** ** The matrix of a project and its counts *)

Lemma matriz_do_projeto_spec (p : Extrator.projeto) :
  Main.quadrada (length (Main.funcoes_ordenadas (Extrator._encontrar_funcoes p)))
    (Main.matriz_do_projeto p)
  ∧ ∀ i j fi fj,
      Main.funcoes_ordenadas (Extrator._encontrar_funcoes p) !! i = Some fi →
      Main.funcoes_ordenadas (Extrator._encontrar_funcoes p) !! j = Some fj →
      (Extrator.aresta (Extrator._encontrar_funcoes p) fi fj
       ∧ Main.entrada (Main.matriz_do_projeto p) i j = 1)
      ∨ (¬ Extrator.aresta (Extrator._encontrar_funcoes p) fi fj
         ∧ Main.entrada (Main.matriz_do_projeto p) i j = 0).
Proof.
  unfold Main.matriz_do_projeto.
  set (T := Extrator._encontrar_funcoes p).
  destruct (obter_matriz_adjacencia_spec (Main.funcoes_ordenadas T)
              (funcoes_ordenadas_NoDup T) (Extrator._analisar_chamadas T))
    as [Hq He].
  split; [done|]. intros i j fi fj Hi Hj. rewrite (He _ _ _ _ Hi Hj).
  rewrite <- _analisar_chamadas_spec.
  destruct (decide _); [by left|by right].
Qed.

Lemma matriz_de_zeros n (m : list (list Z)) :
  Main.quadrada n m →
  (∀ i j, (i < n)%nat → (j < n)%nat → Main.entrada m i j = 0) →
  Forall (Forall (λ x, x = 0)) m.
Proof.
  intros [Hlen Hrows] He. apply Forall_lookup. intros i linha Hl.
  assert (Hll : length linha = n)
    by exact (Forall_lookup_1 (λ linha, length linha = n) m i linha Hrows Hl).
  apply Forall_lookup. intros j x Hx.
  assert (Hi : (i < n)%nat) by (apply lookup_lt_Some in Hl; lia).
  assert (Hj : (j < n)%nat) by (apply lookup_lt_Some in Hx; lia).
  specialize (He i j Hi Hj). unfold Main.entrada, Main.matriz in He.
  by rewrite (list_lookup_total_correct _ _ _ Hl),
    (list_lookup_total_correct _ _ _ Hx) in He.
Qed.

Lemma soma_Z_le (l l' : list Z) :
  Forall2 Z.le l l' → soma_Z l ≤ soma_Z l'.
Proof.
  induction 1 as [|x y l l' Hxy _ IH]; [done|].
  change (soma_Z (x :: l)) with (x + soma_Z l).
  change (soma_Z (y :: l')) with (y + soma_Z l'). lia.
Qed.

Lemma np_sum_fill_diagonal_0_le (m : list (list Z)) :
  Forall (Forall (λ x, 0 ≤ x)) m →
  Zhang.np_sum (Zhang.fill_diagonal_0 m) ≤ Zhang.np_sum m.
Proof.
  intros Hm. unfold Zhang.np_sum. apply soma_Z_le.
  apply Forall2_fmap, Forall2_same_length_lookup_2.
  { unfold Zhang.fill_diagonal_0. by rewrite length_imap. }
  intros i l l' Hl Hl'. unfold Zhang.fill_diagonal_0, Main.matriz in Hl.
  rewrite list_lookup_imap, Hl' in Hl. injection Hl as <-.
  assert (Hpos : Forall (λ x, 0 ≤ x) l')
    by exact (Forall_lookup_1 (Forall (λ x, 0 ≤ x)) m i l' Hm Hl').
  apply soma_Z_le, Forall2_same_length_lookup_2; [by rewrite length_insert|].
  intros j x y Hx Hy.
  apply list_lookup_insert_Some in Hx as [(_ & <- & _)|[_ Hx]].
  - exact (Forall_lookup_1 (λ x, 0 ≤ x) l' j y Hpos Hy).
  - rewrite Hy in Hx. injection Hx as <-. lia.
Qed.

(** X4: the matrix [main] builds for a project is square, with one row
    per function in sorted order; cell [(i, j)] is 1 when some call site
    of the [i]-th function resolves to the [j]-th one and 0 otherwise,
    and the diagonal is 0. *)
Theorem matriz_do_projeto_celulas (p : Extrator.projeto) :
  let T := Extrator._encontrar_funcoes p in
  let fo := Main.funcoes_ordenadas T in
  let m := Main.matriz_do_projeto p in
  Main.quadrada (length fo) m
  ∧ (∀ i j fi fj, fo !! i = Some fi → fo !! j = Some fj →
       (Extrator.aresta T fi fj ∧ Main.entrada m i j = 1)
       ∨ (¬ Extrator.aresta T fi fj ∧ Main.entrada m i j = 0))
  ∧ (∀ i, (i < length fo)%nat → Main.entrada m i i = 0).
Proof.
  intros T fo m. destruct (matriz_do_projeto_spec p) as [Hq He].
  fold T fo m in Hq, He. split; [done|]. split; [done|].
  intros i Hi. destruct (lookup_lt_is_Some_2 fo i Hi) as [fi Hfi].
  destruct (He i i fi fi Hfi Hfi) as [[Ha _]|[_ ?]]; [|done].
  by destruct Ha as (? & ? & _ & _ & ? & _).
Qed.

(** X5: on a matrix without negative cells, [M] is the floor of half of
    [M_diretos], both are non-negative, the diagonal is left out of
    [M_diretos] while [graus] keeps it, and there is one degree per row. *)
Theorem contar_acoplas_limites (m : list (list Z)) :
  Forall (Forall (λ x, 0 ≤ x)) m →
  0 ≤ Zhang.M (Zhang._contar_acoplas m)
  ∧ 2 * Zhang.M (Zhang._contar_acoplas m) ≤ Zhang.M_diretos (Zhang._contar_acoplas m)
  ∧ Zhang.M_diretos (Zhang._contar_acoplas m)
    ≤ 2 * Zhang.M (Zhang._contar_acoplas m) + 1
  ∧ Zhang.M_diretos (Zhang._contar_acoplas m)
    ≤ soma_Z (Zhang.graus (Zhang._contar_acoplas m))
  ∧ length (Zhang.graus (Zhang._contar_acoplas m)) = length m.
Proof.
  intros Hm. unfold Zhang._contar_acoplas.
  cbn [Zhang.M Zhang.M_diretos Zhang.graus].
  pose proof (np_sum_nao_negativa _ (fill_diagonal_0_nao_negativa m Hm)) as H0.
  pose proof (np_sum_fill_diagonal_0_le m Hm) as H1.
  rewrite Z.quot_div_nonneg by lia. rewrite length_fmap.
  repeat split; try done; try (Z.div_mod_to_equations; lia).
Qed.

Lemma contar_acoplas_limites_witness :
  0 ≤ Zhang.M (Zhang._contar_acoplas Cenarios.matriz_estrela)
  ∧ 2 * Zhang.M (Zhang._contar_acoplas Cenarios.matriz_estrela)
    ≤ Zhang.M_diretos (Zhang._contar_acoplas Cenarios.matriz_estrela)
  ∧ Zhang.M_diretos (Zhang._contar_acoplas Cenarios.matriz_estrela)
    ≤ 2 * Zhang.M (Zhang._contar_acoplas Cenarios.matriz_estrela) + 1
  ∧ Zhang.M_diretos (Zhang._contar_acoplas Cenarios.matriz_estrela)
    ≤ soma_Z (Zhang.graus (Zhang._contar_acoplas Cenarios.matriz_estrela))
  ∧ length (Zhang.graus (Zhang._contar_acoplas Cenarios.matriz_estrela))
    = length Cenarios.matriz_estrela.
Proof.
  apply (contar_acoplas_limites Cenarios.matriz_estrela).
  unfold Cenarios.matriz_estrela. repeat constructor; lia.
Defined.

(** X6: [np.fill_diagonal(m_temp, 0)] makes [M] and [M_diretos] blind to
    the diagonal: overwriting a diagonal cell changes neither. *)
Theorem contar_acoplas_ignora_diagonal (m : list (list Z)) i linha x :
  m !! i = Some linha →
  Zhang.M (Zhang._contar_acoplas (<[i := <[i := x]> linha]> m))
    = Zhang.M (Zhang._contar_acoplas m)
  ∧ Zhang.M_diretos (Zhang._contar_acoplas (<[i := <[i := x]> linha]> m))
    = Zhang.M_diretos (Zhang._contar_acoplas m).
Proof.
  intros Hl. unfold Zhang._contar_acoplas. cbn [Zhang.M Zhang.M_diretos].
  assert (H : Zhang.fill_diagonal_0 (<[i := <[i := x]> linha]> m)
              = Zhang.fill_diagonal_0 m).
  { rewrite fill_diagonal_0_insert, list_insert_insert_eq.
    apply list_insert_id. unfold Zhang.fill_diagonal_0, Main.matriz.
    by rewrite list_lookup_imap, Hl. }
  unfold Main.matriz in *. by rewrite H.
Qed.

Lemma contar_acoplas_ignora_diagonal_witness :
  Zhang.M (Zhang._contar_acoplas
             (<[0%nat := <[0%nat := 7]> [0; 1; 1; 1]]> Cenarios.matriz_estrela))
    = Zhang.M (Zhang._contar_acoplas Cenarios.matriz_estrela)
  ∧ Zhang.M_diretos
      (Zhang._contar_acoplas
         (<[0%nat := <[0%nat := 7]> [0; 1; 1; 1]]> Cenarios.matriz_estrela))
    = Zhang.M_diretos (Zhang._contar_acoplas Cenarios.matriz_estrela).
Proof.
  apply (contar_acoplas_ignora_diagonal Cenarios.matriz_estrela 0 [0; 1; 1; 1] 7).
  reflexivity.
Defined.

(** X7: on the path [main] takes without [-p], with probability 0.5 for
    every function, [AnalisadorZhang] returns for every project and every
    behaviour of the eigen-solver: no lookup fails, one entropy record
    and one row of the judgment matrix per function. *)
Theorem AnalisadorZhang_padrao_retorna
    (eig : list (list R) → resultado (list R * list (list R)))
    (p : Extrator.projeto) :
  let fo := Main.funcoes_ordenadas (Extrator._encontrar_funcoes p) in
  ∃ a e A j,
    Zhang.AnalisadorZhang eig fo (Main.matriz_do_projeto p)
      (Main.probabilidades_padrao fo) = inr (a, e, (A, j))
    ∧ a = Zhang._contar_acoplas (Main.matriz_do_projeto p)
    ∧ length (Zhang.H_entropy_detalhado e) = length fo
    ∧ length A = length fo.
Proof.
  intros fo. destruct (matriz_do_projeto_spec p) as [Hq _]. fold fo in Hq.
  destruct (_calcular_entropy_model_spec
              (Zhang._contar_acoplas (Main.matriz_do_projeto p))
              (Main.probabilidades_padrao fo) fo) as (e & He & Hdet & _).
  { simpl. rewrite length_fmap. destruct Hq as [-> _]. done. }
  { intros f Hf. unfold Main.probabilidades_padrao.
    rewrite (lookup_list_to_map_const _ fo f Hf). by eexists. }
  destruct (matriz_julgamento_ok _ _ Hq) as (A & HA & HlA).
  destruct (julgamento_retorna eig fo (Main.matriz_do_projeto p)
              (Main.probabilidades_padrao fo) A HA) as [j Hj].
  exists (Zhang._contar_acoplas (Main.matriz_do_projeto p)), e, A, j.
  split; [|split; [done|split; [|done]]].
  - unfold Zhang.AnalisadorZhang. rewrite He. simpl. rewrite Hj. done.
  - by rewrite Hdet, length_imap.
Qed.

(** X8: a project in which no call site resolves to another function has
    entropy 0 and is classified as low coupling, whatever probabilities
    the functions are given. *)
Theorem projeto_sem_arestas_baixo (p : Extrator.projeto)
    (probabilidades : gmap string R) :
  (∀ f, f ∈ Main.funcoes_ordenadas (Extrator._encontrar_funcoes p) →
        is_Some (probabilidades !! f)) →
  (∀ f g, ¬ Extrator.aresta (Extrator._encontrar_funcoes p) f g) →
  ∃ e,
    Zhang._calcular_entropy_model
      (Main.funcoes_ordenadas (Extrator._encontrar_funcoes p))
      (Zhang._contar_acoplas (Main.matriz_do_projeto p)) probabilidades = inr e
    ∧ Zhang.H_entropy e = 0%R
    ∧ Zhang.H_normalized e = 0%R
    ∧ Zhang.classificacao_acoplamento e = "✓ Baixo acoplamento".
Proof.
  intros Hp Hsem. destruct (matriz_do_projeto_spec p) as [Hq He].
  set (fo := Main.funcoes_ordenadas (Extrator._encontrar_funcoes p)) in *.
  destruct (entropia_sem_arestas fo (Main.matriz_do_projeto p) probabilidades)
    as (e & Hret & H0 & HN & _).
  - destruct Hq as [-> _]. done.
  - done.
  - right. apply (matriz_de_zeros (length fo)); [done|].
    intros i j Hi Hj.
    destruct (lookup_lt_is_Some_2 fo i Hi) as [fi Hfi].
    destruct (lookup_lt_is_Some_2 fo j Hj) as [fj Hfj].
    destruct (He i j fi fj Hfi Hfj) as [[Ha _]|[_ ?]]; [|done].
    by destruct (Hsem fi fj).
  - exists e. split; [done|]. split; [done|]. split; [done|].
    unfold Zhang.classificacao_acoplamento. rewrite H0.
    rewrite decide_True; [done|lra].
Qed.

Lemma projeto_fg_sem_chamadas_arestas f g :
  ¬ Extrator.aresta
      (Extrator._encontrar_funcoes Cenarios.projeto_fg_sem_chamadas) f g.
Proof.
  rewrite <- _analisar_chamadas_spec.
  assert (Hc : Extrator._analisar_chamadas
                 (Extrator._encontrar_funcoes Cenarios.projeto_fg_sem_chamadas)
               = ∅) by (vm_compute; reflexivity).
  rewrite Hc, lookup_empty. simpl. apply not_elem_of_empty.
Qed.

Lemma projeto_sem_arestas_baixo_witness :
  ∃ e,
    Zhang._calcular_entropy_model
      (Main.funcoes_ordenadas
         (Extrator._encontrar_funcoes Cenarios.projeto_fg_sem_chamadas))
      (Zhang._contar_acoplas
         (Main.matriz_do_projeto Cenarios.projeto_fg_sem_chamadas))
      (Main.probabilidades_padrao
         (Main.funcoes_ordenadas
            (Extrator._encontrar_funcoes Cenarios.projeto_fg_sem_chamadas)))
    = inr e
    ∧ Zhang.H_entropy e = 0%R
    ∧ Zhang.H_normalized e = 0%R
    ∧ Zhang.classificacao_acoplamento e = "✓ Baixo acoplamento".
Proof.
  apply (projeto_sem_arestas_baixo Cenarios.projeto_fg_sem_chamadas).
  - intros f Hf. unfold Main.probabilidades_padrao.
    rewrite (lookup_list_to_map_const _ _ f Hf). by eexists.
  - exact projeto_fg_sem_chamadas_arestas.
Defined.

(** ** Failures and ranges in [analisador_zhang.py] *)

Section EntropiaErros.
Import Zhang.
Variable a : acoplas.
Variable probabilidades : gmap string R.

Lemma foldl_passo_entropia_erro e l :
  foldl (passo_entropia a probabilidades) (inl e) l = inl e.
Proof. induction l as [|[i f] l IH]; [done|]. cbn [foldl]. exact IH. Qed.

Lemma passo_entropia_KeyError H det i f :
  (i < length (graus a))%nat → probabilidades !! f = None →
  passo_entropia a probabilidades (ret (H, det)) (i, f) = inl KeyError.
Proof.
  intros Hi Hp. unfold passo_entropia. simpl.
  destruct (lookup_lt_is_Some_2 _ _ Hi) as [g Hg].
  unfold list_get, dict_get. rewrite Hg, Hp. done.
Qed.

Lemma foldl_passo_entropia_KeyError funcoes f :
  (length funcoes ≤ length (graus a))%nat →
  f ∈ funcoes → probabilidades !! f = None →
  foldl (passo_entropia a probabilidades) (ret (0%R, []))
    (imap (λ i f, (i, f)) funcoes) = inl KeyError.
Proof.
  revert f. induction funcoes as [|x l IH] using rev_ind; intros f Hlen Hf Hp.
  { by apply elem_of_nil in Hf. }
  rewrite length_app in Hlen. simpl in Hlen.
  rewrite imap_app, foldl_app. cbn [imap foldl]. rewrite Nat.add_0_r.
  destruct (decide (Forall (λ f, is_Some (probabilidades !! f)) l)) as [Hall|Hn].
  - rewrite foldl_passo_entropia
      by (first [lia | intros f' Hf'; exact (proj1 (Forall_forall _ _) Hall f' Hf')]).
    apply elem_of_app in Hf as [Hf|Hf].
    + destruct (proj1 (Forall_forall _ _) Hall f Hf) as [? Hs]. congruence.
    + apply list_elem_of_singleton in Hf as ->.
      apply passo_entropia_KeyError; [lia|done].
  - apply not_Forall_Exists in Hn; [|apply _].
    apply Exists_exists in Hn as (f' & Hf' & Hnone).
    rewrite (IH f'); [done|lia|done|].
    by apply eq_None_not_Some.
Qed.

End EntropiaErros.

Lemma mapR_lookup {A B} (f : A → resultado B) l ys :
  Zhang.mapR f l = inr ys →
  ∀ i x, l !! i = Some x → ∃ y, ys !! i = Some y ∧ f x = inr y.
Proof.
  revert ys. induction l as [|x0 l IH]; intros ys H i x Hi; [done|].
  simpl in H. destruct (f x0) as [e|y0] eqn:Hy0; [done|]. simpl in H.
  destruct (Zhang.mapR f l) as [e|ys'] eqn:Hys; [done|]. simpl in H.
  injection H as <-. destruct i as [|i]; simpl in *.
  - injection Hi as <-. by exists y0.
  - by apply (IH ys').
Qed.

Lemma mapR_erro_ou_ok {A B} (f : A → resultado B) l e :
  (∀ x, x ∈ l → f x = inl e ∨ ∃ y, f x = inr y) →
  (Zhang.mapR f l = inl e ∧ ∃ x, x ∈ l ∧ f x = inl e)
  ∨ (∃ ys, Zhang.mapR f l = inr ys) ∧ ∀ x, x ∈ l → ∃ y, f x = inr y.
Proof.
  induction l as [|x l IH]; intros Hf.
  { right. split; [by eexists|]. intros x Hx. by apply elem_of_nil in Hx. }
  simpl. destruct (Hf x) as [Hx|[y Hy]]; [left|..].
  - left. rewrite Hx. split; [done|]. exists x. split; [left|done].
  - rewrite Hy. simpl.
    destruct IH as [[Hl (x' & Hx' & He)]|[[ys Hys] Hok]];
      [intros; apply Hf; by right|..].
    + left. rewrite Hl. split; [done|]. exists x'. split; [by right|done].
    + right. rewrite Hys. split; [by eexists|].
      intros x' Hx'. apply elem_of_cons in Hx' as [->|Hx']; [by eexists|by apply Hok].
Qed.

Lemma celula_julgamento_erro (m : list (list Z)) i j :
  Zhang.celula_julgamento m i j = inl IndexError
  ∨ ∃ v, Zhang.celula_julgamento m i j = inr v.
Proof.
  unfold Zhang.celula_julgamento, list_get, Main.matriz.
  destruct (decide (i = j)); [right; by eexists|].
  destruct (m !! i) as [linha|]; [|by left]. simpl.
  destruct (linha !! j) as [v|]; [|by left]. simpl.
  destruct (decide (0 < v)); [|right; by eexists].
  destruct (decide (0 < soma_Z linha)); right; by eexists.
Qed.

Lemma soma_Z_lookup_le (l : list Z) j x :
  Forall (λ x, 0 ≤ x) l → l !! j = Some x → x ≤ soma_Z l.
Proof.
  intros H. revert j. induction H as [|y l Hy Hl IH]; intros [|j] Hj; try done.
  - injection Hj as ->. change (soma_Z (x :: l)) with (x + soma_Z l).
    pose proof (soma_Z_nao_negativa l Hl). lia.
  - change (soma_Z (y :: l)) with (y + soma_Z l).
    specialize (IH j Hj). lia.
Qed.

Lemma celula_julgamento_intervalo n (m : list (list Z)) i j v :
  Main.quadrada n m → Forall (Forall (λ x, 0 ≤ x)) m →
  Zhang.celula_julgamento m i j = inr v →
  (0 < v <= 1)%R ∧ (i = j → v = 1%R).
Proof.
  intros [Hlen Hrows] Hpos. unfold Zhang.celula_julgamento, list_get, Main.matriz.
  destruct (decide (i = j)) as [Hij|Hij].
  { intros [= <-]. split; [lra|done]. }
  destruct (m !! i) as [linha|] eqn:Hl; [|done]. simpl.
  destruct (linha !! j) as [x|] eqn:Hx; [|done]. simpl.
  assert (Hlp : Forall (λ x, 0 ≤ x) linha)
    by exact (Forall_lookup_1 (Forall (λ x, 0 ≤ x)) m i linha Hpos Hl).
  pose proof (soma_Z_lookup_le linha j x Hlp Hx) as Hle.
  destruct (decide (0 < x)) as [Hx0|]; [|intros [= <-]; split; [lra|done]].
  destruct (decide (0 < soma_Z linha)) as [Hs|]; [|intros [= <-]; split; [lra|done]].
  intros [= <-]. split; [|done].
  assert (H1 : (0 < IZR x)%R) by (apply IZR_lt; lia).
  assert (H2 : (0 < IZR (soma_Z linha))%R) by (apply IZR_lt; lia).
  assert (H3 : (IZR x <= IZR (soma_Z linha))%R) by (apply IZR_le; lia).
  split.
  - by apply Rdiv_lt_0_compat.
  - apply (Rmult_le_reg_r (IZR (soma_Z linha))); [done|].
    unfold Rdiv. rewrite Rmult_assoc, Rinv_l by lra. lra.
Qed.

(** X9: a function that has no entry in the probability dictionary makes
    [AnalisadorZhang] raise [KeyError], from the entropy model and before
    the judgment-matrix model runs. *)
Theorem AnalisadorZhang_sem_probabilidade
    (eig : list (list R) → resultado (list R * list (list R)))
    funcoes (m : list (list Z)) (probabilidades : gmap string R) f :
  (length funcoes ≤ length m)%nat →
  f ∈ funcoes → probabilidades !! f = None →
  Zhang._calcular_entropy_model funcoes (Zhang._contar_acoplas m) probabilidades
    = inl KeyError
  ∧ Zhang.AnalisadorZhang eig funcoes m probabilidades = inl KeyError.
Proof.
  intros Hlen Hf Hp.
  assert (H : Zhang._calcular_entropy_model funcoes (Zhang._contar_acoplas m)
                probabilidades = inl KeyError).
  { unfold Zhang._calcular_entropy_model.
    rewrite (foldl_passo_entropia_KeyError _ _ funcoes f); [done| |done..].
    simpl. by rewrite length_fmap. }
  split; [done|]. unfold Zhang.AnalisadorZhang. by rewrite H.
Qed.

Lemma AnalisadorZhang_sem_probabilidade_witness :
  Zhang._calcular_entropy_model Cenarios.funcoes_estrela
    (Zhang._contar_acoplas Cenarios.matriz_estrela) ∅ = inl KeyError
  ∧ Zhang.AnalisadorZhang Cenarios.eig_falha Cenarios.funcoes_estrela
      Cenarios.matriz_estrela ∅ = inl KeyError.
Proof.
  apply (AnalisadorZhang_sem_probabilidade Cenarios.eig_falha
           Cenarios.funcoes_estrela Cenarios.matriz_estrela ∅ "m.f").
  - simpl. lia.
  - left.
  - apply lookup_empty.
Defined.

(** X10: the normalised entropy never exceeds 1; it is 0 for at most one
    function; for two functions or more [H_max = n log10 n] is positive,
    so the result is [min(1, H / H_max)] and the guard [H_max > 0] never
    selects its [0.0]; it is non-negative when [H] is. *)
Theorem entropia_normalizada_limites funcoes (a : Zhang.acoplas)
    (probabilidades : gmap string R) e :
  Zhang._calcular_entropy_model funcoes a probabilidades = inr e →
  (Zhang.H_normalized e <= 1)%R
  ∧ ((length funcoes ≤ 1)%nat → Zhang.H_normalized e = 0%R)
  ∧ ((1 < length funcoes)%nat →
     Zhang.H_normalized e
     = Rmin 1 (Zhang.H_entropy e
               / (INR (length funcoes) * Zhang.log10 (INR (length funcoes)))))
  ∧ ((0 <= Zhang.H_entropy e)%R → (0 <= Zhang.H_normalized e)%R).
Proof.
  unfold Zhang._calcular_entropy_model.
  destruct (foldl _ _ _) as [err|[H det]]; [done|]. simpl.
  intros [= <-]. cbn [Zhang.H_normalized Zhang.H_entropy].
  unfold Zhang.normalizar.
  destruct (decide (1 < length funcoes)%nat) as [Hn|Hn].
  - assert (H1 : (1 < INR (length funcoes))%R) by (apply lt_1_INR; lia).
    destruct (log10_sinal (INR (length funcoes))) as [_ Hlog]; [lra|].
    specialize (Hlog H1).
    assert (Hmax : (0 < INR (length funcoes)
                        * Zhang.log10 (INR (length funcoes)))%R)
      by (apply Rmult_lt_0_compat; lra).
    rewrite decide_True by done.
    split; [apply Rmin_l|]. split; [lia|]. split; [done|].
    intros H0. apply Rmin_glb; [lra|].
    apply Rmult_le_pos; [done|]. left. by apply Rinv_0_lt_compat.
  - split; [lra|]. split; [done|]. split; [lia|]. intros _. lra.
Qed.

Lemma entropia_normalizada_limites_witness :
  ∃ e,
    Zhang._calcular_entropy_model Cenarios.funcoes_estrela
      (Zhang._contar_acoplas Cenarios.matriz_estrela)
      (Main.probabilidades_padrao Cenarios.funcoes_estrela) = inr e
    ∧ (Zhang.H_normalized e <= 1)%R
    ∧ ((length Cenarios.funcoes_estrela ≤ 1)%nat → Zhang.H_normalized e = 0%R)
    ∧ ((1 < length Cenarios.funcoes_estrela)%nat →
       Zhang.H_normalized e
       = Rmin 1 (Zhang.H_entropy e
                 / (INR (length Cenarios.funcoes_estrela)
                    * Zhang.log10 (INR (length Cenarios.funcoes_estrela)))))
    ∧ ((0 <= Zhang.H_entropy e)%R → (0 <= Zhang.H_normalized e)%R).
Proof.
  destruct (_calcular_entropy_model_spec
              (Zhang._contar_acoplas Cenarios.matriz_estrela)
              (Main.probabilidades_padrao Cenarios.funcoes_estrela)
              Cenarios.funcoes_estrela) as (e & He & _).
  - simpl. lia.
  - intros f Hf. unfold Main.probabilidades_padrao.
    rewrite (lookup_list_to_map_const _ _ f Hf). by eexists.
  - exists e. split; [exact He|].
    exact (entropia_normalizada_limites Cenarios.funcoes_estrela
             (Zhang._contar_acoplas Cenarios.matriz_estrela)
             (Main.probabilidades_padrao Cenarios.funcoes_estrela) e He).
Defined.

(** X11: for a square matrix without negative cells the judgment matrix
    is built without an exception, is square, has 1 on its diagonal and
    every cell in (0, 1]. *)
Theorem matriz_julgamento_celulas n (m : list (list Z)) :
  Main.quadrada n m → Forall (Forall (λ x, 0 ≤ x)) m →
  ∃ A, Zhang.matriz_julgamento n m = inr A
       ∧ length A = n
       ∧ ∀ i j, (i < n)%nat → (j < n)%nat →
           ∃ linha v, A !! i = Some linha ∧ linha !! j = Some v
                      ∧ (0 < v <= 1)%R ∧ (i = j → v = 1%R).
Proof.
  intros Hq Hpos. destruct (matriz_julgamento_ok n m Hq) as (A & HA & Hlen).
  exists A. split; [done|]. split; [done|]. intros i j Hi Hj.
  unfold Zhang.matriz_julgamento in HA.
  destruct (mapR_lookup _ _ _ HA i i) as (linha & Hl & Hrow).
  { by apply lookup_seq_lt. }
  destruct (mapR_lookup _ _ _ Hrow j j) as (v & Hv & Hcel).
  { by apply lookup_seq_lt. }
  exists linha, v. split; [done|]. split; [done|].
  by apply (celula_julgamento_intervalo n m).
Qed.

Lemma matriz_julgamento_celulas_witness :
  ∃ A, Zhang.matriz_julgamento 4 Cenarios.matriz_estrela = inr A
       ∧ length A = 4%nat
       ∧ ∀ i j, (i < 4)%nat → (j < 4)%nat →
           ∃ linha v, A !! i = Some linha ∧ linha !! j = Some v
                      ∧ (0 < v <= 1)%R ∧ (i = j → v = 1%R).
Proof.
  apply (matriz_julgamento_celulas 4 Cenarios.matriz_estrela).
  - split; [reflexivity|]. unfold Cenarios.matriz_estrela. by repeat constructor.
  - unfold Cenarios.matriz_estrela. repeat constructor; lia.
Defined.

(** X12: the judgment matrix is built before the [try]: with two
    functions or more and fewer rows in the adjacency matrix than
    functions, the model raises [IndexError] whatever the eigen-solver
    does. *)
Theorem julgamento_IndexError
    (eig : list (list R) → resultado (list R * list (list R)))
    funcoes (m : list (list Z)) (probabilidades : gmap string R) :
  (2 ≤ length funcoes)%nat → (length m < length funcoes)%nat →
  Zhang._calcular_judgment_matrix_model eig funcoes m probabilidades
  = inl IndexError.
Proof.
  intros Hn Hm. unfold Zhang._calcular_judgment_matrix_model.
  set (n := length funcoes) in *.
  assert (HA : Zhang.matriz_julgamento n m = inl IndexError); [|by rewrite HA].
  unfold Zhang.matriz_julgamento.
  assert (Hrow : ∀ i, i ∈ seq 0 n →
            Zhang.mapR (λ j, Zhang.celula_julgamento m i j) (seq 0 n)
              = inl IndexError
            ∨ ∃ y, Zhang.mapR (λ j, Zhang.celula_julgamento m i j) (seq 0 n)
                   = inr y).
  { intros i _.
    destruct (mapR_erro_ou_ok (λ j, Zhang.celula_julgamento m i j) (seq 0 n)
                IndexError) as [[H _]|[H _]]; [|by left|by right].
    intros j _. apply celula_julgamento_erro. }
  destruct (mapR_erro_ou_ok
              (λ i, Zhang.mapR (λ j, Zhang.celula_julgamento m i j) (seq 0 n))
              (seq 0 n) IndexError Hrow) as [[H _]|[_ Hok]]; [done|].
  exfalso. destruct (Hok (length m)) as [linha Hlinha].
  { apply elem_of_seq. lia. }
  set (j := if decide (length m = 0)%nat then 1%nat else 0%nat).
  destruct (mapR_lookup _ _ _ Hlinha j j) as (v & _ & Hcel).
  { apply lookup_seq_lt. unfold j. destruct (decide _); lia. }
  unfold Zhang.celula_julgamento, list_get, Main.matriz in Hcel.
  rewrite decide_False in Hcel by (unfold j; destruct (decide _); lia).
  by rewrite lookup_ge_None_2 in Hcel.
Qed.

Lemma julgamento_IndexError_witness :
  Zhang._calcular_judgment_matrix_model Cenarios.eig_falha
    Cenarios.funcoes_estrela [] ∅ = inl IndexError.
Proof.
  apply (julgamento_IndexError Cenarios.eig_falha Cenarios.funcoes_estrela [] ∅).
  - simpl. lia.
  - simpl. lia.
Defined.

(** ** Bounds and completeness of the depth labeling *)

Lemma pow2_limite k : (INR k + 1 <= 2 ^ k)%R.
Proof.
  induction k as [|k IH]; [simpl; lra|].
  rewrite S_INR. simpl. pose proof (pos_INR k). lra.
Qed.

(** The hierarchical coefficient of a depth that is not negative lies in
    (0, 2]. *)
Lemma hc_de_profundidade_intervalo dep_i :
  0 ≤ dep_i → (0 < Dou.hc_de_profundidade dep_i <= 2)%R.
Proof.
  intros Hd. destruct (decide (dep_i = 0)) as [->|Hne].
  { rewrite hc_de_profundidade_0. lra. }
  unfold Dou.hc_de_profundidade.
  set (k := Z.to_nat (dep_i - 1)).
  assert (Hk : dep_i - 1 = Z.of_nat k) by (unfold k; lia).
  rewrite Hk, <- pow_powerRZ.
  assert (Hd1 : IZR (dep_i + 1) = (INR (S k) + 1)%R).
  { rewrite INR_IZR_INZ, <- plus_IZR. f_equal. lia. }
  rewrite Hd1.
  pose proof (pow2_limite (S k)) as Hlim.
  change (2 ^ S k)%R with (2 * 2 ^ k)%R in Hlim.
  assert (Hp : (0 < 2 ^ k)%R) by (apply pow_lt; lra).
  pose proof (pos_INR (S k)) as Hpos.
  split.
  - apply Rmult_lt_0_compat; [lra|]. apply Rdiv_lt_0_compat; lra.
  - apply (Rmult_le_reg_r (2 ^ k)); [done|].
    unfold Rdiv. rewrite Rmult_assoc, Rmult_assoc, Rinv_l by lra. lra.
Qed.

Section DouFecho.
Import Dou.
Variable variaveis : list string.
Variable var_dependencies : gmap string (gset string).

Lemma visitar_dependente_mono var_atual prof_atual st x :
  visitados st ⊆ visitados
    (visitar_dependente var_dependencies var_atual prof_atual st x)
  ∧ (∀ v, v ∈ fila st →
          v ∈ fila (visitar_dependente var_dependencies var_atual prof_atual st x)).
Proof.
  destruct (visitar_dependente_casos var_dependencies var_atual prof_atual st x)
    as [->|[(ds & _ & _ & _ & ->)|(ds & _ & _ & _ & ->)]]; simpl;
    (split; [set_solver|intros v Hv; set_solver]).
Qed.

Lemma foldl_visitar_mono var_atual prof_atual l st :
  visitados st ⊆ visitados
    (foldl (visitar_dependente var_dependencies var_atual prof_atual) st l).
Proof.
  revert st. induction l as [|x l IH]; intros st; [done|].
  cbn [foldl]. etrans; [|apply IH]. apply visitar_dependente_mono.
Qed.

Lemma visitar_dependente_fecho var_atual prof_atual st x :
  0 ≤ prof_atual →
  inv_fecho variaveis var_dependencies (Some var_atual) st →
  inv_fecho variaveis var_dependencies (Some var_atual)
    (visitar_dependente var_dependencies var_atual prof_atual st x).
Proof.
  intros H0 [F1 F2].
  destruct (visitar_dependente_casos var_dependencies var_atual prof_atual st x)
    as [->|[(ds & _ & _ & Hvis & ->)|(ds & _ & _ & Hvis & ->)]]; [done|..].
  - split; simpl.
    + intros u Hu. destruct (F1 u Hu) as [?|[?|Hd]]; [by left|by right; left|].
      right; right. exact Hd.
    + intros v Hv. destruct (decide (x = v)) as [->|Hne].
      * right. rewrite lookup_insert_eq. eexists. split; [done|]. lia.
      * rewrite lookup_insert_ne by done. by apply F2.
  - split; simpl.
    + intros u Hu. apply elem_of_union in Hu as [Hu|Hu].
      * apply elem_of_singleton in Hu as ->. right; left.
        apply elem_of_app. right. left.
      * destruct (F1 u Hu) as [?|[?|Hd]]; [by left|right; left|right; right].
        -- apply elem_of_app. by left.
        -- intros v ds' Hv Hds Hin. apply elem_of_union. right.
           exact (Hd v ds' Hv Hds Hin).
    + intros v Hv. destruct (decide (x = v)) as [->|Hne].
      * right. rewrite lookup_insert_eq. eexists. split; [done|]. lia.
      * rewrite lookup_insert_ne by done. apply F2.
        apply elem_of_union in Hv as [Hv|Hv]; [|done].
        apply elem_of_singleton in Hv. congruence.
Qed.

Lemma visitar_dependente_marca var_atual prof_atual st x ds :
  var_dependencies !! x = Some ds → var_atual ∈ ds →
  x ∈ visitados (visitar_dependente var_dependencies var_atual prof_atual st x).
Proof.
  intros Hds Hin. unfold visitar_dependente. rewrite Hds.
  rewrite decide_True by done.
  destruct (decide (x ∈ visitados st)); simpl; set_solver.
Qed.

Lemma foldl_visitar_fecho var_atual prof_atual l st :
  0 ≤ prof_atual →
  inv_fecho variaveis var_dependencies (Some var_atual) st →
  inv_fecho variaveis var_dependencies (Some var_atual)
    (foldl (visitar_dependente var_dependencies var_atual prof_atual) st l)
  ∧ ∀ v ds, v ∈ l → var_dependencies !! v = Some ds → var_atual ∈ ds →
      v ∈ visitados
            (foldl (visitar_dependente var_dependencies var_atual prof_atual) st l).
Proof.
  intros H0. revert st. induction l as [|x l IH]; intros st Hinv.
  { split; [done|]. intros v ds Hv. by apply elem_of_nil in Hv. }
  cbn [foldl].
  destruct (IH _ (visitar_dependente_fecho var_atual prof_atual st x H0 Hinv))
    as [IH1 IH2].
  split; [done|]. intros v ds Hv Hds Hin.
  apply elem_of_cons in Hv as [->|Hv]; [|by apply (IH2 v ds)].
  apply foldl_visitar_mono. by apply (visitar_dependente_marca _ _ _ _ ds).
Qed.

Lemma bfs_fecho fuel st :
  inv_limites variaveis st →
  inv_fecho variaveis var_dependencies None st →
  inv_fecho variaveis var_dependencies None
    (bfs fuel variaveis var_dependencies st).
Proof.
  revert st. induction fuel as [|fuel IH]; intros st Hlim Hinv; [done|].
  simpl. destruct (fila st) as [|v q] eqn:Hf; [done|].
  set (st1 := {| profundidades := profundidades st;
                 visitados := visitados st; fila := q |}).
  assert (Hlim' : inv_limites variaveis
                    (passo variaveis var_dependencies v st1)).
  { pose proof (bfs_limites variaveis var_dependencies 1 st Hlim) as H.
    simpl in H. rewrite Hf in H. exact H. }
  apply IH; [exact Hlim'|].
  destruct Hlim as (I1 & I2 & I3). destruct Hinv as [F1 F2].
  assert (Hv : v ∈ variaveis) by (apply I1; rewrite Hf; left).
  destruct (I2 v Hv) as [y Hy]. destruct (I3 v y Hy) as [Hy0 _].
  assert (Hinv1 : inv_fecho variaveis var_dependencies (Some v) st1).
  { split; simpl.
    - intros u Hu. destruct (F1 u Hu) as [?|[Hq|Hd]]; [done| |by right; right].
      rewrite Hf in Hq. apply elem_of_cons in Hq as [->|Hq];
        [by left|by right; left].
    - exact F2. }
  unfold passo. cbn [profundidades st1].
  rewrite (lookup_total_correct _ _ _ Hy).
  destruct (foldl_visitar_fecho v y variaveis st1 Hy0 Hinv1) as [[G1 G2] Hm].
  split; [|exact G2].
  intros u Hu. destruct (G1 u Hu) as [Hp|[?|?]]; [|by right; left|by right; right].
  injection Hp as ->. right; right.
  intros w ds Hw Hds Hin. exact (Hm w ds Hw Hds Hin).
Qed.

Lemma fecho_inicial fila0 :
  fila0 ≡ₚ elements (nos_raiz variaveis var_dependencies) →
  inv_fecho variaveis var_dependencies None
    (estado_inicial variaveis var_dependencies fila0).
Proof.
  intros Hp. split; simpl.
  - intros u Hu. right; left. rewrite Hp. by apply elem_of_elements.
  - intros v Hv. left. unfold nos_raiz in Hv.
    apply elem_of_list_to_set, list_elem_of_filter in Hv. by destruct Hv.
Qed.

Lemma bfs_visitados_mono fuel st :
  visitados st ⊆ visitados (bfs fuel variaveis var_dependencies st).
Proof.
  revert st. induction fuel as [|fuel IH]; intros st; [done|].
  simpl. destruct (fila st) as [|v q]; [done|].
  etrans; [|apply IH]. unfold passo.
  exact (foldl_visitar_mono v _ variaveis
           {| profundidades := profundidades st;
              visitados := visitados st; fila := q |}).
Qed.

(** When the loop ends, every variable that can be dequeued has been
    visited. *)
Lemma alcancavel_visitado fila0 v :
  fila0 ≡ₚ elements (nos_raiz variaveis var_dependencies) →
  alcancavel variaveis var_dependencies v →
  v ∈ visitados (bfs (length variaveis) variaveis var_dependencies
                   (estado_inicial variaveis var_dependencies fila0)).
Proof.
  intros Hp Halc.
  pose proof (bfs_fecho (length variaveis) _
                (limites_iniciais variaveis var_dependencies fila0 Hp)
                (fecho_inicial fila0 Hp)) as [F1 _].
  pose proof (bfs_termina variaveis var_dependencies fila0 Hp) as Hfim.
  induction Halc as [v Hv Hr|u v ds _ IH Hv Hds Hin].
  - apply bfs_visitados_mono. simpl. unfold nos_raiz.
    apply elem_of_list_to_set, list_elem_of_filter. done.
  - destruct (F1 u IH) as [?|[Hq|Hd]]; [done| |].
    + rewrite Hfim in Hq. by apply elem_of_nil in Hq.
    + exact (Hd v ds Hv Hds Hin).
Qed.

(** A variable that can be dequeued and is no root ends with a depth of
    at least 1. *)
Lemma profundidade_alcancavel fila0 v :
  fila0 ≡ₚ elements (nos_raiz variaveis var_dependencies) →
  alcancavel variaveis var_dependencies v →
  eh_raiz var_dependencies v = false →
  ∃ x, _calcular_profundidades_arvore variaveis var_dependencies fila0 !! v
       = Some x ∧ 1 ≤ x.
Proof.
  intros Hp Halc Hr.
  pose proof (bfs_fecho (length variaveis) _
                (limites_iniciais variaveis var_dependencies fila0 Hp)
                (fecho_inicial fila0 Hp)) as [_ F2].
  destruct (F2 v (alcancavel_visitado fila0 v Hp Halc)) as [?|?]; [congruence|done].
Qed.

End DouFecho.

(** ** The VRM analyser as a whole *)

Lemma raizes_cadeia :
  elements (Dou.nos_raiz Cenarios.variaveis_cadeia Cenarios.dependencias_cadeia)
  = ["rr"].
Proof. vm_compute. reflexivity. Qed.

Lemma cadeia_aa_alcancavel :
  Dou.alcancavel Cenarios.variaveis_cadeia Cenarios.dependencias_cadeia "aa".
Proof.
  apply (Dou.alc_passo _ _ "rr" "aa" {["rr"]}).
  - apply Dou.alc_raiz; [left|]. vm_compute. reflexivity.
  - right. left.
  - vm_compute. reflexivity.
  - by apply elem_of_singleton.
Qed.

Section DouItens.
Import Dou.

Lemma foldl_passo_vrm_itens d c (fm fs fh : string → R) l a0 :
  (∀ var, var ∈ l →
     mc_values c !! var = Some (fm var)
     ∧ sc_values c !! var = Some (fs var)
     ∧ hc_values c !! var = Some (fh var)) →
  ∃ a, foldl (passo_vrm d c) (ret a0) l = inr a
       ∧ itens a
         = itens a0
           ++ ((λ var, {| variavel := var; xi := frequencia d var;
                          mc := fm var; sc := fs var; hc := fh var;
                          acoplamento := (fm var + fs var + fh var)%R |}) <$> l)
       ∧ acoplamento_total a
         = (acoplamento_total a0
            + soma_R ((λ var, fm var + fs var + fh var)%R <$> l))%R.
Proof.
  revert a0. induction l as [|x l IH]; intros a0 Hl.
  - exists a0. simpl. split; [done|]. split; [by rewrite app_nil_r|lra].
  - destruct (Hl x) as (Hm & Hs & Hh); [left|].
    cbn [foldl]. unfold passo_vrm at 2. unfold dict_get.
    rewrite Hm, Hs, Hh. simpl bind.
    destruct (IH {| acoplamento_total :=
                      (acoplamento_total a0 + (fm x + fs x + fh x))%R;
                    sc_total := (sc_total a0 + fs x)%R;
                    hc_total := (hc_total a0 + fh x)%R;
                    itens := itens a0 ++
                      [ {| variavel := x; xi := frequencia d x;
                           mc := fm x; sc := fs x; hc := fh x;
                           acoplamento := (fm x + fs x + fh x)%R |} ] |})
      as (a & Ha & Hit & Ht); [intros; apply Hl; by right|].
    exists a. split; [exact Ha|]. rewrite Hit, Ht.
    cbn [acoplamento_total itens]. rewrite !fmap_cons, <- app_assoc.
    split; [done|]. unfold soma_R. cbn [foldr]. lra.
Qed.

End DouItens.

(** X13: the [while fila] loop of [_calcular_profundidades_arvore] ends:
    after as many turns as there are variables the queue is empty, and
    further turns change nothing. *)
Theorem profundidades_laco_termina variaveis
    (var_dependencies : gmap string (gset string)) fila0 k :
  fila0 ≡ₚ elements (Dou.nos_raiz variaveis var_dependencies) →
  Dou.fila (Dou.bfs (length variaveis) variaveis var_dependencies
              (Dou.estado_inicial variaveis var_dependencies fila0)) = []
  ∧ Dou.bfs (length variaveis + k) variaveis var_dependencies
      (Dou.estado_inicial variaveis var_dependencies fila0)
    = Dou.bfs (length variaveis) variaveis var_dependencies
        (Dou.estado_inicial variaveis var_dependencies fila0).
Proof.
  intros Hp. pose proof (bfs_termina variaveis var_dependencies fila0 Hp) as H.
  split; [exact H|]. rewrite bfs_soma. by apply bfs_fila_vazia_id.
Qed.

Lemma profundidades_laco_termina_witness :
  Dou.fila (Dou.bfs (length Cenarios.variaveis_cadeia) Cenarios.variaveis_cadeia
              Cenarios.dependencias_cadeia
              (Dou.estado_inicial Cenarios.variaveis_cadeia
                 Cenarios.dependencias_cadeia ["rr"])) = []
  ∧ Dou.bfs (length Cenarios.variaveis_cadeia + 7) Cenarios.variaveis_cadeia
      Cenarios.dependencias_cadeia
      (Dou.estado_inicial Cenarios.variaveis_cadeia
         Cenarios.dependencias_cadeia ["rr"])
    = Dou.bfs (length Cenarios.variaveis_cadeia) Cenarios.variaveis_cadeia
        Cenarios.dependencias_cadeia
        (Dou.estado_inicial Cenarios.variaveis_cadeia
           Cenarios.dependencias_cadeia ["rr"]).
Proof.
  apply (profundidades_laco_termina Cenarios.variaveis_cadeia
           Cenarios.dependencias_cadeia ["rr"] 7).
  rewrite raizes_cadeia. reflexivity.
Defined.

(** X14: every variable gets a depth between 0 and the number of
    variables, cycles and the update to a longer path included, and a
    hierarchical coefficient in (0, 2]. *)
Theorem coeficiente_hierarquico_intervalo d mcs deps fila0 c var :
  fila0 ≡ₚ elements (Dou.nos_raiz (Dou.keys d) deps) →
  Dou._calcular_coeficientes d mcs deps fila0 = inr c →
  var ∈ Dou.keys d →
  ∃ dep_i h,
    Dou._calcular_profundidades_arvore (Dou.keys d) deps fila0 !! var
      = Some dep_i
    ∧ 0 ≤ dep_i ≤ Z.of_nat (length d)
    ∧ Dou.hc_values c !! var = Some h
    ∧ (0 < h <= 2)%R.
Proof.
  intros Hp Hc Hvar.
  destruct (_calcular_coeficientes_hc d mcs deps fila0 c var Hc Hvar)
    as (dep_i & Hdep & Hh).
  pose proof (profundidade_limites (Dou.keys d) deps fila0 var dep_i Hp Hdep)
    as Hlim.
  assert (Hlen : length (Dou.keys d) = length d)
    by (unfold Dou.keys; by rewrite length_fmap).
  rewrite Hlen in Hlim.
  exists dep_i, (Dou.hc_de_profundidade dep_i).
  split; [done|]. split; [done|]. split; [done|].
  apply hc_de_profundidade_intervalo. lia.
Qed.

Lemma coeficiente_hierarquico_intervalo_witness :
  ∃ c,
    Dou._calcular_coeficientes Cenarios.variaveis_ciclo ∅
      Cenarios.dependencias_ciclo ["m.f::rr"] = inr c
    ∧ ∃ dep_i h,
        Dou._calcular_profundidades_arvore (Dou.keys Cenarios.variaveis_ciclo)
          Cenarios.dependencias_ciclo ["m.f::rr"] !! "m.f::bb" = Some dep_i
        ∧ 0 ≤ dep_i ≤ Z.of_nat (length Cenarios.variaveis_ciclo)
        ∧ Dou.hc_values c !! "m.f::bb" = Some h
        ∧ (0 < h <= 2)%R.
Proof.
  destruct (_calcular_coeficientes_ok Cenarios.variaveis_ciclo ∅
              Cenarios.dependencias_ciclo ["m.f::rr"]) as [c Hc];
    [done|simpl; lia|vm_compute; reflexivity|].
  exists c. split; [exact Hc|].
  apply (coeficiente_hierarquico_intervalo Cenarios.variaveis_ciclo ∅
           Cenarios.dependencias_ciclo ["m.f::rr"] c "m.f::bb").
  - vm_compute. reflexivity.
  - exact Hc.
  - vm_compute. right. right. left.
Defined.

(** X15: a variable linked to a root by a chain of dependencies, and
    not a root itself, is visited by the loop and ends with a depth of
    at least 1; so depth 0 is left to the roots and to the variables no
    chain reaches. *)
Theorem profundidade_de_alcancavel variaveis
    (var_dependencies : gmap string (gset string)) fila0 v :
  fila0 ≡ₚ elements (Dou.nos_raiz variaveis var_dependencies) →
  Dou.alcancavel variaveis var_dependencies v →
  Dou.eh_raiz var_dependencies v = false →
  v ∈ Dou.visitados
        (Dou.bfs (length variaveis) variaveis var_dependencies
           (Dou.estado_inicial variaveis var_dependencies fila0))
  ∧ ∃ x, Dou._calcular_profundidades_arvore variaveis var_dependencies fila0
           !! v = Some x
         ∧ 1 ≤ x ≤ Z.of_nat (length variaveis).
Proof.
  intros Hp Halc Hr.
  split; [by apply alcancavel_visitado|].
  destruct (profundidade_alcancavel variaveis var_dependencies fila0 v Hp Halc Hr)
    as (x & Hx & H1).
  exists x. split; [done|].
  pose proof (profundidade_limites variaveis var_dependencies fila0 v x Hp Hx).
  lia.
Qed.

Lemma profundidade_de_alcancavel_witness :
  "aa" ∈ Dou.visitados
           (Dou.bfs (length Cenarios.variaveis_cadeia) Cenarios.variaveis_cadeia
              Cenarios.dependencias_cadeia
              (Dou.estado_inicial Cenarios.variaveis_cadeia
                 Cenarios.dependencias_cadeia ["rr"]))
  ∧ ∃ x, Dou._calcular_profundidades_arvore Cenarios.variaveis_cadeia
           Cenarios.dependencias_cadeia ["rr"] !! "aa" = Some x
         ∧ 1 ≤ x ≤ Z.of_nat (length Cenarios.variaveis_cadeia).
Proof.
  apply (profundidade_de_alcancavel Cenarios.variaveis_cadeia
           Cenarios.dependencias_cadeia ["rr"] "aa").
  - rewrite raizes_cadeia. reflexivity.
  - exact cadeia_aa_alcancavel.
  - vm_compute. reflexivity.
Defined.

(** X16: the exceptions of [AnalisadorDou].  On the empty dictionary it
    raises [ValueError], from the statistics print of
    [_calcular_coeficientes]; [_calcular_acoplamento_vrm] alone would
    raise [ZeroDivisionError] there, its mean [acoplamento_total / self.n]
    being unguarded.  The expression [2.0 ** (dep_i - 1)] raises
    [OverflowError] from depth 1025 on.  On a non-empty dictionary: the
    constructor returns when there are at most 1024 variables and the
    queue starts with the roots; when it raises, the exception is
    [OverflowError] and some variable has a depth of 1025 or more; and
    when it returns every depth is between 0 and 1024. *)
Theorem AnalisadorDou_excecoes (d : Dou.variaveis_dict)
    (mcs : gmap string R) (deps : gmap string (gset string)) fila0 :
  (d = [] → Dou.AnalisadorDou d mcs deps fila0 = inl ValueError
            ∧ ∀ c, Dou._calcular_acoplamento_vrm d c = inl ZeroDivisionError)
  ∧ (∀ dep_i, 1025 ≤ dep_i → Dou.calcular_hc dep_i = inl OverflowError)
  ∧ (d ≠ [] →
     (fila0 ≡ₚ elements (Dou.nos_raiz (Dou.keys d) deps) →
      (length d ≤ 1024)%nat →
      ∃ c v, Dou.AnalisadorDou d mcs deps fila0 = inr (c, v))
     ∧ (∀ e, Dou.AnalisadorDou d mcs deps fila0 = inl e →
          e = OverflowError
          ∧ ∃ var dep_i,
              var ∈ Dou.keys d
              ∧ Dou._calcular_profundidades_arvore (Dou.keys d) deps fila0
                  !! var = Some dep_i
              ∧ 1025 ≤ dep_i)
     ∧ (∀ c v var dep_i,
          Dou.AnalisadorDou d mcs deps fila0 = inr (c, v) →
          var ∈ Dou.keys d →
          Dou._calcular_profundidades_arvore (Dou.keys d) deps fila0 !! var
            = Some dep_i →
          0 ≤ dep_i ≤ 1024)).
Proof.
  split; [|split].
  - intros ->. split; [reflexivity|]. intros c. reflexivity.
  - apply calcular_hc_OverflowError.
  - intros Hd. split; [|split].
    + intros Hp Hn. destruct (AnalisadorDou_spec d mcs deps fila0 Hd Hn Hp)
        as (c & v & H & _). by exists c, v.
    + intros e He. exact (AnalisadorDou_inl d mcs deps fila0 e Hd He).
    + intros c v var dep_i Hret Hvar Hdep.
      apply AnalisadorDou_inr in Hret as [_ Hc].
      pose proof (_calcular_coeficientes_limite _ _ _ _ _ _ _ Hc Hvar Hdep).
      pose proof (profundidade_nao_negativa _ _ _ _ _ Hdep). lia.
Qed.

(** The theorem at a root and a two-variable cycle. *)
Lemma AnalisadorDou_excecoes_witness :
  ∃ c v,
    Dou.AnalisadorDou Cenarios.variaveis_ciclo ∅ Cenarios.dependencias_ciclo
      ["m.f::rr"] = inr (c, v).
Proof.
  destruct (AnalisadorDou_excecoes Cenarios.variaveis_ciclo ∅
              Cenarios.dependencias_ciclo ["m.f::rr"]) as (_ & _ & H).
  destruct H as (H & _); [discriminate|].
  apply H; [vm_compute; reflexivity|simpl; lia].
Defined.

(** X17: when [AnalisadorDou] returns, the report has one row per
    variable, in the order of the dictionary; a row holds the use count,
    the manual coefficient or 1.0, the use count plus the deviation, which
    is not below the use count, and the hierarchical coefficient, and its
    coupling is their sum; [C_vrm] is the sum of the rows' couplings and
    [C_medio] times the number of variables gives it back.  It returns on
    a non-empty dictionary of at most 1024 variables, with a queue that
    starts with the roots. *)
Theorem AnalisadorDou_detalhado (d : Dou.variaveis_dict)
    (mcs : gmap string R) (deps : gmap string (gset string)) fila0 :
  (d ≠ [] → (length d ≤ 1024)%nat →
   fila0 ≡ₚ elements (Dou.nos_raiz (Dou.keys d) deps) →
   ∃ c v, Dou.AnalisadorDou d mcs deps fila0 = inr (c, v))
  ∧ (∀ c v,
       Dou.AnalisadorDou d mcs deps fila0 = inr (c, v) →
       Dou.variavel <$> Dou.detalhado v = Dou.keys d
       ∧ Forall (λ it,
           Dou.xi it = Dou.frequencia d (Dou.variavel it)
           ∧ Dou.mc it = default 1%R (mcs !! Dou.variavel it)
           ∧ Dou.sc it = (IZR (Dou.xi it) + Dou.desvio_de d)%R
           ∧ (IZR (Dou.xi it) <= Dou.sc it)%R
           ∧ Dou.hc_values c !! Dou.variavel it = Some (Dou.hc it)
           ∧ Dou.acoplamento it = (Dou.mc it + Dou.sc it + Dou.hc it)%R)
           (Dou.detalhado v)
       ∧ Dou.C_vrm v = soma_R (Dou.acoplamento <$> Dou.detalhado v)
       ∧ (Dou.C_medio v * INR (length d) = Dou.C_vrm v)%R).
Proof.
  split.
  { intros Hd Hn Hp. destruct (AnalisadorDou_spec d mcs deps fila0 Hd Hn Hp)
      as (c & v & H & _). by exists c, v. }
  intros c v Hret0.
  destruct (AnalisadorDou_inr _ _ _ _ _ _ Hret0) as [Hd Hc0].
  destruct (AnalisadorDou_spec_de d mcs deps fila0 c Hd Hc0)
    as (v0 & Hret & Hcoef & _ & Hmed & _).
  assert (v0 = v) as -> by (rewrite Hret0 in Hret; by injection Hret).
  unfold Dou.AnalisadorDou in Hret.
  apply bind_inr in Hret as (c' & Hc & Hret).
  apply bind_inr in Hret as (v' & Hv & Hret). injection Hret as -> ->.
  destruct (foldl_passo_vrm_itens d c
              (λ var, default 1%R (mcs !! var))
              (λ var, (IZR (Dou.frequencia d var) + Dou.desvio_de d)%R)
              (λ var, default 0%R (Dou.hc_values c !! var))
              (Dou.keys d) Dou.acumulador_inicial)
    as (a & Ha & Hit & Ht).
  { intros var Hvar. destruct (Hcoef var Hvar) as (Hm & Hs & dep & _ & Hh).
    rewrite Hm, Hs, Hh. done. }
  unfold Dou._calcular_acoplamento_vrm in Hv. rewrite Ha in Hv. simpl in Hv.
  destruct (decide (length (Dou.keys d) = 0%nat)) as [|Hn]; [done|].
  injection Hv as <-. cbn [Dou.detalhado Dou.C_vrm Dou.C_medio] in *.
  rewrite Hit, Ht. cbn [Dou.itens Dou.acoplamento_total Dou.acumulador_inicial].
  rewrite app_nil_l, <- !list_fmap_compose.
  split; [by rewrite list_fmap_id|]. split.
  - apply Forall_fmap, Forall_forall. intros var Hvar. simpl.
    destruct (Hcoef var Hvar) as (_ & _ & dep & _ & Hh).
    pose proof (desvio_padrao_nao_negativo
                  ((λ var, IZR (Dou.frequencia d var)) <$> Dou.keys d)) as Hs.
    fold (Dou.desvio_de d) in Hs.
    rewrite Hh. simpl. repeat split; try done. lra.
  - split; [rewrite Rplus_0_l; reflexivity|].
    assert (Hlen : length (Dou.keys d) = length d)
      by (unfold Dou.keys; by rewrite length_fmap).
    rewrite Hlen.
    assert (Hpos : (0 < INR (length d))%R) by (apply lt_0_INR; destruct d; simpl; [done|lia]).
    field. lra.
Qed.

Lemma AnalisadorDou_detalhado_witness :
  ∃ c v,
    Dou.AnalisadorDou Cenarios.variaveis_ciclo ∅ Cenarios.dependencias_ciclo
      ["m.f::rr"] = inr (c, v)
    ∧ Dou.variavel <$> Dou.detalhado v = Dou.keys Cenarios.variaveis_ciclo
    ∧ Forall (λ it,
        Dou.xi it = Dou.frequencia Cenarios.variaveis_ciclo (Dou.variavel it)
        ∧ Dou.mc it = default 1%R ((∅ : gmap string R) !! Dou.variavel it)
        ∧ Dou.sc it = (IZR (Dou.xi it) + Dou.desvio_de Cenarios.variaveis_ciclo)%R
        ∧ (IZR (Dou.xi it) <= Dou.sc it)%R
        ∧ Dou.hc_values c !! Dou.variavel it = Some (Dou.hc it)
        ∧ Dou.acoplamento it = (Dou.mc it + Dou.sc it + Dou.hc it)%R)
        (Dou.detalhado v)
    ∧ Dou.C_vrm v = soma_R (Dou.acoplamento <$> Dou.detalhado v)
    ∧ (Dou.C_medio v * INR (length Cenarios.variaveis_ciclo) = Dou.C_vrm v)%R.
Proof.
  destruct (AnalisadorDou_detalhado Cenarios.variaveis_ciclo ∅
              Cenarios.dependencias_ciclo ["m.f::rr"]) as [H1 H2].
  destruct H1 as (c & v & Hret);
    [discriminate|simpl; lia|vm_compute; reflexivity|].
  exists c, v. split; [exact Hret|]. exact (H2 c v Hret).
Defined.

(** ** The visitor and the couplings of [analisador_coupling_briand.py] *)

Section VisitorAcrescenta.
Import Ast Briand.
Variable dump : node → string.

Lemma so_acrescenta_comp (F G : CouplingVisitor → CouplingVisitor) :
  so_acrescenta F → so_acrescenta G → so_acrescenta (λ st, G (F st)).
Proof.
  intros HF HG st. destruct (HF st) as [F1 F2].
  destruct (HG (F st)) as [G1 G2].
  destruct (HF {| current_function := current_function st; calls := [] |})
    as [F1' F2'].
  destruct (HG (F {| current_function := current_function st; calls := [] |}))
    as [G1' G2'].
  simpl in *. split; [congruence|].
  rewrite G2, F2, G2', F1, F1', <- app_assoc. done.
Qed.

Lemma so_acrescenta_foldl (l : list node) :
  Forall (λ n, so_acrescenta (visit dump n)) l →
  so_acrescenta (λ st, foldl (λ s c, visit dump c s) st l).
Proof.
  induction 1 as [|x l Hx _ IH].
  - intros st. simpl. by rewrite app_nil_r.
  - cbn [foldl].
    exact (so_acrescenta_comp (visit dump x)
             (λ st, foldl (λ s c, visit dump c s) st l) Hx IH).
Qed.

Lemma so_acrescenta_registrar func args :
  so_acrescenta (λ st, registrar dump st func args).
Proof.
  intros st. unfold registrar. cbn [current_function calls].
  destruct (current_function st) as [f|] eqn:Hcf.
  2: { split; [done|by rewrite app_nil_r]. }
  destruct func; try (split; [done|by rewrite app_nil_r]).
  destruct (decide (f = "")); simpl; (split; [done|]);
    [by rewrite app_nil_r|done].
Qed.

Lemma so_acrescenta_visit n : so_acrescenta (visit dump n).
Proof.
  induction n as [id|value attr IH|func args kws IHf IHa IHk|name ch IH|ch IH]
    using node_ind_filhos.
  - intros st. simpl. by rewrite app_nil_r.
  - exact IH.
  - pose proof (so_acrescenta_registrar func args) as H1.
    pose proof (so_acrescenta_comp _ _ H1 IHf) as H2.
    pose proof (so_acrescenta_comp _ _ H2 (so_acrescenta_foldl args IHa)) as H3.
    exact (so_acrescenta_comp _ _ H3 (so_acrescenta_foldl kws IHk)).
  - intros st. cbn [visit]. simpl. split; [done|].
    destruct (so_acrescenta_foldl ch IH
                {| current_function := Some name; calls := calls st |})
      as [_ H]. exact H.
  - exact (so_acrescenta_foldl ch IH).
Qed.

End VisitorAcrescenta.

Lemma foldl_Rplus_soma (l : list R) (x : R) :
  foldl Rplus x l = (x + soma_R l)%R.
Proof.
  revert x. induction l as [|y l IH]; intros x; simpl.
  - unfold soma_R. simpl. lra.
  - rewrite IH. change (soma_R (y :: l)) with (y + soma_R l)%R. lra.
Qed.

Lemma ocorrencias_elem d (cs : list (string * string * list string)) r :
  r ∈ cs → d ∈ r.2 → (1 ≤ Briand.ocorrencias d cs)%nat.
Proof.
  intros Hr Hd. unfold Briand.ocorrencias.
  assert (Hin : d ∈ filter (λ x, x = d) (cs ≫= snd)).
  { apply list_elem_of_filter. split; [done|].
    apply list_elem_of_bind. by exists r. }
  destruct (filter _ _); [by apply elem_of_nil in Hin|simpl; lia].
Qed.

Lemma length_criar_ecs cnt (cs : list (string * string * list string)) :
  length (Briand.criar_ecs cnt [] cs) = length (cs ≫= snd).
Proof.
  rewrite criar_ecs_spec, app_nil_l.
  induction cs as [|r l IH]; [done|].
  rewrite !bind_cons, !length_app, IH, length_fmap. done.
Qed.

(** X18: visiting a node leaves [current_function] as it was, keeps the
    records already made in their order, and appends records that do not
    depend on the earlier ones. *)
Theorem visit_so_acrescenta (dump : Ast.node → string) (n : Ast.node)
    (st : Briand.CouplingVisitor) :
  Briand.current_function (Briand.visit dump n st) = Briand.current_function st
  ∧ Briand.calls (Briand.visit dump n st)
    = Briand.calls st
      ++ Briand.calls
           (Briand.visit dump n
              {| Briand.current_function := Briand.current_function st;
                 Briand.calls := [] |}).
Proof. exact (so_acrescenta_visit dump n st). Qed.

(** X19: [analyze_source] builds one elementary coupling per argument of
    a recorded call; each has [C = PC = 1], its [N] is the number of
    times its datum is passed in the recorded calls of that source, and
    its value equals [N] and is at least 1. *)
Theorem analyze_source_valores (dump : Ast.node → string) (tree : Ast.node) :
  length (Briand.analyze_source dump [] tree)
  = length (Briand.calls (Briand.visit dump tree Briand.CouplingVisitor_init)
              ≫= snd)
  ∧ Forall (λ ec,
      Briand.C ec = 1%R ∧ Briand.PC ec = 1%R
      ∧ Briand.N ec
        = INR (Briand.ocorrencias (Briand.data_name ec)
                 (Briand.calls
                    (Briand.visit dump tree Briand.CouplingVisitor_init)))
      ∧ Briand.value ec = Briand.N ec
      ∧ (1 <= Briand.value ec)%R)
      (Briand.analyze_source dump [] tree).
Proof.
  unfold Briand.analyze_source.
  set (cs := Briand.calls (Briand.visit dump tree Briand.CouplingVisitor_init)).
  split.
  - apply length_criar_ecs.
  - apply Forall_forall. intros ec Hec.
    apply elem_of_criar_ecs in Hec as (src & tgt & args & d & Hr & Hd & ->).
    unfold Briand.ec_de. simpl.
    rewrite contar_usos_spec, <- INR_IZR_INZ.
    pose proof (ocorrencias_elem d cs (src, tgt, args) Hr Hd) as H1.
    apply le_INR in H1. simpl in H1.
    repeat split; try done; lra.
Qed.

(** X20: [analyze_source] keeps the couplings the analyser already holds
    and appends those of the new source; [N] is counted inside that
    source only, so earlier couplings are not revised. *)
Theorem analyze_source_acumula (dump : Ast.node → string)
    (elementary : list Briand.ElementaryCoupling) (tree : Ast.node) :
  Briand.analyze_source dump elementary tree
  = elementary ++ Briand.analyze_source dump [] tree.
Proof.
  unfold Briand.analyze_source. by rewrite !criar_ecs_spec, app_nil_l.
Qed.

(** X21: [aggregate_by_module] splits the couplings by calling function:
    the entry of [m] is named [m] and holds, in order, exactly the
    couplings whose source is [m], at least one; every coupling is in the
    entry of its source; and the total of an entry is the sum of its
    couplings' values. *)
Theorem aggregate_by_module_particao
    (elementary : list Briand.ElementaryCoupling) :
  (∀ m mc, Briand.aggregate_by_module elementary !! m = Some mc →
     Briand.element mc = m
     ∧ Briand.elementary mc = filter (λ ec, Briand.source ec = m) elementary
     ∧ Briand.elementary mc ≠ []
     ∧ Briand.total_coupling mc = soma_R (Briand.value <$> Briand.elementary mc))
  ∧ (∀ ec, ec ∈ elementary →
       ∃ mc, Briand.aggregate_by_module elementary !! Briand.source ec = Some mc
             ∧ ec ∈ Briand.elementary mc).
Proof.
  split.
  - intros m mc Hmc. rewrite aggregate_by_module_spec in Hmc.
    destruct (filter _ elementary) as [|e0 l0] eqn:Hf; [done|].
    injection Hmc as <-. simpl. repeat split; try done.
    unfold Briand.total_coupling. simpl.
    rewrite foldl_Rplus_soma.
    change (soma_R (Briand.value e0 :: (Briand.value <$> l0)))
      with (Briand.value e0 + soma_R (Briand.value <$> l0))%R. lra.
  - intros ec Hec. rewrite aggregate_by_module_spec.
    assert (Hin : ec ∈ filter (λ e, Briand.source e = Briand.source ec) elementary)
      by (by apply list_elem_of_filter).
    destruct (filter _ elementary) as [|e0 l0] eqn:Hf;
      [by apply elem_of_nil in Hin|].
    eexists. split; [done|]. exact Hin.
Qed.

(** ** Totals: the VRM coupling and the number of directed couplings *)

Lemma soma_R_positiva (f : string → R) l :
  l ≠ [] → (∀ x, x ∈ l → 0 < f x)%R → (0 < soma_R (f <$> l))%R.
Proof.
  intros Hne Hl. destruct l as [|x l]; [done|].
  rewrite fmap_cons. change (soma_R (f x :: (f <$> l))) with (f x + soma_R (f <$> l))%R.
  assert (0 < f x)%R by (apply Hl; left).
  assert (0 * INR (length l) <= soma_R (f <$> l))%R.
  { apply soma_R_limite. intros y Hy. left. apply Hl. by right. }
  lra.
Qed.

Lemma soma_R_limite_superior (f : string → R) (k : R) l :
  (∀ x, x ∈ l → f x <= k)%R → (soma_R (f <$> l) <= k * INR (length l))%R.
Proof.
  induction l as [|x l IH]; intros Hl.
  - simpl. unfold soma_R. simpl. lra.
  - rewrite fmap_cons. cbn [length]. rewrite S_INR.
    change (soma_R (f x :: (f <$> l))) with (f x + soma_R (f <$> l))%R.
    assert (f x <= k)%R by (apply Hl; left).
    assert (soma_R (f <$> l) <= k * INR (length l))%R
      by (apply IH; intros; apply Hl; by right).
    lra.
Qed.

Lemma soma_Z_indicador (s : gset string) (fo : list string) :
  NoDup fo → (∀ g, g ∈ s → g ∈ fo) →
  soma_Z ((λ fj, if decide (fj ∈ s) then 1 else 0) <$> fo) = Z.of_nat (size s).
Proof.
  intros Hnd Hs.
  assert (Hlen : soma_Z ((λ fj, if decide (fj ∈ s) then 1 else 0) <$> fo)
                 = Z.of_nat (length (filter (λ fj, fj ∈ s) fo))).
  { clear Hnd Hs. induction fo as [|x l IH]; [done|].
    rewrite fmap_cons.
    change (soma_Z (?a :: ?b)) with (a + soma_Z b). rewrite IH.
    destruct (decide (x ∈ s)).
    - rewrite filter_cons_True by done. simpl. lia.
    - rewrite filter_cons_False by done. lia. }
  rewrite Hlen. f_equal. unfold size, set_size. simpl.
  apply Permutation_length, NoDup_Permutation.
  - by apply NoDup_filter.
  - apply NoDup_elements.
  - intros x. rewrite list_elem_of_filter, elem_of_elements. naive_solver.
Qed.

(** X22: with use counts that are not negative, manual coefficients
    that are positive and a queue that starts with the roots, the VRM
    model returns when there are between 1 and 1024 variables, and
    whenever it returns the total coupling and the mean coupling are
    positive, the mean hierarchical coefficient is in (0, 2] and the mean
    standard coefficient is not negative. *)
Theorem acoplamento_vrm_positivo (d : Dou.variaveis_dict)
    (mcs : gmap string R) (deps : gmap string (gset string)) fila0 :
  fila0 ≡ₚ elements (Dou.nos_raiz (Dou.keys d) deps) →
  (∀ var x, (var, x) ∈ d → 0 ≤ x) →
  (∀ var k, mcs !! var = Some k → (0 < k)%R) →
  (d ≠ [] → (length d ≤ 1024)%nat →
   ∃ c v, Dou.AnalisadorDou d mcs deps fila0 = inr (c, v))
  ∧ (∀ c v,
       Dou.AnalisadorDou d mcs deps fila0 = inr (c, v) →
       (0 < Dou.C_vrm v)%R
       ∧ (0 < Dou.C_medio v)%R
       ∧ (0 < Dou.HC_medio v <= 2)%R
       ∧ (0 <= Dou.SC_medio v)%R).
Proof.
  intros Hp Hfreq Hmc. split.
  { intros Hd Hn. destruct (AnalisadorDou_spec d mcs deps fila0 Hd Hn Hp)
      as (c & v & H & _). by exists c, v. }
  intros c v Hret0.
  destruct (AnalisadorDou_inr _ _ _ _ _ _ Hret0) as [Hd Hc].
  destruct (AnalisadorDou_spec_de d mcs deps fila0 c Hd Hc)
    as (v0 & Hret & Hcoef & HC & Hmed & HHC & HSC & _).
  assert (v0 = v) as -> by (rewrite Hret0 in Hret; by injection Hret).
  assert (Hk : Dou.keys d ≠ []) by (by destruct d).
  assert (Hn : (0 < INR (length d))%R)
    by (apply lt_0_INR; destruct d; simpl; [done|lia]).
  assert (Hlen : length (Dou.keys d) = length d)
    by (unfold Dou.keys; by rewrite length_fmap).
  assert (Hh : ∀ var, var ∈ Dou.keys d →
            (0 < default 0 (Dou.hc_values c !! var) <= 2)%R).
  { intros var Hvar.
    destruct (_calcular_coeficientes_hc d mcs deps fila0 c var Hc Hvar)
      as (dep & Hdep & ->). simpl.
    apply hc_de_profundidade_intervalo.
    pose proof (profundidade_limites (Dou.keys d) deps fila0 var dep Hp Hdep).
    lia. }
  pose proof (desvio_padrao_nao_negativo
                ((λ var, IZR (Dou.frequencia d var)) <$> Dou.keys d)) as Hs.
  fold (Dou.desvio_de d) in Hs.
  assert (Hx : ∀ var, var ∈ Dou.keys d → (0 <= IZR (Dou.frequencia d var))%R).
  { intros var Hvar. destruct (frequencia_elem d var Hvar) as (x & Hx & ->).
    apply IZR_le. by eapply Hfreq. }
  assert (Hm : ∀ var, (0 < default 1 (mcs !! var))%R).
  { intros var. destruct (mcs !! var) as [k|] eqn:Hkv; simpl; [|lra].
    by eapply Hmc. }
  assert (HCpos : (0 < Dou.C_vrm v)%R).
  { rewrite HC. apply soma_R_positiva; [done|]. intros var Hvar.
    specialize (Hh var Hvar). specialize (Hx var Hvar). specialize (Hm var).
    lra. }
  split; [exact HCpos|]. split.
  { rewrite Hmed. by apply Rdiv_lt_0_compat. }
  split.
  - rewrite HHC. split.
    + apply Rdiv_lt_0_compat; [|done]. apply soma_R_positiva; [done|].
      intros var Hvar. by destruct (Hh var Hvar).
    + apply (Rmult_le_reg_r (INR (length d))); [done|].
      unfold Rdiv. rewrite Rmult_assoc, Rinv_l, Rmult_1_r by lra.
      rewrite <- Hlen. apply soma_R_limite_superior.
      intros var Hvar. by destruct (Hh var Hvar).
  - rewrite HSC. apply Rmult_le_pos; [|left; by apply Rinv_0_lt_compat].
    assert (0 * INR (length (Dou.keys d))
            <= soma_R ((λ var, IZR (Dou.frequencia d var) + Dou.desvio_de d)
                         <$> Dou.keys d))%R; [|lra].
    apply soma_R_limite. intros var Hvar. specialize (Hx var Hvar). lra.
Qed.

Lemma acoplamento_vrm_positivo_witness :
  ∃ c v,
    Dou.AnalisadorDou Cenarios.variaveis_ciclo ∅ Cenarios.dependencias_ciclo
      ["m.f::rr"] = inr (c, v)
    ∧ (0 < Dou.C_vrm v)%R
    ∧ (0 < Dou.C_medio v)%R
    ∧ (0 < Dou.HC_medio v <= 2)%R
    ∧ (0 <= Dou.SC_medio v)%R.
Proof.
  destruct (acoplamento_vrm_positivo Cenarios.variaveis_ciclo ∅
              Cenarios.dependencias_ciclo ["m.f::rr"]) as [H1 H2].
  - vm_compute. reflexivity.
  - intros var x Hx. unfold Cenarios.variaveis_ciclo in Hx.
    rewrite !elem_of_cons, elem_of_nil in Hx.
    destruct Hx as [[= _ ->]|[[= _ ->]|[[= _ ->]|[]]]]; lia.
  - intros var k Hk. rewrite lookup_empty in Hk. discriminate Hk.
  - destruct H1 as (c & v & Hret); [discriminate|simpl; lia|].
    exists c, v. split; [exact Hret|]. exact (H2 c v Hret).
Defined.

(** X23: [M_diretos] of the matrix of a project is the number of pairs
    (caller, target) in the call sets: the sum over the functions of the
    size of their call set. *)
Theorem M_diretos_conta_pares (p : Extrator.projeto) :
  Zhang.M_diretos (Zhang._contar_acoplas (Main.matriz_do_projeto p))
  = soma_Z
      ((λ f, Z.of_nat
               (size (default (∅ : gset string)
                        (Extrator._analisar_chamadas
                           (Extrator._encontrar_funcoes p) !! f))))
         <$> Main.funcoes_ordenadas (Extrator._encontrar_funcoes p)).
Proof.
  unfold Main.matriz_do_projeto.
  set (T := Extrator._encontrar_funcoes p).
  set (ch := Extrator._analisar_chamadas T).
  set (fo := Main.funcoes_ordenadas T).
  pose proof (funcoes_ordenadas_NoDup T) as Hnd. fold fo in Hnd.
  destruct (obter_matriz_adjacencia_spec fo Hnd ch) as [Hq He].
  set (m := Main.obter_matriz_adjacencia fo ch) in *.
  pose proof (_analisar_chamadas_alvos T) as Hinv. fold ch in Hinv.
  assert (Hfill : Zhang.fill_diagonal_0 m = m).
  { apply (matriz_ext (length fo)); [|done|].
    - destruct Hq as [Hlen Hrows]. split.
      + unfold Zhang.fill_diagonal_0. by rewrite length_imap.
      + apply Forall_lookup. intros i l Hl.
        unfold Zhang.fill_diagonal_0, Main.matriz in Hl.
        rewrite list_lookup_imap in Hl.
        apply fmap_Some in Hl as (linha & Hm & ->).
        rewrite length_insert.
        exact (Forall_lookup_1 (λ linha, length linha = length fo) m i linha
                 Hrows Hm).
    - intros i j Hi Hj. unfold Main.entrada, Main.matriz.
      destruct Hq as [Hlen Hrows].
      destruct (lookup_lt_is_Some_2 m i) as [linha Hl]; [lia|].
      assert (Hll : length linha = length fo)
        by exact (Forall_lookup_1 (λ linha, length linha = length fo) m i linha
                    Hrows Hl).
      assert (Hfl : Zhang.fill_diagonal_0 m !! i = Some (<[i := 0]> linha)).
      { unfold Zhang.fill_diagonal_0, Main.matriz.
        by rewrite list_lookup_imap, Hl. }
      rewrite (list_lookup_total_correct _ _ _ Hfl),
        (list_lookup_total_correct _ _ _ Hl).
      destruct (decide (i = j)) as [<-|Hij].
      + rewrite list_lookup_total_insert_eq by lia.
        destruct (lookup_lt_is_Some_2 fo i Hi) as [fi Hfi].
        specialize (He i i fi fi Hfi Hfi).
        unfold Main.entrada, Main.matriz in He.
        rewrite (list_lookup_total_correct _ _ _ Hl) in He. rewrite He.
        rewrite decide_False; [done|]. intros Hin.
        by destruct (Hinv fi fi Hin) as [? _].
      + by rewrite list_lookup_total_insert_ne. }
  unfold Zhang._contar_acoplas. cbn [Zhang.M_diretos]. rewrite Hfill.
  unfold Zhang.np_sum. f_equal.
  destruct Hq as [Hlen Hrows].
  apply (list_eq_same_length _ _ (length fo));
    [by rewrite length_fmap|by rewrite length_fmap|].
  intros i x y Hi Hx Hy.
  rewrite list_lookup_fmap in Hx. rewrite list_lookup_fmap in Hy.
  apply fmap_Some in Hx as (linha & Hl & ->).
  apply fmap_Some in Hy as (fi & Hfi & ->).
  assert (Hll : length linha = length fo)
    by exact (Forall_lookup_1 (λ linha, length linha = length fo) m i linha
                Hrows Hl).
  rewrite <- (soma_Z_indicador (default ∅ (ch !! fi)) fo Hnd).
  2: { intros g Hg. destruct (Hinv fi g Hg) as (_ & _ & Hg').
       by apply elem_of_funcoes_ordenadas. }
  f_equal. apply (list_eq_same_length _ _ (length fo));
    [by rewrite length_fmap|done|].
  intros j a b Hj Ha Hb. rewrite list_lookup_fmap in Hb.
  apply fmap_Some in Hb as (fj & Hfj & ->).
  specialize (He i j fi fj Hfi Hfj). unfold Main.entrada, Main.matriz in He.
  by rewrite (list_lookup_total_correct _ _ _ Hl),
    (list_lookup_total_correct _ _ _ Ha) in He.
Qed.

(** ** Variables and their dependencies in [extrator_codigo.py] *)

Section ExtrairVariaveis.
Import Ast Variaveis.

Lemma frequencia_cons k0 v (d : list (string * Z)) k :
  Dou.frequencia ((k0, v) :: d) k
  = if decide (k0 = k) then v else Dou.frequencia d k.
Proof.
  unfold Dou.frequencia. cbn [list_find]. simpl.
  destruct (decide (k0 = k)); [done|].
  by destruct (list_find _ d) as [[i kv]|].
Qed.

Lemma incrementar_freq_frequencia k (d : list (string * Z)) k' :
  Dou.frequencia (incrementar_freq k d) k'
  = Dou.frequencia d k' + (if decide (k = k') then 1 else 0).
Proof.
  induction d as [|[k0 v] d IH]; cbn [incrementar_freq].
  - rewrite frequencia_cons. unfold Dou.frequencia. simpl.
    destruct (decide (k = k')); done.
  - destruct (decide (k0 = k)) as [->|Hne].
    + rewrite !frequencia_cons. destruct (decide (k = k')); lia.
    + rewrite !frequencia_cons, IH.
      destruct (decide (k0 = k')) as [->|]; [|done].
      rewrite (decide_False (P := k = k')) by done. lia.
Qed.

Lemma incrementar_freq_keys k (d : list (string * Z)) :
  Dou.keys (incrementar_freq k d)
  = if decide (k ∈ Dou.keys d) then Dou.keys d else Dou.keys d ++ [k].
Proof.
  unfold Dou.keys. induction d as [|[k0 v] d IH]; cbn [incrementar_freq].
  - rewrite decide_False; [done|]. apply not_elem_of_nil.
  - destruct (decide (k0 = k)) as [->|Hne].
    + rewrite decide_True; [done|]. rewrite fmap_cons. left.
    + rewrite !fmap_cons, IH. cbn [fst].
      destruct (decide (k ∈ d.*1)) as [Hin|Hnin].
      * rewrite decide_True; [done|]. by right.
      * rewrite decide_False; [done|].
        intros Hin. apply elem_of_cons in Hin as [->|Hin]; done.
Qed.

Lemma incrementar_freq_positivo k (d : list (string * Z)) :
  Forall (λ kv, 1 ≤ kv.2) d → Forall (λ kv, 1 ≤ kv.2) (incrementar_freq k d).
Proof.
  induction 1 as [|[k0 v] d Hv Hd IH]; cbn [incrementar_freq].
  - by repeat constructor.
  - destruct (decide (k0 = k)); constructor; simpl in *; try done; lia.
Qed.

Lemma foldl_contar_nome nome_func (nodes : list node) (d : list (string * Z)) :
  NoDup (Dou.keys d) → Forall (λ kv, 1 ≤ kv.2) d →
  NoDup (Dou.keys (foldl (contar_nome nome_func) d nodes))
  ∧ Forall (λ kv, 1 ≤ kv.2) (foldl (contar_nome nome_func) d nodes)
  ∧ (∀ k, k ∈ Dou.keys (foldl (contar_nome nome_func) d nodes)
          ↔ k ∈ Dou.keys d ∨ k ∈ omap (chave_de nome_func) nodes)
  ∧ (∀ k, Dou.frequencia (foldl (contar_nome nome_func) d nodes) k
          = Dou.frequencia d k
            + Z.of_nat (length (filter (λ x, x = k)
                                  (omap (chave_de nome_func) nodes)))).
Proof.
  revert d. induction nodes as [|n nodes IH]; intros d Hnd Hpos.
  { simpl. split; [done|]. split; [done|]. split.
    - intros k. split; [by left|]. intros [?|H]; [done|by apply elem_of_nil in H].
    - intros k. lia. }
  cbn [foldl].
  assert (Hom : omap (chave_de nome_func) (n :: nodes)
                = match chave_de nome_func n with
                  | Some k => k :: omap (chave_de nome_func) nodes
                  | None => omap (chave_de nome_func) nodes
                  end) by reflexivity.
  rewrite Hom. clear Hom.
  assert (Hstep : contar_nome nome_func d n
                  = match chave_de nome_func n with
                    | Some k => incrementar_freq k d
                    | None => d
                    end) by reflexivity.
  rewrite Hstep. clear Hstep.
  destruct (chave_de nome_func n) as [k0|]; [|exact (IH d Hnd Hpos)].
  destruct (IH (incrementar_freq k0 d)) as (I1 & I2 & I3 & I4).
  { rewrite incrementar_freq_keys. destruct (decide (k0 ∈ Dou.keys d)); [done|].
    apply NoDup_app. split; [done|]. split; [|apply NoDup_singleton].
    intros x Hx Hx'. apply list_elem_of_singleton in Hx' as ->. done. }
  { by apply incrementar_freq_positivo. }
  split; [done|]. split; [done|]. split.
  - intros k. rewrite I3, incrementar_freq_keys, elem_of_cons.
    destruct (decide (k0 ∈ Dou.keys d)) as [Hin|Hnin].
    + split; [tauto|]. intros [?|[->|?]]; tauto.
    + rewrite elem_of_app, list_elem_of_singleton. split; [tauto|].
      intros [?|[->|?]]; tauto.
  - intros k. rewrite I4, incrementar_freq_frequencia.
    destruct (decide (k0 = k)) as [->|Hne].
    + rewrite filter_cons_True by done. cbn [length]. lia.
    + rewrite filter_cons_False by done. lia.
Qed.

Lemma foldl_itens_variaveis (itens : list (string * node)) (d : list (string * Z)) :
  NoDup (Dou.keys d) → Forall (λ kv, 1 ≤ kv.2) d →
  NoDup (Dou.keys
           (foldl (λ var_freq '(nome_func, node_func),
                     foldl (contar_nome nome_func) var_freq (walk node_func))
              d itens))
  ∧ Forall (λ kv, 1 ≤ kv.2)
      (foldl (λ var_freq '(nome_func, node_func),
                foldl (contar_nome nome_func) var_freq (walk node_func))
         d itens)
  ∧ (∀ k, k ∈ Dou.keys
                (foldl (λ var_freq '(nome_func, node_func),
                          foldl (contar_nome nome_func) var_freq (walk node_func))
                   d itens)
          ↔ k ∈ Dou.keys d ∨ k ∈ usos itens)
  ∧ (∀ k, Dou.frequencia
            (foldl (λ var_freq '(nome_func, node_func),
                      foldl (contar_nome nome_func) var_freq (walk node_func))
               d itens) k
          = Dou.frequencia d k
            + Z.of_nat (length (filter (λ x, x = k) (usos itens)))).
Proof.
  revert d. induction itens as [|[f nf] itens IH]; intros d Hnd Hpos.
  { simpl. split; [done|]. split; [done|]. split.
    - intros k. split; [by left|]. intros [?|H]; [done|by apply elem_of_nil in H].
    - intros k. unfold usos. simpl. lia. }
  cbn [foldl].
  destruct (foldl_contar_nome f (walk nf) d Hnd Hpos) as (W1 & W2 & W3 & W4).
  destruct (IH _ W1 W2) as (I1 & I2 & I3 & I4).
  split; [done|]. split; [done|].
  unfold usos. rewrite bind_cons. fold (usos itens). split.
  - intros k. rewrite I3, W3, elem_of_app. tauto.
  - intros k. rewrite I4, W4, filter_app, length_app. lia.
Qed.

Lemma elem_of_usos (itens : list (string * node)) k :
  k ∈ usos itens
  ↔ ∃ nome_func node_func id,
      (nome_func, node_func) ∈ itens ∧ Name id ∈ walk node_func
      ∧ _eh_variavel_valida id = true
      ∧ k = nome_completo nome_func id.
Proof.
  unfold usos. rewrite list_elem_of_bind. split.
  - intros ([f nf] & Hk & Hin). apply list_elem_of_omap in Hk as (n & Hn & Hc).
    destruct n as [id| | | |]; try done. simpl in Hc.
    destruct (_eh_variavel_valida id) eqn:Hv; [|done]. injection Hc as <-.
    by exists f, nf, id.
  - intros (f & nf & id & Hin & Hw & Hv & ->). exists (f, nf). split; [|done].
    apply list_elem_of_omap. exists (Name id). split; [done|].
    simpl. by rewrite Hv.
Qed.

Lemma _eh_variavel_valida_true nome :
  _eh_variavel_valida nome = true
  ↔ (nome ∉ BUILT_INS) ∧ (2 ≤ len nome)%nat
    ∧ ¬ (String.prefix "__" nome = true ∧ Extrator.endswith nome "__" = true).
Proof.
  unfold _eh_variavel_valida.
  destruct (bool_decide (nome ∈ BUILT_INS)) eqn:Hb.
  { apply bool_decide_eq_true in Hb. split; [done|]. by intros [? _]. }
  apply bool_decide_eq_false in Hb.
  destruct (String.prefix "__" nome && Extrator.endswith nome "__") eqn:Hd.
  { apply andb_true_iff in Hd. split; [done|]. by intros (_ & _ & ?). }
  destruct (bool_decide (len nome ≤ 1)%nat) eqn:Hl.
  { apply bool_decide_eq_true in Hl. split; [done|]. intros (_ & ? & _). lia. }
  apply bool_decide_eq_false in Hl.
  split; [|done]. intros _.
  split; [done|]. split; [lia|].
  intros [H1 H2]. by rewrite H1, H2 in Hd.
Qed.

(** A name of one code point is left out, whatever its number of bytes. *)
Lemma _eh_variavel_valida_um_caractere :
  len "é" = 1%nat ∧ _eh_variavel_valida "é" = false
  ∧ _eh_variavel_valida "x" = false ∧ _eh_variavel_valida "éx" = true.
Proof. vm_compute. done. Qed.

Lemma elem_frequencia (d : list (string * Z)) k x :
  NoDup (Dou.keys d) → (k, x) ∈ d → Dou.frequencia d k = x.
Proof.
  unfold Dou.keys. induction d as [|[k0 v] d IH]; intros Hnd Hin.
  { by apply elem_of_nil in Hin. }
  rewrite fmap_cons in Hnd. apply NoDup_cons in Hnd as [Hk0 Hnd].
  rewrite frequencia_cons. apply elem_of_cons in Hin as [[= -> ->]|Hin].
  - by rewrite decide_True.
  - rewrite decide_False; [by apply IH|].
    intros ->. apply Hk0. apply list_elem_of_fmap. by exists (k, x).
Qed.

End ExtrairVariaveis.

Lemma extrair_variaveis_frequencias_aux (itens : list (string * Ast.node)) :
  NoDup (Dou.keys (Variaveis._extrair_variaveis itens))
  ∧ Forall (λ kv, 1 ≤ kv.2) (Variaveis._extrair_variaveis itens).
Proof.
  destruct (foldl_itens_variaveis itens []) as (H1 & H2 & _);
    [apply NoDup_nil_2|constructor|]. by split.
Qed.

(** X24: [_extrair_variaveis] gives every variable one entry, under the
    key [<function>::<name>]; its frequency is the number of [ast.Name]
    nodes of that function that carry the name, and is at least 1; and a
    name passes the filter exactly when it has two characters (code
    points) or more, is not in [BUILT_INS] and is not of the form
    [__x__]. *)
Theorem extrair_variaveis_frequencias (itens : list (string * Ast.node)) :
  NoDup (Dou.keys (Variaveis._extrair_variaveis itens))
  ∧ (∀ k, k ∈ Dou.keys (Variaveis._extrair_variaveis itens)
          ↔ ∃ nome_func node_func id,
              (nome_func, node_func) ∈ itens ∧ Ast.Name id ∈ Ast.walk node_func
              ∧ Variaveis._eh_variavel_valida id = true
              ∧ k = Variaveis.nome_completo nome_func id)
  ∧ (∀ k, Dou.frequencia (Variaveis._extrair_variaveis itens) k
          = Z.of_nat (length (filter (λ x, x = k) (Variaveis.usos itens))))
  ∧ (∀ k x, (k, x) ∈ Variaveis._extrair_variaveis itens →
       1 ≤ x ∧ x = Dou.frequencia (Variaveis._extrair_variaveis itens) k)
  ∧ (∀ id, Variaveis._eh_variavel_valida id = true
           ↔ (id ∉ Variaveis.BUILT_INS) ∧ (2 ≤ Variaveis.len id)%nat
             ∧ ¬ (String.prefix "__" id = true
                  ∧ Extrator.endswith id "__" = true)).
Proof.
  destruct (foldl_itens_variaveis itens []) as (H1 & H2 & H3 & H4);
    [apply NoDup_nil_2|constructor|].
  fold (Variaveis._extrair_variaveis itens) in H1, H2, H3, H4.
  split; [done|]. split.
  { intros k. rewrite H3, <- elem_of_usos. split; [|by right].
    intros [H|?]; [by apply elem_of_nil in H|done]. }
  split.
  { intros k. rewrite H4. unfold Dou.frequencia. simpl. lia. }
  split.
  { intros k x Hin. split.
    - exact (proj1 (Forall_forall _ _) H2 (k, x) Hin).
    - symmetry. by apply elem_frequencia. }
  exact _eh_variavel_valida_true.
Qed.

Section DependenciasVariaveis.
Import Ast Variaveis.
Variable atribuicoes : node → list (list node * node).
Variable variaveis : Dou.variaveis_dict.

Lemma foldl_usadas_spec va (l : list string)
    (deps : gmap string (gset string)) a b :
  b ∈ default ∅
        (foldl (λ (deps : gmap string (gset string)) var_usada,
                  if decide (va ≠ var_usada)
                  then Extrator.adicionar deps va var_usada
                  else deps) deps l !! a)
  ↔ b ∈ default ∅ (deps !! a) ∨ (a = va ∧ b ∈ l ∧ va ≠ b).
Proof.
  revert deps. induction l as [|x l IH]; intros deps.
  - simpl. split; [by left|]. intros [?|(_ & H & _)]; [done|].
    by apply elem_of_nil in H.
  - cbn [foldl]. rewrite IH, elem_of_cons.
    destruct (decide (va ≠ x)) as [Hne|He].
    + rewrite adicionar_spec. naive_solver.
    + split; [naive_solver|].
      intros [?|(-> & [->|?] & Hne)]; [by left|done|right; done].
Qed.

Lemma foldl_atribuidas_spec (la lu : list string)
    (deps : gmap string (gset string)) a b :
  b ∈ default ∅
        (foldl (λ (deps : gmap string (gset string)) var_atribuida,
                  if decide (var_atribuida ∈ Dou.keys variaveis) then
                    foldl (λ (deps : gmap string (gset string)) var_usada,
                             if decide (var_atribuida ≠ var_usada)
                             then Extrator.adicionar deps var_atribuida var_usada
                             else deps) deps lu
                  else deps) deps la !! a)
  ↔ b ∈ default ∅ (deps !! a)
    ∨ (a ∈ la ∧ a ∈ Dou.keys variaveis ∧ b ∈ lu ∧ a ≠ b).
Proof.
  revert deps. induction la as [|x la IH]; intros deps.
  - simpl. split; [by left|]. intros [?|(H & _)]; [done|].
    by apply elem_of_nil in H.
  - cbn [foldl]. rewrite IH, elem_of_cons.
    destruct (decide (x ∈ Dou.keys variaveis)) as [Hin|Hnin].
    + rewrite foldl_usadas_spec. naive_solver.
    + split; [naive_solver|].
      intros [?|([->|?] & ? & ? & ?)]; [by left|done|right; done].
Qed.

Lemma registrar_atribuicao_spec nome_func
    (deps : gmap string (gset string)) targets value a b :
  b ∈ default ∅
        (registrar_atribuicao variaveis nome_func deps (targets, value) !! a)
  ↔ b ∈ default ∅ (deps !! a)
    ∨ (a ∈ vars_atribuidas nome_func targets ∧ a ∈ Dou.keys variaveis
       ∧ b ∈ vars_usadas variaveis nome_func value ∧ a ≠ b).
Proof.
  unfold registrar_atribuicao. rewrite foldl_atribuidas_spec.
  by rewrite !elem_of_elements.
Qed.

Lemma foldl_registrar_atribuicao_spec nome_func
    (l : list (list node * node)) (deps : gmap string (gset string)) a b :
  b ∈ default ∅ (foldl (registrar_atribuicao variaveis nome_func) deps l !! a)
  ↔ b ∈ default ∅ (deps !! a)
    ∨ ∃ targets value,
        (targets, value) ∈ l
        ∧ a ∈ vars_atribuidas nome_func targets ∧ a ∈ Dou.keys variaveis
        ∧ b ∈ vars_usadas variaveis nome_func value ∧ a ≠ b.
Proof.
  revert deps. induction l as [|[t v] l IH]; intros deps.
  - simpl. split; [by left|]. intros [?|(? & ? & H & _)]; [done|].
    by apply elem_of_nil in H.
  - cbn [foldl]. rewrite IH, registrar_atribuicao_spec. split.
    + intros [[?|?]|(t' & v' & ? & ?)]; [by left| |].
      * right. exists t, v. split; [left|done].
      * right. exists t', v'. split; [by right|done].
    + intros [?|(t' & v' & Hin & ?)]; [by left; left|].
      apply elem_of_cons in Hin as [[= -> ->]|Hin]; [by left; right|].
      right. by exists t', v'.
Qed.

Lemma _analisar_dependencias_variaveis_spec (itens : list (string * node)) a b :
  b ∈ default ∅
        (_analisar_dependencias_variaveis atribuicoes variaveis itens !! a)
  ↔ dependencia atribuicoes variaveis itens a b.
Proof.
  unfold _analisar_dependencias_variaveis, dependencia.
  assert (H : ∀ deps : gmap string (gset string),
    b ∈ default ∅
          (foldl (λ deps '(nome_func, node_func),
                    foldl (registrar_atribuicao variaveis nome_func) deps
                      (atribuicoes node_func)) deps itens !! a)
    ↔ b ∈ default ∅ (deps !! a)
      ∨ ∃ nome_func node_func targets value,
          (nome_func, node_func) ∈ itens
          ∧ (targets, value) ∈ atribuicoes node_func
          ∧ a ∈ vars_atribuidas nome_func targets
          ∧ a ∈ Dou.keys variaveis
          ∧ b ∈ vars_usadas variaveis nome_func value
          ∧ a ≠ b).
  { induction itens as [|[f nf] l IH]; intros deps.
    - simpl. split; [by left|]. intros [?|(? & ? & ? & ? & H & _)]; [done|].
      by apply elem_of_nil in H.
    - cbn [foldl]. rewrite IH, foldl_registrar_atribuicao_spec. split.
      + intros [[?|(t & v & ? & ?)]|(f' & nf' & t & v & ? & ?)]; [by left| |].
        * right. exists f, nf, t, v. split; [left|done].
        * right. exists f', nf', t, v. split; [by right|done].
      + intros [?|(f' & nf' & t & v & Hin & ?)]; [by left; left|].
        apply elem_of_cons in Hin as [[= -> ->]|Hin].
        * left. right. by exists t, v.
        * right. by exists f', nf', t, v. }
  rewrite H, lookup_empty. simpl. split; [|by right].
  intros [H0|?]; [by apply elem_of_empty in H0|done].
Qed.

Lemma dependencias_nao_vazias (itens : list (string * node)) :
  map_Forall (λ _ s, s ≠ (∅ : gset string))
    (_analisar_dependencias_variaveis atribuicoes variaveis itens).
Proof.
  unfold _analisar_dependencias_variaveis.
  assert (H0 : map_Forall (λ _ s, s ≠ (∅ : gset string))
                 (∅ : gmap string (gset string))) by apply map_Forall_empty.
  revert H0. generalize (∅ : gmap string (gset string)).
  induction itens as [|[f nf] l IH]; intros deps H; [done|].
  cbn [foldl]. apply IH. clear IH.
  revert deps H. induction (atribuicoes nf) as [|[t v] as_ IHa]; intros deps H;
    [done|].
  cbn [foldl]. apply IHa. clear IHa. unfold registrar_atribuicao.
  revert deps H.
  induction (elements (vars_atribuidas f t)) as [|va la IHla]; intros deps H;
    [done|].
  cbn [foldl]. apply IHla. clear IHla.
  destruct (decide (va ∈ Dou.keys variaveis)); [|done].
  revert deps H.
  induction (elements (vars_usadas variaveis f v)) as [|vu lu IHlu];
    intros deps H; [done|].
  cbn [foldl]. apply IHlu.
  destruct (decide (va ≠ vu)); [|done].
  by apply chamadas_nao_vazias_adicionar.
Qed.

Lemma elem_of_vars_atribuidas nome_func targets a :
  a ∈ vars_atribuidas nome_func targets →
  ∃ id, Name id ∈ targets ∧ _eh_variavel_valida id = true
        ∧ a = nome_completo nome_func id.
Proof.
  unfold vars_atribuidas. rewrite elem_of_list_to_set, list_elem_of_omap.
  intros (n & Hn & Hc). destruct n as [id| | | |]; try done. simpl in Hc.
  destruct (_eh_variavel_valida id) eqn:Hv; [|done]. injection Hc as <-.
  by exists id.
Qed.

Lemma elem_of_vars_usadas nome_func value b :
  b ∈ vars_usadas variaveis nome_func value →
  b ∈ Dou.keys variaveis
  ∧ ∃ id, Name id ∈ walk value ∧ _eh_variavel_valida id = true
          ∧ b = nome_completo nome_func id.
Proof.
  unfold vars_usadas.
  rewrite elem_of_list_to_set, list_elem_of_filter, list_elem_of_omap.
  intros (Hk & n & Hn & Hc). split; [done|].
  destruct n as [id| | | |]; try done. simpl in Hc.
  destruct (_eh_variavel_valida id) eqn:Hv; [|done]. injection Hc as <-.
  by exists id.
Qed.

End DependenciasVariaveis.

Lemma soma_R_maior (f : string → R) (k : R) l :
  l ≠ [] → (∀ x, x ∈ l → k < f x)%R →
  (k * INR (length l) < soma_R (f <$> l))%R.
Proof.
  intros Hne Hl. destruct l as [|x l]; [done|].
  rewrite fmap_cons. cbn [length]. rewrite S_INR.
  change (soma_R (f x :: (f <$> l))) with (f x + soma_R (f <$> l))%R.
  assert (k < f x)%R by (apply Hl; left).
  assert (k * INR (length l) <= soma_R (f <$> l))%R.
  { apply soma_R_limite. intros y Hy. left. apply Hl. by right. }
  lra.
Qed.

(** X25: [_analisar_dependencias_variaveis] records [b] as a dependency
    of [a] exactly when some assignment has the known variable [a] among
    its targets and the known variable [b], another one, in its
    right-hand side.  So no variable depends on itself, both ends are
    keys of [self.variaveis] and variables of the same function, no
    dependency set is empty, and the roots of the VRM model are the
    variables without an entry. *)
Theorem analisar_dependencias_variaveis_invariantes
    (atribuicoes : Ast.node → list (list Ast.node * Ast.node))
    (variaveis : Dou.variaveis_dict) (itens : list (string * Ast.node)) :
  (∀ a b,
     b ∈ default ∅
           (Variaveis._analisar_dependencias_variaveis atribuicoes variaveis itens
              !! a)
     ↔ Variaveis.dependencia atribuicoes variaveis itens a b)
  ∧ (∀ a b,
       b ∈ default ∅
             (Variaveis._analisar_dependencias_variaveis atribuicoes variaveis
                itens !! a) →
       a ≠ b ∧ a ∈ Dou.keys variaveis ∧ b ∈ Dou.keys variaveis
       ∧ ∃ nome_func ida idb,
           a = Variaveis.nome_completo nome_func ida
           ∧ b = Variaveis.nome_completo nome_func idb
           ∧ Variaveis._eh_variavel_valida ida = true
           ∧ Variaveis._eh_variavel_valida idb = true)
  ∧ (∀ a s,
       Variaveis._analisar_dependencias_variaveis atribuicoes variaveis itens
         !! a = Some s → s ≠ ∅)
  ∧ (∀ var,
       Dou.eh_raiz
         (Variaveis._analisar_dependencias_variaveis atribuicoes variaveis itens)
         var = true
       ↔ Variaveis._analisar_dependencias_variaveis atribuicoes variaveis itens
           !! var = None).
Proof.
  split; [apply _analisar_dependencias_variaveis_spec|]. split.
  { intros a b. rewrite _analisar_dependencias_variaveis_spec.
    intros (f & nf & t & v & _ & _ & Ha & Hak & Hb & Hne).
    apply elem_of_vars_atribuidas in Ha as (ida & _ & Hva & ->).
    apply elem_of_vars_usadas in Hb as (Hbk & idb & _ & Hvb & ->).
    split; [done|]. split; [done|]. split; [done|].
    by exists f, ida, idb. }
  split; [apply dependencias_nao_vazias|].
  intros var. unfold Dou.eh_raiz.
  destruct (Variaveis._analisar_dependencias_variaveis _ _ _ !! var)
    as [s|] eqn:Hs; [|done].
  pose proof (dependencias_nao_vazias atribuicoes variaveis itens var s Hs) as Hne.
  split; [|done]. intros Hsz. apply bool_decide_eq_true in Hsz.
  apply size_empty_inv in Hsz. by apply leibniz_equiv in Hsz.
Qed.

Lemma AnalisadorDou_do_extrator_aux
    (atribuicoes : Ast.node → list (list Ast.node * Ast.node))
    (itens : list (string * Ast.node)) (mcs : gmap string R) fila0 c v :
  fila0 ≡ₚ elements
             (Dou.nos_raiz (Dou.keys (Variaveis._extrair_variaveis itens))
                (Variaveis._analisar_dependencias_variaveis atribuicoes
                   (Variaveis._extrair_variaveis itens) itens)) →
  (∀ var k, mcs !! var = Some k → (0 < k)%R) →
  Dou.AnalisadorDou (Variaveis._extrair_variaveis itens) mcs
    (Variaveis._analisar_dependencias_variaveis atribuicoes
       (Variaveis._extrair_variaveis itens) itens) fila0 = inr (c, v) →
  (INR (length (Variaveis._extrair_variaveis itens)) < Dou.C_vrm v)%R
  ∧ (1 < Dou.C_medio v)%R.
Proof.
  intros Hp Hmc Hret0.
  set (d := Variaveis._extrair_variaveis itens) in *.
  set (deps := Variaveis._analisar_dependencias_variaveis atribuicoes d itens) in *.
  destruct (extrair_variaveis_frequencias_aux itens) as (Hnd & Hfreq).
  fold d in Hnd, Hfreq.
  destruct (AnalisadorDou_inr _ _ _ _ _ _ Hret0) as [Hd Hc].
  destruct (AnalisadorDou_spec_de d mcs deps fila0 c Hd Hc)
    as (v0 & Hret & Hcoef & HC & Hmed & _).
  assert (v0 = v) as -> by (rewrite Hret0 in Hret; by injection Hret).
  assert (Hk : Dou.keys d ≠ []) by (by destruct d).
  assert (Hn : (0 < INR (length d))%R)
    by (apply lt_0_INR; destruct d; simpl; [done|lia]).
  assert (Hlen : length (Dou.keys d) = length d)
    by (unfold Dou.keys; by rewrite length_fmap).
  assert (HCn : (INR (length d) < Dou.C_vrm v)%R).
  { rewrite HC, <- Hlen.
    rewrite <- (Rmult_1_l (INR (length (Dou.keys d)))).
    apply soma_R_maior; [done|]. intros var Hvar.
    destruct (_calcular_coeficientes_hc d mcs deps fila0 c var Hc Hvar)
      as (dep & Hdep & ->). simpl.
    pose proof (profundidade_limites (Dou.keys d) deps fila0 var dep Hp Hdep).
    destruct (hc_de_profundidade_intervalo dep) as [Hh _]; [lia|].
    pose proof (desvio_padrao_nao_negativo
                  ((λ var, IZR (Dou.frequencia d var)) <$> Dou.keys d)) as Hs.
    fold (Dou.desvio_de d) in Hs.
    assert (Hx : (1 <= IZR (Dou.frequencia d var))%R).
    { destruct (frequencia_elem d var Hvar) as (x & Hx & ->).
      apply IZR_le. exact (proj1 (Forall_forall _ _) Hfreq (var, x) Hx). }
    assert (Hm : (0 < default 1 (mcs !! var))%R).
    { destruct (mcs !! var) as [k|] eqn:Hkv; simpl; [|lra]. by eapply Hmc. }
    lra. }
  split; [exact HCn|].
  rewrite Hmed. apply (Rmult_lt_reg_r (INR (length d))); [done|].
  unfold Rdiv. rewrite Rmult_assoc, Rinv_l by lra. lra.
Qed.

(** X26: on what the extractor gives for a project, with positive manual
    coefficients as [main] provides them and a queue that starts with the
    roots, the VRM model returns when there are between 1 and 1024
    variables; and whenever it returns, every use count being at least 1,
    the total coupling exceeds the number of variables and the mean
    coupling exceeds 1. *)
Theorem AnalisadorDou_do_extrator
    (atribuicoes : Ast.node → list (list Ast.node * Ast.node))
    (itens : list (string * Ast.node)) (mcs : gmap string R) fila0 :
  fila0 ≡ₚ elements
             (Dou.nos_raiz (Dou.keys (Variaveis._extrair_variaveis itens))
                (Variaveis._analisar_dependencias_variaveis atribuicoes
                   (Variaveis._extrair_variaveis itens) itens)) →
  (∀ var k, mcs !! var = Some k → (0 < k)%R) →
  (Variaveis._extrair_variaveis itens ≠ [] →
   (length (Variaveis._extrair_variaveis itens) ≤ 1024)%nat →
   ∃ c v,
     Dou.AnalisadorDou (Variaveis._extrair_variaveis itens) mcs
       (Variaveis._analisar_dependencias_variaveis atribuicoes
          (Variaveis._extrair_variaveis itens) itens) fila0 = inr (c, v))
  ∧ (∀ c v,
       Dou.AnalisadorDou (Variaveis._extrair_variaveis itens) mcs
         (Variaveis._analisar_dependencias_variaveis atribuicoes
            (Variaveis._extrair_variaveis itens) itens) fila0 = inr (c, v) →
       (INR (length (Variaveis._extrair_variaveis itens)) < Dou.C_vrm v)%R
       ∧ (1 < Dou.C_medio v)%R).
Proof.
  intros Hp Hmc. split.
  - intros Hd Hn.
    destruct (AnalisadorDou_spec _ mcs _ fila0 Hd Hn Hp) as (c & v & H & _).
    by exists c, v.
  - intros c v Hret.
    exact (AnalisadorDou_do_extrator_aux atribuicoes itens mcs fila0 c v
             Hp Hmc Hret).
Qed.

Lemma AnalisadorDou_do_extrator_witness :
  ∃ c v,
    Dou.AnalisadorDou (Variaveis._extrair_variaveis Cenarios.itens_total) ∅
      (Variaveis._analisar_dependencias_variaveis Cenarios.atribuicoes_total
         (Variaveis._extrair_variaveis Cenarios.itens_total)
         Cenarios.itens_total) ["m.f::valor"] = inr (c, v)
    ∧ (INR (length (Variaveis._extrair_variaveis Cenarios.itens_total))
       < Dou.C_vrm v)%R
    ∧ (1 < Dou.C_medio v)%R.
Proof.
  destruct (AnalisadorDou_do_extrator Cenarios.atribuicoes_total
              Cenarios.itens_total ∅ ["m.f::valor"]) as [H1 H2].
  - vm_compute. reflexivity.
  - intros var k Hk. rewrite lookup_empty in Hk. discriminate Hk.
  - destruct H1 as (c & v & Hret); [vm_compute; discriminate|vm_compute; lia|].
    exists c, v. split; [exact Hret|]. exact (H2 c v Hret).
Defined.

(** ** User input and the program of [main.py] *)

Section Solicitar.
Import Programa.

(** What the loop of [solicitar_probabilidades] keeps, for a property [P]
    of the initial values and of the typed values that pass the test. *)
Lemma foldl_passo_probabilidade (P : flutuante → Prop) fo linhas
    (probs : gmap string flutuante) :
  (∀ idx v, Par idx v ∈ linhas →
     menor v (Numero 0) || menor (Numero 1) v = false → P v) →
  (∀ f, f ∈ fo → is_Some (probs !! f)) →
  (∀ f v, probs !! f = Some v → f ∈ fo ∧ P v) →
  (∀ f, f ∈ fo → is_Some (foldl (passo_probabilidade fo) probs linhas !! f))
  ∧ (∀ f v, foldl (passo_probabilidade fo) probs linhas !! f = Some v →
       f ∈ fo ∧ P v).
Proof.
  revert probs. induction linhas as [|l linhas IH]; intros probs HP H1 H2; [done|].
  cbn [foldl]. apply IH.
  - intros idx v Hin. apply (HP idx). by right.
  - intros f Hf. unfold passo_probabilidade.
    destruct l as [|idx prob]; [by apply H1|].
    destruct (decide _); [by apply H1|].
    destruct (_ || _); [by apply H1|].
    destruct (fo !! Z.to_nat (idx - 1)) as [g|]; [|by apply H1].
    destruct (decide (g = f)) as [->|Hne].
    + rewrite lookup_insert_eq. by eexists.
    + rewrite lookup_insert_ne by done. by apply H1.
  - intros f v. unfold passo_probabilidade.
    destruct l as [|idx prob]; [by apply H2|].
    destruct (decide _); [by apply H2|].
    destruct (_ || _) eqn:Ht; [by apply H2|].
    destruct (fo !! Z.to_nat (idx - 1)) as [g|] eqn:Hg; [|by apply H2].
    destruct (decide (g = f)) as [->|Hne].
    + rewrite lookup_insert_eq. intros [= <-].
      split; [by eapply list_elem_of_lookup_2|].
      apply (HP idx); [left|done].
    + rewrite lookup_insert_ne by done. by apply H2.
Qed.

(** The same for the loop of [solicitar_manual_coefficients]. *)
Lemma foldl_passo_manual_coefficient (P : flutuante → Prop) vo linhas
    (mcs : gmap string flutuante) :
  (∀ idx v, Par idx v ∈ linhas → menor_ou_igual v (Numero 0) = false → P v) →
  (∀ var, var ∈ vo → is_Some (mcs !! var)) →
  (∀ var v, mcs !! var = Some v → var ∈ vo ∧ P v) →
  (∀ var, var ∈ vo →
     is_Some (foldl (passo_manual_coefficient vo) mcs linhas !! var))
  ∧ (∀ var v, foldl (passo_manual_coefficient vo) mcs linhas !! var = Some v →
       var ∈ vo ∧ P v).
Proof.
  revert mcs. induction linhas as [|l linhas IH]; intros mcs HP H1 H2; [done|].
  cbn [foldl]. apply IH.
  - intros idx v Hin. apply (HP idx). by right.
  - intros var Hvar. unfold passo_manual_coefficient.
    destruct l as [|idx mc]; [by apply H1|].
    destruct (decide _); [by apply H1|].
    destruct (menor_ou_igual _ _); [by apply H1|].
    destruct (vo !! Z.to_nat (idx - 1)) as [g|]; [|by apply H1].
    destruct (decide (g = var)) as [->|Hne].
    + rewrite lookup_insert_eq. by eexists.
    + rewrite lookup_insert_ne by done. by apply H1.
  - intros var v. unfold passo_manual_coefficient.
    destruct l as [|idx mc]; [by apply H2|].
    destruct (decide _); [by apply H2|].
    destruct (menor_ou_igual _ _) eqn:Ht; [by apply H2|].
    destruct (vo !! Z.to_nat (idx - 1)) as [g|] eqn:Hg; [|by apply H2].
    destruct (decide (g = var)) as [->|Hne].
    + rewrite lookup_insert_eq. intros [= <-].
      split; [by eapply list_elem_of_lookup_2|].
      apply (HP idx); [left|done].
    + rewrite lookup_insert_ne by done. by apply H2.
Qed.

Lemma lookup_list_to_map_const_inv {V} (c : V) (l : list string) k v :
  (list_to_map ((λ x, (x, c)) <$> l) : gmap string V) !! k = Some v →
  k ∈ l ∧ v = c.
Proof.
  intros H. apply elem_of_list_to_map_2 in H.
  apply list_elem_of_fmap in H as (x & [= -> ->] & Hx). done.
Qed.

(** The test [prob < 0 or prob > 1] lets through the numbers of [0, 1]
    and [nan]. *)
Lemma teste_probabilidade v :
  menor v (Numero 0) || menor (Numero 1) v = false →
  v = NaN ∨ ∃ p, v = Numero p ∧ (0 <= p <= 1)%R.
Proof.
  destruct v as [x|[]|]; simpl; try done; [|by left].
  intros H. apply orb_false_iff in H as [H0 H1].
  apply bool_decide_eq_false in H0, H1. right. exists x. split; [done|lra].
Qed.

(** The test [mc <= 0] lets through the positive numbers, the positive
    infinity and [nan]. *)
Lemma teste_manual_coefficient v :
  menor_ou_igual v (Numero 0) = false →
  v = NaN ∨ v = Infinito true ∨ ∃ k, v = Numero k ∧ (0 < k)%R.
Proof.
  destruct v as [x|[]|]; simpl; try done; [|by right; left|by left].
  intros H. apply bool_decide_eq_false in H. right. right.
  exists x. split; [done|lra].
Qed.

(** A line with a valid index is stored as typed when its value passes
    the test. *)
Lemma passo_probabilidade_guarda fo probs idx v f :
  1 ≤ idx → fo !! Z.to_nat (idx - 1) = Some f →
  menor v (Numero 0) || menor (Numero 1) v = false →
  passo_probabilidade fo probs (Par idx v) !! f = Some v.
Proof.
  intros H1 Hf Ht. unfold passo_probabilidade.
  apply lookup_lt_Some in Hf as Hlt.
  rewrite decide_False by lia. rewrite Ht, Hf. apply lookup_insert_eq.
Qed.

Lemma passo_manual_coefficient_guarda vo mcs idx v var :
  1 ≤ idx → vo !! Z.to_nat (idx - 1) = Some var →
  menor_ou_igual v (Numero 0) = false →
  passo_manual_coefficient vo mcs (Par idx v) !! var = Some v.
Proof.
  intros H1 Hf Ht. unfold passo_manual_coefficient.
  apply lookup_lt_Some in Hf as Hlt.
  rewrite decide_False by lia. rewrite Ht, Hf. apply lookup_insert_eq.
Qed.

Lemma numeros_Some (d : gmap string flutuante) :
  (∀ k v, d !! k = Some v → is_Some (numero v)) →
  numeros d = Some (omap numero d).
Proof. intros H. unfold numeros. by rewrite decide_True. Qed.

Lemma numeros_lookup (d : gmap string flutuante) pr k x :
  numeros d = Some pr → (pr !! k = Some x ↔ d !! k = Some (Numero x)).
Proof.
  unfold numeros. destruct (decide _); [|done]. intros [= <-].
  rewrite lookup_omap. destruct (d !! k) as [[y|b|]|]; simpl; naive_solver.
Qed.

Lemma numeros_definido (d : gmap string flutuante) pr k :
  numeros d = Some pr → is_Some (d !! k) → is_Some (pr !! k).
Proof.
  unfold numeros. destruct (decide _) as [Hf|]; [|done]. intros [= <-] [v Hv].
  rewrite lookup_omap, Hv. simpl. exact (Hf k v Hv).
Qed.

(** When every value typed is a number, the dictionary of probabilities
    holds numbers only, one for each function. *)
Lemma solicitar_probabilidades_numeros fo linhas :
  (∀ idx v, Par idx v ∈ linhas → is_Some (numero v)) →
  ∃ pr, numeros (solicitar_probabilidades fo linhas) = Some pr
        ∧ ∀ f, f ∈ fo → is_Some (pr !! f).
Proof.
  intros Hn.
  destruct (foldl_passo_probabilidade (λ v, is_Some (numero v)) fo linhas
              (probabilidades_iniciais fo)) as [H1 H2].
  - intros idx v Hin _. by apply (Hn idx).
  - intros f Hf. unfold probabilidades_iniciais.
    rewrite (lookup_list_to_map_const _ fo f Hf). by eexists.
  - intros f v Hv. apply lookup_list_to_map_const_inv in Hv as [? ->].
    split; [done|]. by eexists.
  - fold (solicitar_probabilidades fo linhas) in H1, H2.
    eexists. split.
    + apply numeros_Some. intros k v Hv. by destruct (H2 k v Hv).
    + intros f Hf. eapply numeros_definido; [|by apply H1].
      apply numeros_Some. intros k v Hv. by destruct (H2 k v Hv).
Qed.

(** And the dictionary of manual coefficients holds positive numbers. *)
Lemma solicitar_manual_coefficients_numeros vo linhas :
  (∀ idx v, Par idx v ∈ linhas → is_Some (numero v)) →
  ∃ mcs, numeros (solicitar_manual_coefficients vo linhas) = Some mcs
         ∧ ∀ var k, mcs !! var = Some k → (0 < k)%R.
Proof.
  intros Hn.
  destruct (foldl_passo_manual_coefficient
              (λ v, ∃ k, v = Numero k ∧ (0 < k)%R) vo linhas
              (manual_coefficients_iniciais vo)) as [H1 H2].
  - intros idx v Hin Ht. destruct (Hn idx v Hin) as [x Hx].
    destruct (teste_manual_coefficient v Ht) as [->|[->|?]]; done.
  - intros var Hvar. unfold manual_coefficients_iniciais.
    rewrite (lookup_list_to_map_const _ vo var Hvar). by eexists.
  - intros var v Hv. apply lookup_list_to_map_const_inv in Hv as [? ->].
    split; [done|]. exists 1%R. split; [done|lra].
  - fold (solicitar_manual_coefficients vo linhas) in H1, H2.
    assert (Hs : numeros (solicitar_manual_coefficients vo linhas)
                 = Some (omap numero (solicitar_manual_coefficients vo linhas))).
    { apply numeros_Some. intros k v Hv.
      destruct (H2 k v Hv) as (_ & x & -> & _). by eexists. }
    eexists. split; [exact Hs|].
    intros var k Hk. apply (numeros_lookup _ _ var k Hs) in Hk.
    destruct (H2 var _ Hk) as (_ & x & [= <-] & Hx). done.
Qed.

End Solicitar.

Lemma AnalisadorZhang_retorna
    (eig : list (list R) → resultado (list R * list (list R)))
    fo (m : list (list Z)) (probabilidades : gmap string R) :
  Main.quadrada (length fo) m →
  (∀ f, f ∈ fo → is_Some (probabilidades !! f)) →
  ∃ z, Zhang.AnalisadorZhang eig fo m probabilidades = inr z.
Proof.
  intros Hq Hp.
  destruct (_calcular_entropy_model_spec (Zhang._contar_acoplas m)
              probabilidades fo) as (e & He & _).
  { simpl. rewrite length_fmap. destruct Hq as [-> _]. done. }
  { done. }
  destruct (matriz_julgamento_ok _ _ Hq) as (A & HA & _).
  destruct (julgamento_retorna eig fo m probabilidades A HA) as [j Hj].
  eexists. unfold Zhang.AnalisadorZhang. rewrite He. simpl. rewrite Hj. done.
Qed.

(** X27: whatever lines the user types at the prompt of
    [solicitar_probabilidades], the dictionary returned has an entry for
    every function and no other key, and each value is a number of
    [0, 1] or [nan]: the test [prob < 0 or prob > 1] rejects the
    infinities and lets [nan] through, so a line [idx, nan] with a valid
    index stores [nan].  When no line carries [nan], every value is a
    number of [0, 1]. *)
Theorem solicitar_probabilidades_intervalo (funcoes_ordenadas : list string)
    (linhas : list Programa.linha) :
  (∀ f, f ∈ funcoes_ordenadas →
     is_Some (Programa.solicitar_probabilidades funcoes_ordenadas linhas !! f))
  ∧ (∀ f v,
       Programa.solicitar_probabilidades funcoes_ordenadas linhas !! f = Some v →
       f ∈ funcoes_ordenadas
       ∧ (v = Programa.NaN
          ∨ ∃ p, v = Programa.Numero p ∧ (0 <= p <= 1)%R))
  ∧ ((∀ idx, Programa.Par idx Programa.NaN ∉ linhas) →
     ∀ f v,
       Programa.solicitar_probabilidades funcoes_ordenadas linhas !! f = Some v →
       ∃ p, v = Programa.Numero p ∧ (0 <= p <= 1)%R)
  ∧ (∀ idx f,
       1 ≤ idx → funcoes_ordenadas !! Z.to_nat (idx - 1) = Some f →
       Programa.solicitar_probabilidades funcoes_ordenadas
         (linhas ++ [Programa.Par idx Programa.NaN]) !! f
       = Some Programa.NaN).
Proof.
  assert (H0 : ∀ f, f ∈ funcoes_ordenadas →
            is_Some (Programa.probabilidades_iniciais funcoes_ordenadas !! f)).
  { intros f Hf. unfold Programa.probabilidades_iniciais.
    rewrite (lookup_list_to_map_const _ _ f Hf). by eexists. }
  split; [|split; [|split]].
  - apply (foldl_passo_probabilidade (λ _, True)); [done|done|].
    intros f v Hv. by apply lookup_list_to_map_const_inv in Hv as [? _].
  - apply (foldl_passo_probabilidade
             (λ v, v = Programa.NaN
                   ∨ ∃ p, v = Programa.Numero p ∧ (0 <= p <= 1)%R)).
    + intros idx v _. apply teste_probabilidade.
    + done.
    + intros f v Hv. apply lookup_list_to_map_const_inv in Hv as [? ->].
      split; [done|]. right. exists (1 / 2)%R. split; [done|lra].
  - intros Hnan f v Hv.
    destruct (foldl_passo_probabilidade
                (λ v, ∃ p, v = Programa.Numero p ∧ (0 <= p <= 1)%R)
                funcoes_ordenadas linhas
                (Programa.probabilidades_iniciais funcoes_ordenadas))
      as [_ H2].
    + intros idx w Hin Ht.
      destruct (teste_probabilidade w Ht) as [->|?]; [|done].
      by destruct (Hnan idx).
    + done.
    + intros g w Hw. apply lookup_list_to_map_const_inv in Hw as [? ->].
      split; [done|]. exists (1 / 2)%R. split; [done|lra].
    + by destruct (H2 f v Hv).
  - intros idx f Hidx Hf. unfold Programa.solicitar_probabilidades.
    rewrite foldl_app. cbn [foldl].
    by apply passo_probabilidade_guarda.
Qed.

(** X28: whatever lines the user types at the prompt of
    [solicitar_manual_coefficients], the dictionary returned has an entry
    for every variable and no other key, and each value is a positive
    number, the positive infinity or [nan]: the test [mc <= 0] lets
    these two through, so a line [idx, nan] or [idx, inf] with a valid
    index stores the value.  When every value typed is a number, every
    value of the dictionary is a positive number. *)
Theorem solicitar_manual_coefficients_positivos
    (variaveis_ordenadas : list string) (linhas : list Programa.linha) :
  (∀ var, var ∈ variaveis_ordenadas →
     is_Some (Programa.solicitar_manual_coefficients variaveis_ordenadas linhas
                !! var))
  ∧ (∀ var v,
       Programa.solicitar_manual_coefficients variaveis_ordenadas linhas !! var
         = Some v →
       var ∈ variaveis_ordenadas
       ∧ (v = Programa.NaN ∨ v = Programa.Infinito true
          ∨ ∃ k, v = Programa.Numero k ∧ (0 < k)%R))
  ∧ ((∀ idx v, Programa.Par idx v ∈ linhas → is_Some (Programa.numero v)) →
     ∀ var v,
       Programa.solicitar_manual_coefficients variaveis_ordenadas linhas !! var
         = Some v →
       ∃ k, v = Programa.Numero k ∧ (0 < k)%R)
  ∧ (∀ idx var v,
       1 ≤ idx → variaveis_ordenadas !! Z.to_nat (idx - 1) = Some var →
       v = Programa.NaN ∨ v = Programa.Infinito true →
       Programa.solicitar_manual_coefficients variaveis_ordenadas
         (linhas ++ [Programa.Par idx v]) !! var
       = Some v).
Proof.
  assert (H0 : ∀ var, var ∈ variaveis_ordenadas →
            is_Some (Programa.manual_coefficients_iniciais variaveis_ordenadas
                       !! var)).
  { intros var Hvar. unfold Programa.manual_coefficients_iniciais.
    rewrite (lookup_list_to_map_const _ _ var Hvar). by eexists. }
  split; [|split; [|split]].
  - apply (foldl_passo_manual_coefficient (λ _, True)); [done|done|].
    intros var v Hv. by apply lookup_list_to_map_const_inv in Hv as [? _].
  - apply (foldl_passo_manual_coefficient
             (λ v, v = Programa.NaN ∨ v = Programa.Infinito true
                   ∨ ∃ k, v = Programa.Numero k ∧ (0 < k)%R)).
    + intros idx v _. apply teste_manual_coefficient.
    + done.
    + intros var v Hv. apply lookup_list_to_map_const_inv in Hv as [? ->].
      split; [done|]. right. right. exists 1%R. split; [done|lra].
  - intros Hn var v Hv.
    destruct (foldl_passo_manual_coefficient
                (λ v, ∃ k, v = Programa.Numero k ∧ (0 < k)%R)
                variaveis_ordenadas linhas
                (Programa.manual_coefficients_iniciais variaveis_ordenadas))
      as [_ H2].
    + intros idx w Hin Ht. destruct (Hn idx w Hin) as [x Hx].
      destruct (teste_manual_coefficient w Ht) as [->|[->|?]]; done.
    + done.
    + intros g w Hw. apply lookup_list_to_map_const_inv in Hw as [? ->].
      split; [done|]. exists 1%R. split; [done|lra].
    + by destruct (H2 var v Hv).
  - intros idx var v Hidx Hvar Hv.
    unfold Programa.solicitar_manual_coefficients.
    rewrite foldl_app. cbn [foldl].
    apply passo_manual_coefficient_guarda; [done|done|].
    by destruct Hv as [->| ->].
Qed.

(** X29: [main] leaves with [sys.exit(1)] when the project has no
    function or no variable, so the VRM model never sees an empty
    dictionary.  Otherwise, with or without [-p] and [-dou], whatever the
    eigen-solver does, when the values typed at the prompts are numbers,
    there are at most 1024 variables and the queue of the depth labeling
    starts with the roots, both analyses return without an exception and
    the total VRM coupling exceeds the number of variables.  And the only
    exception that leaves the two analyses is the [OverflowError] of a
    depth of 1025 or more. *)
Theorem main_sem_excecao
    (eig : list (list R) → resultado (list R * list (list R)))
    (atribuicoes : Ast.node → list (list Ast.node * Ast.node))
    (p : Extrator.projeto) (modo_interativo_zhang modo_interativo_dou : bool)
    (linhas_p linhas_dou : list Programa.linha) (fila0 : list string) :
  (size (dom (Extrator._encontrar_funcoes p)) = 0%nat
   ∨ Variaveis._extrair_variaveis (Programa.itens_funcoes p) = [] →
   Programa.main eig atribuicoes p modo_interativo_zhang modo_interativo_dou
     linhas_p linhas_dou fila0 = inr (Programa.Sair 1))
  ∧ (size (dom (Extrator._encontrar_funcoes p)) ≠ 0%nat →
     Variaveis._extrair_variaveis (Programa.itens_funcoes p) ≠ [] →
     (modo_interativo_zhang = true →
      ∀ idx v, Programa.Par idx v ∈ linhas_p → is_Some (Programa.numero v)) →
     (modo_interativo_dou = true →
      ∀ idx v, Programa.Par idx v ∈ linhas_dou → is_Some (Programa.numero v)) →
     (length (Variaveis._extrair_variaveis (Programa.itens_funcoes p))
      ≤ 1024)%nat →
     fila0 ≡ₚ elements
                (Dou.nos_raiz
                   (Dou.keys
                      (Variaveis._extrair_variaveis (Programa.itens_funcoes p)))
                   (Variaveis._analisar_dependencias_variaveis atribuicoes
                      (Variaveis._extrair_variaveis (Programa.itens_funcoes p))
                      (Programa.itens_funcoes p))) →
     ∃ z c v,
       Programa.main eig atribuicoes p modo_interativo_zhang
         modo_interativo_dou linhas_p linhas_dou fila0
       = inr (Programa.Relatorios z (c, v))
       ∧ (INR (length (Variaveis._extrair_variaveis (Programa.itens_funcoes p)))
          < Dou.C_vrm v)%R)
  ∧ (∀ e,
       Programa.main eig atribuicoes p modo_interativo_zhang
         modo_interativo_dou linhas_p linhas_dou fila0 = inl e →
       e = OverflowError).
Proof.
  unfold Programa.main.
  set (T := Extrator._encontrar_funcoes p).
  set (itens := Programa.itens_funcoes p).
  set (d := Variaveis._extrair_variaveis itens).
  set (deps := Variaveis._analisar_dependencias_variaveis atribuicoes d itens).
  set (fo := Main.funcoes_ordenadas T).
  set (vo := merge_sort Main.string_le (Dou.keys d)).
  destruct (obter_matriz_adjacencia_spec fo (funcoes_ordenadas_NoDup T)
              (Extrator._analisar_chamadas T)) as [Hq _].
  split.
  { intros [H|H].
    - by rewrite decide_True.
    - destruct (decide (size (dom T) = 0%nat)); [done|]. by rewrite decide_True. }
  split.
  - intros HT Hd Hlp Hld Hn Hp.
    rewrite decide_False by done. rewrite decide_False by done.
    assert (Hprobs : ∃ pr,
              (if modo_interativo_zhang
               then Programa.numeros
                      (Programa.solicitar_probabilidades fo linhas_p)
               else Some (Main.probabilidades_padrao fo)) = Some pr
              ∧ ∀ f, f ∈ fo → is_Some (pr !! f)).
    { destruct modo_interativo_zhang.
      - apply solicitar_probabilidades_numeros. by apply Hlp.
      - eexists. split; [done|]. intros f Hf. unfold Main.probabilidades_padrao.
        rewrite (lookup_list_to_map_const _ fo f Hf). by eexists. }
    destruct Hprobs as (pr & -> & Hpr).
    destruct (AnalisadorZhang_retorna eig fo _ pr Hq Hpr) as [z Hz].
    rewrite Hz. simpl.
    assert (Hmcs : ∃ mcs,
              (if modo_interativo_dou
               then Programa.numeros
                      (Programa.solicitar_manual_coefficients vo linhas_dou)
               else Some (Programa.manual_coefficients_padrao vo)) = Some mcs
              ∧ ∀ var k, mcs !! var = Some k → (0 < k)%R).
    { destruct modo_interativo_dou.
      - apply solicitar_manual_coefficients_numeros. by apply Hld.
      - eexists. split; [done|]. intros var k Hk.
        apply lookup_list_to_map_const_inv in Hk as [_ ->]. lra. }
    destruct Hmcs as (mcs & -> & Hmcs).
    destruct (AnalisadorDou_spec d mcs deps fila0 Hd Hn Hp) as (c & v & Hret & _).
    rewrite Hret. simpl. exists z, c, v. split; [done|].
    by destruct (AnalisadorDou_do_extrator_aux atribuicoes itens mcs fila0 c v
                   Hp Hmcs Hret).
  - intros e.
    destruct (decide (size (dom T) = 0%nat)); [done|].
    destruct (decide (d = [])) as [|Hd]; [done|].
    destruct (if modo_interativo_zhang
              then Programa.numeros
                     (Programa.solicitar_probabilidades fo linhas_p)
              else Some (Main.probabilidades_padrao fo)) as [pr|] eqn:Hpr;
      [|done].
    assert (Hprobs : ∀ f, f ∈ fo → is_Some (pr !! f)).
    { intros f Hf. destruct modo_interativo_zhang.
      - eapply numeros_definido; [exact Hpr|].
        destruct (foldl_passo_probabilidade (λ _, True) fo linhas_p
                    (Programa.probabilidades_iniciais fo)) as [H1 _];
          [done| | |by apply H1].
        + intros g Hg. unfold Programa.probabilidades_iniciais.
          rewrite (lookup_list_to_map_const _ fo g Hg). by eexists.
        + intros g w Hw. by apply lookup_list_to_map_const_inv in Hw as [? _].
      - injection Hpr as <-. unfold Main.probabilidades_padrao.
        rewrite (lookup_list_to_map_const _ fo f Hf). by eexists. }
    destruct (AnalisadorZhang_retorna eig fo _ pr Hq Hprobs) as [z Hz].
    rewrite Hz. simpl.
    destruct (if modo_interativo_dou
              then Programa.numeros
                     (Programa.solicitar_manual_coefficients vo linhas_dou)
              else Some (Programa.manual_coefficients_padrao vo)) as [mcs|];
      [|done].
    destruct (Dou.AnalisadorDou d mcs deps fila0) as [e'|cv] eqn:Hdou; [|done].
    simpl. intros [= <-].
    by destruct (AnalisadorDou_inl d mcs deps fila0 e' Hd Hdou).
Qed.

(** The program on [def f(): total = valor + 1; return total], with both
    prompts answered by numbers. *)
Lemma main_sem_excecao_witness :
  ∃ z c v,
    Programa.main Cenarios.eig_falha Cenarios.atribuicoes_total
      Cenarios.projeto_total true true
      [Programa.Par 1 (Programa.Numero (1 / 4)); Programa.Invalida]
      [Programa.Par 2 (Programa.Numero 3)] ["m.f::valor"]
    = inr (Programa.Relatorios z (c, v))
    ∧ (INR (length (Variaveis._extrair_variaveis
                      (Programa.itens_funcoes Cenarios.projeto_total)))
       < Dou.C_vrm v)%R.
Proof.
  destruct (main_sem_excecao Cenarios.eig_falha Cenarios.atribuicoes_total
              Cenarios.projeto_total true true
              [Programa.Par 1 (Programa.Numero (1 / 4)); Programa.Invalida]
              [Programa.Par 2 (Programa.Numero 3)] ["m.f::valor"])
    as (_ & H & _).
  apply H.
  - vm_compute. discriminate.
  - vm_compute. discriminate.
  - intros _ idx v Hin. rewrite !elem_of_cons, elem_of_nil in Hin.
    destruct Hin as [[= _ ->]|[[=]|[]]]. by eexists.
  - intros _ idx v Hin. rewrite !elem_of_cons, elem_of_nil in Hin.
    destruct Hin as [[= _ ->]|[]]. by eexists.
  - vm_compute. lia.
  - vm_compute. reflexivity.
Defined.

(** ** The entropy as a function of one probability *)

Lemma termo_spec_monotono n_i p p' M :
  (0 <= p <= p')%R → (n_i <= 2 * IZR M)%R →
  (Zhang.termo_spec n_i p M <= Zhang.termo_spec n_i p' M)%R.
Proof.
  intros Hp Hn.
  destruct (termo_spec_sinal n_i p' M) as [Hpos _]; [lra|].
  specialize (Hpos Hn). unfold Zhang.termo_spec in *.
  destruct (decide ((n_i > 0)%R ∧ (p > 0)%R ∧ M > 0)) as [(H1 & H2 & H3)|Hc];
    [|destruct (decide _); lra].
  rewrite decide_True by (repeat split; [lra|lra|lia]).
  assert (HM : (0 < IZR M)%R) by (apply IZR_lt; lia).
  destruct (log10_sinal (n_i / (2 * IZR M))) as [Hlog _].
  { apply Rdiv_lt_0_compat; lra. }
  assert (Hq : (n_i / (2 * IZR M) <= 1)%R).
  { apply (Rmult_le_reg_r (2 * IZR M)); [lra|].
    unfold Rdiv. rewrite Rmult_assoc, Rinv_l by lra. lra. }
  specialize (Hlog Hq).
  set (L := Zhang.log10 (n_i / (2 * IZR M))) in *.
  assert (Hk : (0 <= n_i / (2 * IZR M))%R).
  { left. apply Rdiv_lt_0_compat; lra. }
  replace (- (n_i * p / (2 * IZR M)) * L)%R
    with (p * (n_i / (2 * IZR M) * - L))%R by (field; lra).
  replace (- (n_i * p' / (2 * IZR M)) * L)%R
    with (p' * (n_i / (2 * IZR M) * - L))%R by (field; lra).
  apply Rmult_le_compat_r; [|lra].
  apply Rmult_le_pos; lra.
Qed.

(** Below [n_i = 2M] the term grows strictly with the probability. *)
Lemma termo_spec_crescente n_i p p' M :
  (0 <= p < p')%R → (0 < n_i < 2 * IZR M)%R →
  (Zhang.termo_spec n_i p M < Zhang.termo_spec n_i p' M)%R.
Proof.
  intros Hp Hn.
  assert (HM : (0 < IZR M)%R) by lra.
  assert (HMz : M > 0) by (apply Z.lt_gt, lt_IZR; lra).
  assert (Hq : (0 < n_i / (2 * IZR M) < 1)%R).
  { split; [apply Rdiv_lt_0_compat; lra|].
    apply (Rmult_lt_reg_r (2 * IZR M)); [lra|].
    unfold Rdiv. rewrite Rmult_assoc, Rinv_l by lra. lra. }
  assert (HL : (Zhang.log10 (n_i / (2 * IZR M)) < 0)%R).
  { unfold Zhang.log10.
    assert (H10 : (0 < ln 10)%R) by (rewrite <- ln_1; apply ln_increasing; lra).
    assert (Hln : (ln (n_i / (2 * IZR M)) < 0)%R)
      by (rewrite <- ln_1; apply ln_increasing; lra).
    apply (Rmult_lt_reg_r (ln 10)); [done|].
    unfold Rdiv. rewrite Rmult_assoc, Rinv_l by lra. lra. }
  set (L := Zhang.log10 (n_i / (2 * IZR M))) in *.
  assert (HK : (0 < n_i / (2 * IZR M) * - L)%R)
    by (apply Rmult_lt_0_compat; lra).
  assert (H' : Zhang.termo_spec n_i p' M = (p' * (n_i / (2 * IZR M) * - L))%R).
  { unfold Zhang.termo_spec. rewrite decide_True by (repeat split; [lra|lra|lia]).
    fold L. field. lra. }
  assert (H0 : (Zhang.termo_spec n_i p M <= p * (n_i / (2 * IZR M) * - L))%R).
  { unfold Zhang.termo_spec. destruct (decide _) as [_|_].
    - fold L. right. field. lra.
    - apply Rmult_le_pos; lra. }
  rewrite H'.
  assert (p * (n_i / (2 * IZR M) * - L) < p' * (n_i / (2 * IZR M) * - L))%R
    by (apply Rmult_lt_compat_r; lra).
  lra.
Qed.

Lemma soma_R_imap_le {A} (F G : nat → A → R) (l : list A) :
  (∀ i x, l !! i = Some x → F i x <= G i x)%R →
  (soma_R (imap F l) <= soma_R (imap G l))%R.
Proof.
  revert F G. induction l as [|x l IH]; intros F G H.
  - simpl. lra.
  - cbn [imap].
    change (soma_R (?a :: ?b)) with (a + soma_R b)%R.
    assert (F 0%nat x <= G 0%nat x)%R by (by apply H).
    assert (soma_R (imap (F ∘ S) l) <= soma_R (imap (G ∘ S) l))%R.
    { apply IH. intros i y Hy. simpl. by apply (H (S i)). }
    lra.
Qed.

Lemma soma_R_imap_lt {A} (F G : nat → A → R) (l : list A) j y :
  (∀ i x, l !! i = Some x → F i x <= G i x)%R →
  l !! j = Some y → (F j y < G j y)%R →
  (soma_R (imap F l) < soma_R (imap G l))%R.
Proof.
  revert F G j. induction l as [|x l IH]; intros F G j H Hj Hlt; [done|].
  cbn [imap].
  change (soma_R (?a :: ?b)) with (a + soma_R b)%R.
  assert (F 0%nat x <= G 0%nat x)%R by (by apply H).
  destruct j as [|j].
  - injection Hj as ->.
    assert (soma_R (imap (F ∘ S) l) <= soma_R (imap (G ∘ S) l))%R.
    { apply soma_R_imap_le. intros i z Hz. simpl. by apply (H (S i)). }
    lra.
  - assert (soma_R (imap (F ∘ S) l) < soma_R (imap (G ∘ S) l))%R.
    { apply (IH _ _ j); [|done|done]. intros i z Hz. simpl. by apply (H (S i)). }
    lra.
Qed.

(** X30: raising the probability of one function, from [p >= 0] to
    [p' >= p], does not lower the entropy, provided every row of that
    function sums to at most [2M]: the records of the other functions
    are unchanged, and the term of that function does not decrease.
    When its rows sum to more than 0 and less than [2M] and [p < p'],
    the entropy grows. *)
Theorem entropia_monotona_na_probabilidade funcoes (m : list (list Z))
    (probabilidades : gmap string R) f p p' :
  (length funcoes ≤ length m)%nat →
  (∀ g, g ∈ funcoes → is_Some (probabilidades !! g)) →
  probabilidades !! f = Some p →
  (0 <= p <= p')%R →
  (∀ i linha, funcoes !! i = Some f → m !! i = Some linha →
     soma_Z linha ≤ 2 * Zhang.M (Zhang._contar_acoplas m)) →
  ∃ e e',
    Zhang._calcular_entropy_model funcoes (Zhang._contar_acoplas m)
      probabilidades = inr e
    ∧ Zhang._calcular_entropy_model funcoes (Zhang._contar_acoplas m)
        (<[f := p']> probabilidades) = inr e'
    ∧ (Zhang.H_entropy e <= Zhang.H_entropy e')%R
    ∧ (∀ i g, funcoes !! i = Some g → g ≠ f →
         Zhang.H_entropy_detalhado e' !! i = Zhang.H_entropy_detalhado e !! i)
    ∧ (∀ i, funcoes !! i = Some f →
         ∃ it it',
           Zhang.H_entropy_detalhado e !! i = Some it
           ∧ Zhang.H_entropy_detalhado e' !! i = Some it'
           ∧ Zhang.pi it = p ∧ Zhang.pi it' = p'
           ∧ Zhang.ni it' = Zhang.ni it
           ∧ (Zhang.termo it <= Zhang.termo it')%R)
    ∧ (f ∈ funcoes → (p < p')%R →
       (∀ i linha, funcoes !! i = Some f → m !! i = Some linha →
          0 < soma_Z linha < 2 * Zhang.M (Zhang._contar_acoplas m)) →
       (Zhang.H_entropy e < Zhang.H_entropy e')%R).
Proof.
  intros Hlen Hprobs Hf Hp Hn.
  set (a := Zhang._contar_acoplas m) in *.
  assert (Hg : (length funcoes ≤ length (Zhang.graus a))%nat)
    by (simpl; by rewrite length_fmap).
  destruct (_calcular_entropy_model_spec a probabilidades funcoes Hg Hprobs)
    as (e & He & Hdet & HH & _).
  destruct (_calcular_entropy_model_spec a (<[f := p']> probabilidades) funcoes Hg)
    as (e' & He' & Hdet' & HH' & _).
  { intros g Hin. destruct (decide (f = g)) as [->|Hne].
    - rewrite lookup_insert_eq. by eexists.
    - rewrite lookup_insert_ne by done. by apply Hprobs. }
  assert (Hgrau : ∀ i linha, m !! i = Some linha →
            Zhang.graus a !!! i = soma_Z linha).
  { intros i linha Hl. apply list_lookup_total_correct.
    simpl. by rewrite list_lookup_fmap, Hl. }
  assert (Hlinha : ∀ i g, funcoes !! i = Some g → is_Some (m !! i)).
  { intros i g Hi. apply lookup_lt_is_Some_2.
    apply lookup_lt_Some in Hi. lia. }
  assert (Hmono : ∀ i g, funcoes !! i = Some g →
            (Zhang.termo (Zhang.item_de a probabilidades i g)
             <= Zhang.termo (Zhang.item_de a (<[f := p']> probabilidades) i g))%R).
  { intros i g Hi. cbn [Zhang.termo Zhang.item_de].
    destruct (decide (f = g)) as [<-|Hne].
    - rewrite (lookup_total_correct _ _ _ Hf), lookup_total_insert_eq.
      apply termo_spec_monotono; [done|].
      destruct (Hlinha i f Hi) as [linha Hl].
      rewrite (Hgrau i linha Hl).
      rewrite <- mult_IZR. apply IZR_le. by apply (Hn i linha).
    - rewrite lookup_total_insert_ne by done. lra. }
  exists e, e'. split; [done|]. split; [done|].
  rewrite HH, HH', Hdet, Hdet'. rewrite !fmap_imap.
  split; [by apply soma_R_imap_le|]. split; [|split].
  - intros i g Hi Hne. rewrite !list_lookup_imap, Hi. cbn [fmap option_fmap option_map].
    unfold Zhang.item_de. by rewrite lookup_total_insert_ne.
  - intros i Hi. eexists _, _. rewrite !list_lookup_imap, Hi.
    cbn [fmap option_fmap option_map Zhang.item_de Zhang.pi Zhang.ni Zhang.termo].
    split; [reflexivity|]. split; [reflexivity|].
    split; [exact (lookup_total_correct _ _ _ Hf)|].
    split; [apply lookup_total_insert_eq|].
    split; [done|]. exact (Hmono i f Hi).
  - intros Hin Hlt Hpos.
    apply list_elem_of_lookup in Hin as [j Hj].
    apply (soma_R_imap_lt _ _ _ j f); [done|done|].
    unfold compose. cbn [Zhang.termo Zhang.item_de].
    rewrite (lookup_total_correct _ _ _ Hf), lookup_total_insert_eq.
    destruct (Hlinha j f Hj) as [linha Hl].
    rewrite (Hgrau j linha Hl).
    destruct (Hpos j linha Hj Hl) as [H0 H2].
    apply termo_spec_crescente; [lra|]. split.
    + by apply IZR_lt.
    + rewrite <- mult_IZR. by apply IZR_lt.
Qed.

(** [f] and [g] call each other: [M = 1] and each row sums to 1, so
    raising the probability of [f] from 0.5 to 1 raises the entropy. *)
Lemma entropia_monotona_na_probabilidade_witness :
  ∃ e e',
    Zhang._calcular_entropy_model Cenarios.funcoes_fg
      (Zhang._contar_acoplas Cenarios.matriz_mutua)
      (Main.probabilidades_padrao Cenarios.funcoes_fg) = inr e
    ∧ Zhang._calcular_entropy_model Cenarios.funcoes_fg
        (Zhang._contar_acoplas Cenarios.matriz_mutua)
        (<["m.f" := 1%R]> (Main.probabilidades_padrao Cenarios.funcoes_fg))
      = inr e'
    ∧ (Zhang.H_entropy e <= Zhang.H_entropy e')%R
    ∧ Zhang.H_entropy_detalhado e' !! 1%nat = Zhang.H_entropy_detalhado e !! 1%nat
    ∧ (Zhang.H_entropy e < Zhang.H_entropy e')%R.
Proof.
  destruct (entropia_monotona_na_probabilidade Cenarios.funcoes_fg
              Cenarios.matriz_mutua
              (Main.probabilidades_padrao Cenarios.funcoes_fg)
              "m.f" (1 / 2)%R 1%R)
    as (e & e' & He & He' & Hle & Hout & _ & Hlt).
  - simpl. lia.
  - intros g Hg. unfold Main.probabilidades_padrao.
    rewrite (lookup_list_to_map_const _ _ g Hg). by eexists.
  - apply lookup_list_to_map_const. left.
  - lra.
  - intros i linha Hi Hl.
    assert (Hi0 : i = 0%nat).
    { destruct i as [|[|i]]; try done; simpl in Hi; discriminate Hi. }
    subst i. injection Hl as <-. vm_compute. discriminate.
  - exists e, e'. split; [exact He|]. split; [exact He'|].
    split; [exact Hle|]. split.
    + apply (Hout 1%nat "m.g"); [reflexivity|discriminate].
    + apply Hlt; [left|lra|].
      intros i linha Hi Hl.
      assert (Hi0 : i = 0%nat).
      { destruct i as [|[|i]]; try done; simpl in Hi; discriminate Hi. }
      subst i. injection Hl as <-. vm_compute. done.
Defined.
